(** * UrDashboard: the background snake simulation (SnakeAI and the tick loop)

    A shallow embedding of the [SnakeAI] class and of the world loop that
    drives it, followed by the properties that the design document states
    about them.

    Conventions of the embedding.
    - JavaScript numbers that hold grid coordinates, indices and counters are
      integers far below 2^53, where double arithmetic is exact; they are [Z].
    - The seed of the controller is an integer-valued double of any
      magnitude, a [Z] as well; the one addition made on it is rounded as
      the addition of doubles is ([Rng.roundDouble]).
    - A [Map] or [Set] keyed by the template string [`${x},${y}`] is keyed by
      the pair [(x, y)]: for integers that string is an injective rendering
      of the pair.
    - A [TypeError] raised by a property access on [undefined] is the [None]
      of an [option] result; [undefined] and [NaN] values that the code
      merely carries around are [None] inside the value. *)

From stdpp Require Import base gmap sets list strings.
From Stdlib Require Import ZArith Lia.

Local Open Scope Z_scope.

(** ** Positions *)

Abbreviation pos := (Z * Z)%type.

Definition px (p : pos) : Z := fst p.
Definition py (p : pos) : Z := snd p.

(** [a.x === b.x && a.y === b.y] *)
Definition pos_eqb (a b : pos) : bool := (px a =? px b) && (py a =? py b).

(** ** DeterministicRandom: [SnakeAI.random] *)

Module Rng.

Definition two32 : Z := 4294967296.

(** ToUint32 and ToInt32 of an integer-valued number. *)
Definition toUint32 (z : Z) : Z := z mod two32.
Definition toInt32 (z : Z) : Z := (z + 2147483648) mod two32 - 2147483648.

(** [a ^ b], [a | b], [a >>> n] and [Math.imul(a, b)]. *)
Definition xor32 (a b : Z) : Z := toInt32 (Z.lxor (toInt32 a) (toInt32 b)).
Definition or32 (a b : Z) : Z := toInt32 (Z.lor (toInt32 a) (toInt32 b)).
Definition ushr32 (a n : Z) : Z := Z.shiftr (toUint32 a) n.
Definition imul (a b : Z) : Z := toInt32 (toInt32 a * toInt32 b).

(** The double nearest to the integer [z], a tie going to the neighbour whose
    53-bit significand is even: the value of a sum of integer-valued doubles
    whose exact value is [z]. Up to [2^53] in magnitude every integer is a
    double. *)
Definition roundDouble (z : Z) : Z :=
  let a := Z.abs z in
  if a <=? 9007199254740992 then z
  else
    let ulp := 2 ^ (Z.log2 a - 52) in
    let q := a / ulp in
    let r := a mod ulp in
    let q := if 2 * r <? ulp then q
             else if ulp <? 2 * r then q + 1
             else if Z.even q then q else q + 1 in
    Z.sgn z * (q * ulp).

(** One call of [random()] on the field [seed], an integer-valued double:
    the new value of the field and the numerator [k] of the returned double
    [k / 4294967296]. [this.seed += 0x6D2B79F5] is an addition of doubles,
    which rounds once the sum leaves the range of the exact integers; the
    addend is too small for the sum of a finite double to overflow. The
    32-bit operations that follow act on the rounded sum. *)
Definition random (seed : Z) : Z * Z :=
  let seed' := roundDouble (seed + 1831565813) in
  let t := seed' in
  let t := imul (xor32 t (ushr32 t 15)) (or32 t 1) in
  let t := xor32 t (t + imul (xor32 t (ushr32 t 7)) (or32 t 61)) in
  (seed', ushr32 (xor32 t (ushr32 t 14)) 0).

(** [Math.floor(r * n)] for [r = k / 2^32]. *)
Definition scale (k n : Z) : Z := (k * n) / two32.

(** The first [n] outputs of the stream. *)
Fixpoint stream (n : nat) (seed : Z) : list Z :=
  match n with
  | O => []
  | S n' => let '(s, k) := random seed in k :: stream n' s
  end.

End Rng.

(** ** CycleBuilder *)

(** A frontier edge [{u, v}] of the coarse grid. *)
Record wall : Type := Wall { wall_u : pos; wall_v : pos }.

Definition dirs : list pos := [(0, -1); (0, 1); (-1, 0); (1, 0)].

(** [addWalls(node, w, h, walls)]: pushes, in the order of [dirs], the edges
    to the in-range coarse neighbours of [node]. *)
Definition addWalls (node : pos) (w h : Z) (walls : list wall) : list wall :=
  walls ++
  omap (fun d =>
          let nx := px node + px d in
          let ny := py node + py d in
          if (0 <=? nx) && (nx <? w) && (0 <=? ny) && (ny <? h)
          then Some (Wall node (nx, ny)) else None) dirs.

(** [walls.splice(i, 1)]: the list without its [i]-th element. *)
Definition splice1 {A} (i : nat) (l : list A) : list A := take i l ++ drop (S i) l.

(** The [while (walls.length > 0)] loop of [generateMST]. Every iteration
    removes one wall and at most one iteration per coarse cell adds walls, so
    the loop is bounded; [fuel] counts the iterations still allowed, and
    running out of it is [None]. *)
Fixpoint mstLoop (fuel : nat) (w h : Z) (seed : Z) (visited : gset pos)
    (walls : list wall) (mstEdges : list wall) : option (Z * list wall) :=
  match walls with
  | [] => Some (seed, mstEdges)
  | _ :: _ =>
    match fuel with
    | O => None
    | S fuel' =>
      let '(seed, k) := Rng.random seed in
      let randIdx := Z.to_nat (Rng.scale k (Z.of_nat (length walls))) in
      match walls !! randIdx with
      | None => None
      | Some wl =>
        let walls := splice1 randIdx walls in
        let uVis := bool_decide (wall_u wl ∈ visited) in
        let vVis := bool_decide (wall_v wl ∈ visited) in
        if negb (eqb uVis vVis) then
          let unvisited := if uVis then wall_v wl else wall_u wl in
          mstLoop fuel' w h seed ({[unvisited]} ∪ visited)
                  (addWalls unvisited w h walls) (mstEdges ++ [wl])
        else mstLoop fuel' w h seed visited walls mstEdges
      end
    end
  end.

(** [generateMST(w, h)], threading the seed. *)
Definition generateMST (w h : Z) (seed : Z) : option (Z * list wall) :=
  let '(seed, kx) := Rng.random seed in
  let '(seed, ky) := Rng.random seed in
  let start : pos := (Rng.scale kx w, Rng.scale ky h) in
  let visited : gset pos := {[start]} in
  let walls := addWalls start w h [] in
  mstLoop (Z.to_nat (4 * w * h)) w h seed visited walls [].

(** The adjacency table [links]: position to the array of linked positions. *)
Abbreviation links_t := (gmap pos (list pos)).

(** [link(links, a, b)] *)
Definition link (links : links_t) (a b : pos) : links_t :=
  let links := if decide (is_Some (links !! a)) then links else <[a := []]> links in
  let links := if decide (is_Some (links !! b)) then links else <[b := []]> links in
  let links := <[a := default [] (links !! a) ++ [b]]> links in
  <[b := default [] (links !! b) ++ [a]]> links.

(** [unlink(links, a, b)]; [None] when [a] or [b] has no entry. *)
Definition unlink (links : links_t) (a b : pos) : option links_t :=
  la ← links !! a;
  lb ← links !! b;
  let la := filter (fun p => px p ≠ px b ∨ py p ≠ py b) la in
  let lb := filter (fun p => px p ≠ px a ∨ py p ≠ py a) lb in
  Some (<[b := lb]> (<[a := la]> links)).

(** [swapLinks(links, a1, a2, b1, b2)] *)
Definition swapLinks (links : links_t) (a1 a2 b1 b2 : pos) : option links_t :=
  links ← unlink links a1 a2;
  links ← unlink links b1 b2;
  Some (link (link links a1 b1) a2 b2).

(** The four links of the 2x2 block of coarse cell [(cx, cy)]. *)
Definition linkBlock (links : links_t) (c : pos) : links_t :=
  let cx := px c in
  let cy := py c in
  let tl := (2 * cx, 2 * cy) in
  let tr := (2 * cx + 1, 2 * cy) in
  let bl := (2 * cx, 2 * cy + 1) in
  let br := (2 * cx + 1, 2 * cy + 1) in
  link (link (link (link links tl tr) tr br) br bl) bl tl.

(** [0, 1, ..., n-1] as integers. *)
Definition zrange (n : Z) : list Z := Z.of_nat <$> seq 0 (Z.to_nat n).

(** The coarse cells in the order of the nested [for] loops: [cx] outer. *)
Definition coarseCells (w h : Z) : list pos :=
  cx ← zrange w; (fun cy => (cx, cy)) <$> zrange h.

(** The body of [mstEdges.forEach] in [mstToCycle]. *)
Definition applyEdge (links : links_t) (e : wall) : option links_t :=
  let '(ux, uy) := wall_u e in
  let '(vx, vy) := wall_v e in
  let dx := vx - ux in
  let dy := vy - uy in
  if dx =? 1 then
    swapLinks links (2*ux+1, 2*uy) (2*ux+1, 2*uy+1) (2*vx, 2*vy) (2*vx, 2*vy+1)
  else if dx =? -1 then
    swapLinks links (2*ux, 2*uy) (2*ux, 2*uy+1) (2*vx+1, 2*vy) (2*vx+1, 2*vy+1)
  else if dy =? 1 then
    swapLinks links (2*ux, 2*uy+1) (2*ux+1, 2*uy+1) (2*vx, 2*vy) (2*vx+1, 2*vy)
  else if dy =? -1 then
    swapLinks links (2*ux, 2*uy) (2*ux+1, 2*uy) (2*vx, 2*vy+1) (2*vx+1, 2*vy+1)
  else Some links.

Fixpoint applyEdges (links : links_t) (es : list wall) : option links_t :=
  match es with
  | [] => Some links
  | e :: es => links ← applyEdge links e; applyEdges links es
  end.

(** The traversal loop of [mstToCycle]: [n] iterations left, [cycle] holds
    the positions pushed so far. [curr] is [None] when the previous iteration
    read a missing [neighbors[1]]; the next [curr.x] then throws. *)
Fixpoint walk (n : nat) (links : links_t) (curr : option pos) (prev : pos)
    (cycle : list pos) : option (list pos) :=
  match n with
  | O => Some cycle
  | S n' =>
    c ← curr;
    let cycle := cycle ++ [c] in
    match links !! c with
    | None => Some cycle
    | Some neighbors =>
      n0 ← neighbors !! 0%nat;
      let next := if pos_eqb n0 prev then neighbors !! 1%nat else Some n0 in
      walk n' links next c cycle
    end
  end.

(** [mstToCycle(mstEdges, w, h)] for a controller with [cols] and [rows]. *)
Definition mstToCycle (cols rows : Z) (mstEdges : list wall) (w h : Z)
    : option (list pos) :=
  let links := foldl linkBlock (∅ : links_t) (coarseCells w h) in
  links ← applyEdges links mstEdges;
  l0 ← links !! (0, 0);
  prev ← l0 !! 0%nat;
  walk (Z.to_nat (cols * rows)) links (Some (0, 0)) prev [].

(** [generateHamiltonianCycle()] on even [cols] and [rows] ([cols / 2] is then
    the integer quotient): the new seed and the cycle. *)
Definition generateHamiltonianCycle (cols rows seed : Z) : option (Z * list pos) :=
  let w := cols / 2 in
  let h := rows / 2 in
  '(seed, mst) ← generateMST w h seed;
  cycle ← mstToCycle cols rows mst w h;
  Some (seed, cycle).

(** ** The controller object *)

Record SnakeAI : Type := MkAI {
  cols : Z;
  rows : Z;
  hamiltonianCycle : list pos;
  cycleMap : gmap pos Z;
  isInitialized : bool;
  seed : Z
}.

(** [new SnakeAI(cols, rows, seed)]. The field [seed] is [seed || Date.now()]:
    a zero seed is replaced by the reading [now] of the host clock. *)
Definition newSnakeAI (cols rows seed now : Z) : SnakeAI :=
  {| cols := cols; rows := rows; hamiltonianCycle := []; cycleMap := ∅;
     isInitialized := false; seed := if seed =? 0 then now else seed |}.

(** [cycleMap.clear()] followed by [forEach((pos, index) => cycleMap.set(..))]:
    a later index replaces an earlier one. *)
Fixpoint fillCycleMap (m : gmap pos Z) (index : Z) (cycle : list pos) : gmap pos Z :=
  match cycle with
  | [] => m
  | p :: cycle => fillCycleMap (<[p := index]> m) (index + 1) cycle
  end.

Definition buildCycleMap (cycle : list pos) : gmap pos Z := fillCycleMap ∅ 0 cycle.

(** [init()]: refuses odd dimensions (the controller is returned unchanged),
    otherwise builds the cycle. [None] is the [TypeError] of the traversal
    set-up when the link table has no entry for [0,0]. *)
Definition init (ai : SnakeAI) : option SnakeAI :=
  if negb (Z.rem (cols ai) 2 =? 0) || negb (Z.rem (rows ai) 2 =? 0) then Some ai
  else
    '(seed', cycle) ← generateHamiltonianCycle (cols ai) (rows ai) (seed ai);
    Some {| cols := cols ai; rows := rows ai; hamiltonianCycle := cycle;
            cycleMap := buildCycleMap cycle; isInitialized := true;
            seed := seed' |}.

(** [if (!this.isInitialized) this.init()] *)
Definition ensureInit (ai : SnakeAI) : option SnakeAI :=
  if isInitialized ai then Some ai else init ai.

Definition getCycleIndex (ai : SnakeAI) (p : pos) : option Z := cycleMap ai !! p.

(** The length of the cycle array, as a number. *)
Definition cycleLen (ai : SnakeAI) : Z := Z.of_nat (length (hamiltonianCycle ai)).

(** [a % n] on numbers that may be [NaN] ([None]); [n = 0] gives [NaN]. *)
Definition jsRem (a : option Z) (n : Z) : option Z :=
  a ← a; if n =? 0 then None else Some (Z.rem a n).

(** [arr[i]] for a number [i] that may be [NaN]; out of range and negative
    indices read [undefined]. *)
Definition jsIndex {A} (arr : list A) (i : option Z) : option A :=
  i ← i; if i <? 0 then None else arr !! Z.to_nat i.

Definition optAdd (a : option Z) (b : Z) : option Z := (fun a => a + b) <$> a.

(** [arr.some(obs => obs.x === pos.x && obs.y === pos.y)] where [pos] may be
    [undefined]: the callback then throws as soon as it is called. *)
Definition someAt (obstacles : list pos) (p : option pos) : option bool :=
  match obstacles, p with
  | [], _ => Some false
  | _ :: _, None => None
  | _ :: _, Some p => Some (existsb (fun obs => pos_eqb obs p) obstacles)
  end.

(** The loop of [isSafePath]. *)
Fixpoint isSafePathLoop (steps : nat) (ai : SnakeAI) (currentIdx : option Z)
    (obstacles : list pos) : option bool :=
  match steps with
  | O => Some true
  | S steps =>
    let currentIdx := jsRem (optAdd currentIdx 1) (cycleLen ai) in
    let p := jsIndex (hamiltonianCycle ai) currentIdx in
    hit ← someAt obstacles p;
    if hit : bool then Some false else isSafePathLoop steps ai currentIdx obstacles
  end.

Definition isSafePath (ai : SnakeAI) (startPos : pos) (steps : nat)
    (obstacles : list pos) : option bool :=
  isSafePathLoop steps ai (getCycleIndex ai startPos) obstacles.

Definition radius5 : list Z := [-2; -1; 0; 1; 2].

(** [getDangerScore(pos, obstaclesSet)]: [dy] is the outer loop. *)
Definition getDangerScore (ai : SnakeAI) (p : pos) (obstaclesSet : gset pos) : Z :=
  foldl (fun score dy =>
    foldl (fun score dx =>
      if (dx =? 0) && (dy =? 0) then score
      else
        let cx := px p + dx in
        let cy := py p + dy in
        if (cx <? 0) || (cols ai <=? cx) || (cy <? 0) || (rows ai <=? cy)
        then score + 5
        else if bool_decide ((cx, cy) ∈ obstaclesSet)
             then (if Z.abs dx + Z.abs dy =? 1 then score + 20 else score + 10)
             else score) score radius5) 0 radius5.

(** [getNeighbors(node)]: the in-grid neighbours in the order up, down, left,
    right. *)
Definition getNeighbors (ai : SnakeAI) (node : pos) : list pos :=
  omap (fun d =>
          let nx := px node + px d in
          let ny := py node + py d in
          if (0 <=? nx) && (nx <? cols ai) && (0 <=? ny) && (ny <? rows ai)
          then Some (nx, ny) else None) dirs.

(** One [forEach] pass of [floodFill] over the neighbours of [curr]. *)
Definition floodPush (obstacles : gset pos) (st : list pos * gset pos) (n : pos)
    : list pos * gset pos :=
  if bool_decide (n ∉ obstacles) && bool_decide (n ∉ st.2)
  then (st.1 ++ [n], {[n]} ∪ st.2) else st.

(** The [while (queue.length > 0 && count < 300)] loop; [budget] is
    [300 - count]. *)
Fixpoint floodLoop (budget : nat) (ai : SnakeAI) (obstacles : gset pos)
    (queue : list pos) (visited : gset pos) (count : Z) : Z :=
  match budget with
  | O => count
  | S budget =>
    match queue with
    | [] => count
    | curr :: queue =>
      let st := foldl (floodPush obstacles) (queue, visited) (getNeighbors ai curr) in
      floodLoop budget ai obstacles st.1 st.2 (count + 1)
    end
  end.

Definition floodFill (ai : SnakeAI) (start : pos) (obstacles : gset pos) : Z :=
  floodLoop 300 ai obstacles [start] {[start]} 0.

(** The move object returned by [getNextMove]. *)
Record Move : Type := MkMove {
  mv_x : Z;
  mv_y : Z;
  mv_type : string;
  mv_reason : option string;
  mv_score : option Z
}.

(** [score > bestScore] where [bestScore] starts at [-Infinity] ([None]). *)
Definition beats (score : Z) (bestScore : option Z) : bool :=
  match bestScore with None => true | Some b => b <? score end.

(** The body of [neighbors.forEach] in [survive]. *)
Definition surviveStep (ai : SnakeAI) (snakeSet obstaclesSet allObs : gset pos)
    (best : option pos * option Z) (n : pos) : option pos * option Z :=
  if bool_decide (n ∉ snakeSet) && bool_decide (n ∉ obstaclesSet) then
    let score := floodFill ai n allObs - getDangerScore ai n obstaclesSet * 2 in
    if beats score best.2 then (Some n, Some score) else best
  else best.

(** [survive(head, snake, obstaclesSet, reason)]; the result is the move
    object or [null]. *)
Definition survive (ai : SnakeAI) (head : pos) (snake : list pos)
    (obstaclesSet : gset pos) (reason : string) : option Move :=
  let neighbors := getNeighbors ai head in
  let snakeSet : gset pos := list_to_set snake in
  let allObs := obstaclesSet ∪ snakeSet in
  let best := foldl (surviveStep ai snakeSet obstaclesSet allObs) (None, None) neighbors in
  match best.1 with
  | Some bestMove =>
    Some {| mv_x := px bestMove - px head; mv_y := py bestMove - py head;
            mv_type := "survival"; mv_reason := Some reason; mv_score := best.2 |}
  | None => None
  end.

(** The shared claims table [sharedTargets]: agent id to food index. *)
Abbreviation targets_t := (gmap Z Z).

(** The inner [for (let [oid, tidx] of sharedTargets)] loop. *)
Definition isTaken (sharedTargets : option targets_t) (snakeId : Z) (i : Z) : bool :=
  match sharedTargets with
  | None => false
  | Some t =>
    existsb (fun e => negb (e.1 =? snakeId) && (e.2 =? i)) (map_to_list t)
  end.

(** The state of the [foods.forEach] loop of [findNearestFood]:
    [minCycleDist] ([None] is [Infinity]), [nearest] and [nearestIdx]. *)
Record nearestState : Type := MkNearest {
  minCycleDist : option Z;
  nearest : option pos;
  nearestIdx : Z
}.

(** [dist < minCycleDist] *)
Definition closer (dist : Z) (minCycleDist : option Z) : bool :=
  match minCycleDist with None => true | Some m => dist <? m end.

Definition nearestStep (ai : SnakeAI) (headIdx : option Z)
    (sharedTargets : option targets_t) (snakeId : Z)
    (st : nearestState) (i : Z) (f : pos) : nearestState :=
  if isTaken sharedTargets snakeId i then st
  else
    match getCycleIndex ai f, headIdx with
    | Some fIdx, Some hIdx =>
      let dist := fIdx - hIdx in
      let dist := if dist <? 0 then dist + cycleLen ai else dist in
      if closer dist (minCycleDist st)
      then {| minCycleDist := Some dist; nearest := Some f; nearestIdx := i |}
      else st
    | _, _ => st
    end.

(** [foods.forEach((f, i) => ...)] from index [i] on. *)
Fixpoint nearestLoop (ai : SnakeAI) (headIdx : option Z)
    (sharedTargets : option targets_t) (snakeId : Z)
    (st : nearestState) (i : Z) (foods : list pos) : nearestState :=
  match foods with
  | [] => st
  | f :: foods =>
    nearestLoop ai headIdx sharedTargets snakeId
      (nearestStep ai headIdx sharedTargets snakeId st i f) (i + 1) foods
  end.

(** [findNearestFood(head, foods, snakeId, sharedTargets)]: the food found
    (or [null]) and the claims table after the call. *)
Definition findNearestFood (ai : SnakeAI) (head : pos) (foods : list pos)
    (snakeId : Z) (sharedTargets : option targets_t)
    : option pos * option targets_t :=
  let headIdx := getCycleIndex ai head in
  let st := nearestLoop ai headIdx sharedTargets snakeId
              {| minCycleDist := None; nearest := None; nearestIdx := -1 |} 0 foods in
  let sharedTargets :=
    match nearest st, sharedTargets with
    | Some _, Some t =>
      if negb (snakeId =? -1) then Some (<[snakeId := nearestIdx st]> t) else Some t
    | _, _ => sharedTargets
    end in
  (nearest st, sharedTargets).

(** [(idx - headIdx + length) % length] on indices that may be [undefined]. *)
Definition aheadBy (ai : SnakeAI) (idx : option Z) (headIdx : option Z) : option Z :=
  match idx, headIdx with
  | Some i, Some h => jsRem (Some (i - h + cycleLen ai)) (cycleLen ai)
  | _, _ => None
  end.

(** [snake.some((p, i) => i < snake.length - 1 && p.x === n.x && p.y === n.y)] *)
Definition onBodyButTail (snake : list pos) (n : pos) : bool :=
  existsb (fun p => pos_eqb p n) (take (length snake - 1) snake).

(** [a < b] on numbers that may be [NaN]: false as soon as one is. *)
Definition ltNum (a b : option Z) : bool :=
  match a, b with Some a, Some b => a <? b | _, _ => false end.

(** The test applied to one neighbour [n] by the loop of [findShortcut]. *)
Definition shortcutOk (ai : SnakeAI) (headIdx : option Z)
    (targetDist tailDist : option Z) (snake : list pos) (obstaclesSet : gset pos)
    (n : pos) : bool :=
  if bool_decide (n ∈ obstaclesSet) then false
  else if 15 <? getDangerScore ai n obstaclesSet then false
  else
    match getCycleIndex ai n with
    | None => false
    | Some nIdx =>
      if onBodyButTail snake n then false
      else
        let nDist := aheadBy ai (Some nIdx) headIdx in
        ltNum nDist targetDist && ltNum (Some 1) nDist && ltNum nDist tailDist
    end.

(** [for (let n of neighbors) { ... return n; } return null;] *)
Fixpoint firstShortcut (ok : pos → bool) (neighbors : list pos) : option pos :=
  match neighbors with
  | [] => None
  | n :: neighbors => if ok n then Some n else firstShortcut ok neighbors
  end.

(** [findShortcut(head, headIdx, food, foodIdx, snake, obstaclesSet)].
    [snake[snake.length - 1]] of an empty body is [undefined], and reading its
    [x] throws. *)
Definition findShortcut (ai : SnakeAI) (head : pos) (headIdx : option Z)
    (food : pos) (foodIdx : option Z) (snake : list pos)
    (obstaclesSet : gset pos) : option (option pos) :=
  let targetDist := aheadBy ai foodIdx headIdx in
  tail ← last snake;
  let tailIdx := getCycleIndex ai tail in
  let tailDist := aheadBy ai tailIdx headIdx in
  Some (firstShortcut (shortcutOk ai headIdx targetDist tailDist snake obstaclesSet)
                      (getNeighbors ai head)).

(** The set built at the start of [getNextMove]. *)
Definition mkObstaclesSet (obstacles : list pos) (poison : option pos) : gset pos :=
  let s : gset pos := list_to_set obstacles in
  match poison with Some p => {[p]} ∪ s | None => s end.

(** The result of a call of [getNextMove]: the returned value (a move or
    [null]), the claims table and the controller after the call. *)
Record decision : Type := MkDecision {
  dec_move : option Move;
  dec_targets : option targets_t;
  dec_ai : SnakeAI
}.

(** [getNextMove(snake, foods, poison, obstacles, snakeId, sharedTargets)];
    [None] is a [TypeError]. *)
Definition getNextMove (ai : SnakeAI) (snake : list pos) (foods : list pos)
    (poison : option pos) (obstacles : list pos) (snakeId : Z)
    (sharedTargets : option targets_t) : option decision :=
  ai ← ensureInit ai;
  head ← head snake;
  let headIndex := getCycleIndex ai head in
  let obstaclesSet := mkObstaclesSet obstacles poison in
  let nextIndex := jsRem (optAdd headIndex 1) (cycleLen ai) in
  nextPos ← jsIndex (hamiltonianCycle ai) nextIndex;
  if bool_decide (nextPos ∈ obstaclesSet) then
    Some (MkDecision (survive ai head snake obstaclesSet "Immediate Blockage")
                     sharedTargets ai)
  else
    safe ← isSafePath ai head 5 obstacles;
    if negb safe then
      Some (MkDecision (survive ai head snake obstaclesSet "Path Blocked Ahead")
                       sharedTargets ai)
    else
      let '(targetFood, sharedTargets) := findNearestFood ai head foods snakeId sharedTargets in
      let cycleMove :=
        {| mv_x := px nextPos - px head; mv_y := py nextPos - py head;
           mv_type := "cycle"; mv_reason := None; mv_score := None |} in
      match targetFood with
      | Some food =>
        let foodIndex := getCycleIndex ai food in
        shortcut ← findShortcut ai head headIndex food foodIndex snake obstaclesSet;
        match shortcut with
        | Some sc =>
          Some (MkDecision
                  (Some {| mv_x := px sc - px head; mv_y := py sc - py head;
                           mv_type := "shortcut"; mv_reason := Some "Safe Shortcut";
                           mv_score := None |})
                  sharedTargets ai)
        | None => Some (MkDecision (Some cycleMove) sharedTargets ai)
        end
      | None => Some (MkDecision (Some cycleMove) sharedTargets ai)
      end.

(** The start state returned by [getStartState]. *)
Record startState : Type := MkStart {
  st_snake : list pos;
  st_dx : Z;
  st_dy : Z
}.

(** [getStartState(seedOffset)] for an offset [off / 2^32] with [0 <= off]:
    on such offsets, which include the [0] and [0.5] of [initGame], the sum
    with the output [k / 2^32] of [random()] and the remainder [% 1] are exact
    in double arithmetic. [None] is a [TypeError]. *)
Definition getStartState (ai : SnakeAI) (off : Z) : option (startState * SnakeAI) :=
  ai ← ensureInit ai;
  let '(seed', k) := Rng.random (seed ai) in
  let ai := {| cols := cols ai; rows := rows ai;
               hamiltonianCycle := hamiltonianCycle ai; cycleMap := cycleMap ai;
               isInitialized := isInitialized ai; seed := seed' |} in
  let rng := Z.rem (k + off) Rng.two32 in
  let len := 3 in
  let headIdx := Rng.scale rng (cycleLen ai - len) in
  let cell (i : Z) :=
    jsIndex (hamiltonianCycle ai) (jsRem (Some (headIdx - i + cycleLen ai)) (cycleLen ai)) in
  s0 ← cell 0;
  s1 ← cell 1;
  s2 ← cell 2;
  Some ({| st_snake := [s0; s1; s2]; st_dx := px s0 - px s1; st_dy := py s0 - py s1 |}, ai).

(** ** WorldSimulation: the module state and the tick loop *)

(** What a call can do: return, throw a [TypeError], or still be running
    when the iterations allowed to an unbounded loop are used up. *)
Inductive outcome (A : Type) : Type :=
  | Done (a : A)
  | Thrown
  | OutOfFuel.
Arguments Done {A} a.
Arguments Thrown {A}.
Arguments OutOfFuel {A}.

Definition obind {A B} (m : outcome A) (k : A → outcome B) : outcome B :=
  match m with
  | Done a => k a
  | Thrown => Thrown
  | OutOfFuel => OutOfFuel
  end.

(** A [TypeError] of the controller propagates to the caller. *)
Definition orThrow {A} (o : option A) : outcome A :=
  match o with Some a => Done a | None => Thrown end.

Notation "x ←← m ; k" := (obind m (fun x => k))
  (at level 20, m at level 100, k at level 200, right associativity,
   only parsing).
Notation "' p ←← m ; k" := (obind m (fun p => k))
  (at level 20, p pattern, m at level 100, k at level 200,
   right associativity, only parsing).

Record snakeT : Type := MkSnake {
  body : list pos;
  sdx : Z;
  sdy : Z;
  nextDx : Z;
  nextDy : Z;
  colorIndex : Z;
  sid : Z
}.

(** The module-level variables of the background script. [aiController] is
    the controller created by [resizeCanvas], which runs before anything
    else. [mathRandomCalls] counts the calls of the host's [Math.random()]
    made so far, and [decisionLog] is a ghost record of the calls of
    [getNextMove]: the id of the deciding snake and the obstacle list it was
    given. *)
Record world : Type := MkWorld {
  TILE_COLS : Z;
  TILE_ROWS : Z;
  snakes : list snakeT;
  foods : list pos;
  aiController : SnakeAI;
  snakeTargets : targets_t;
  mathRandomCalls : nat;
  decisionLog : list (Z * list pos)
}.

(** The host's [Math.random()], which the script does not seed: the [n]-th
    call returns [oracle n / 2^32]. *)
Definition oracle_t : Type := nat → Z.

Definition set_snakes (W : world) (ss : list snakeT) : world :=
  {| TILE_COLS := TILE_COLS W; TILE_ROWS := TILE_ROWS W; snakes := ss;
     foods := foods W; aiController := aiController W;
     snakeTargets := snakeTargets W; mathRandomCalls := mathRandomCalls W;
     decisionLog := decisionLog W |}.

Definition set_foods (W : world) (fs : list pos) : world :=
  {| TILE_COLS := TILE_COLS W; TILE_ROWS := TILE_ROWS W; snakes := snakes W;
     foods := fs; aiController := aiController W;
     snakeTargets := snakeTargets W; mathRandomCalls := mathRandomCalls W;
     decisionLog := decisionLog W |}.

Definition set_ai (W : world) (ai : SnakeAI) : world :=
  {| TILE_COLS := TILE_COLS W; TILE_ROWS := TILE_ROWS W; snakes := snakes W;
     foods := foods W; aiController := ai;
     snakeTargets := snakeTargets W; mathRandomCalls := mathRandomCalls W;
     decisionLog := decisionLog W |}.

Definition set_targets (W : world) (t : targets_t) : world :=
  {| TILE_COLS := TILE_COLS W; TILE_ROWS := TILE_ROWS W; snakes := snakes W;
     foods := foods W; aiController := aiController W;
     snakeTargets := t; mathRandomCalls := mathRandomCalls W;
     decisionLog := decisionLog W |}.

Definition logDecision (W : world) (id : Z) (obstacles : list pos) : world :=
  {| TILE_COLS := TILE_COLS W; TILE_ROWS := TILE_ROWS W; snakes := snakes W;
     foods := foods W; aiController := aiController W;
     snakeTargets := snakeTargets W; mathRandomCalls := mathRandomCalls W;
     decisionLog := decisionLog W ++ [(id, obstacles)] |}.

(** One call of [Math.random()]: the numerator drawn and the world after. *)
Definition mathRandom (oracle : oracle_t) (W : world) : Z * world :=
  (oracle (mathRandomCalls W),
   {| TILE_COLS := TILE_COLS W; TILE_ROWS := TILE_ROWS W; snakes := snakes W;
      foods := foods W; aiController := aiController W;
      snakeTargets := snakeTargets W; mathRandomCalls := S (mathRandomCalls W);
      decisionLog := decisionLog W |}).

(** [arr.some(p => p.x === q.x && p.y === q.y)] *)
Definition hasPos (arr : list pos) (q : pos) : bool :=
  existsb (fun p => pos_eqb p q) arr.

(** The [while (attempts < 50)] loop of [spawnSingleFood]; [togo] is
    [50 - attempts]. *)
Fixpoint spawnAttempts (togo : nat) (oracle : oracle_t) (W : world) : world :=
  match togo with
  | O => W
  | S togo =>
    let '(jx, W) := mathRandom oracle W in
    let '(jy, W) := mathRandom oracle W in
    let newFood : pos := (Rng.scale jx (TILE_COLS W), Rng.scale jy (TILE_ROWS W)) in
    let isValid := negb (existsb (fun s => hasPos (body s) newFood) (snakes W)) in
    let isValid := if isValid && hasPos (foods W) newFood then false else isValid in
    if isValid then set_foods W (foods W ++ [newFood])
    else spawnAttempts togo oracle W
  end.

Definition spawnSingleFood (oracle : oracle_t) (W : world) : world :=
  spawnAttempts 50 oracle W.

(** [maintainFoodCount()]: [while (foods.length < 5) spawnSingleFood();].
    Nothing bounds this loop, so [fuel] counts the iterations allowed. *)
Fixpoint maintainFoodCount (fuel : nat) (oracle : oracle_t) (W : world)
    : outcome world :=
  if (length (foods W) <? 5)%nat then
    match fuel with
    | O => OutOfFuel
    | S fuel => maintainFoodCount fuel oracle (spawnSingleFood oracle W)
    end
  else Done W.

(** The snake object made from a start state. *)
Definition mkSnake (st : startState) (colorIndex id : Z) : snakeT :=
  {| body := st_snake st; sdx := st_dx st; sdy := st_dy st;
     nextDx := st_dx st; nextDy := st_dy st;
     colorIndex := colorIndex; sid := id |}.

(** [otherParts] as computed at the top of iteration [i] of [gameLoop]. *)
Definition otherParts (ss : list snakeT) (i : nat) : list pos :=
  concat (imap (fun idx other => if decide (i = idx) then [] else body other) ss).

(** [foods.findIndex(f => head.x === f.x && head.y === f.y)] *)
Fixpoint findIndex (head : pos) (fs : list pos) : option nat :=
  match fs with
  | [] => None
  | f :: fs =>
    if (px head =? px f) && (py head =? py f) then Some O
    else S <$> findIndex head fs
  end.

(** The collision test of [gameLoop] for snake [s] and its new [head]. *)
Definition collides (W : world) (s : snakeT) (head : pos) : bool :=
  let collision :=
    (px head <? 0) || (TILE_COLS W <=? px head) ||
    (py head <? 0) || (TILE_ROWS W <=? py head) in
  let collision := if negb collision then hasPos (body s) head else collision in
  if negb collision
  then existsb (fun other => negb (sid other =? sid s) && hasPos (body other) head)
               (snakes W)
  else collision.

Definition set_body (s : snakeT) (b : list pos) : snakeT :=
  {| body := b; sdx := sdx s; sdy := sdy s; nextDx := nextDx s;
     nextDy := nextDy s; colorIndex := colorIndex s; sid := sid s |}.

(** The effect of [s.nextDx = move.x; s.nextDy = move.y] (when a move was
    returned) followed by [s.dx = s.nextDx; s.dy = s.nextDy]. *)
Definition steer (s : snakeT) (move : option Move) : snakeT :=
  let ndx := match move with Some m => mv_x m | None => nextDx s end in
  let ndy := match move with Some m => mv_y m | None => nextDy s end in
  {| body := body s; sdx := ndx; sdy := ndy; nextDx := ndx; nextDy := ndy;
     colorIndex := colorIndex s; sid := sid s |}.

(** The first half of iteration [i] of the [for] loop of [gameLoop], down to
    the computation of the new head: the world with the decision recorded,
    the snake [s] with its direction set, and the new head. *)
Definition decidePhase (i : nat) (W : world) : outcome (world * snakeT * pos) :=
  s ←← orThrow (snakes W !! i);
  let obstacles := otherParts (snakes W) i in
  dec ←← orThrow (getNextMove (aiController W) (body s) (foods W) None obstacles
                              (sid s) (Some (snakeTargets W)));
  let W := logDecision W (sid s) obstacles in
  let W := set_ai W (dec_ai dec) in
  let W := set_targets W (default (snakeTargets W) (dec_targets dec)) in
  let s := steer s (dec_move dec) in
  let W := set_snakes W (<[i := s]> (snakes W)) in
  h0 ←← orThrow (head (body s));
  Done (W, s, (px h0 + sdx s, py h0 + sdy s)).

(** The [if (collision) { ... continue; }] branch: snake [i] is replaced by
    a fresh one with the colour and the id of [s]. *)
Definition respawn (oracle : oracle_t) (i : nat) (W : world) (s : snakeT)
    : outcome world :=
  let '(j, W) := mathRandom oracle W in
  '(st, ai) ←← orThrow (getStartState (aiController W) (j * 1000));
  let W := set_ai W ai in
  Done (set_snakes W (<[i := mkSnake st (colorIndex s) (sid s)]> (snakes W))).

(** The [if (foodIndex !== -1)] branch: the food is removed, the claim of
    [s] is deleted and the food count is restored. *)
Definition eatFood (fuel : nat) (oracle : oracle_t) (W : world) (s : snakeT)
    (foodIndex : nat) : outcome world :=
  let W := set_foods W (splice1 foodIndex (foods W)) in
  let W := set_targets W (delete (sid s) (snakeTargets W)) in
  maintainFoodCount fuel oracle W.

(** The rest of the iteration when there is no collision:
    [s.body.unshift(head)], then the snake eats or its tail is popped. *)
Definition advance (fuel : nat) (oracle : oracle_t) (i : nat) (W : world)
    (s : snakeT) (head : pos) : outcome world :=
  let s := set_body s (head :: body s) in
  let W := set_snakes W (<[i := s]> (snakes W)) in
  match findIndex head (foods W) with
  | Some foodIndex => eatFood fuel oracle W s foodIndex
  | None =>
    Done (set_snakes W (<[i := set_body s (removelast (body s))]> (snakes W)))
  end.

(** Iteration [i] of the [for] loop of [gameLoop]. *)
Definition stepSnake (fuel : nat) (oracle : oracle_t) (i : nat) (W : world)
    : outcome world :=
  '(W, s, head) ←← decidePhase i W;
  if collides W s head then respawn oracle i W s
  else advance fuel oracle i W s head.

(** The [for (let i = 0; i < snakes.length; i++)] loop from [i] on, with
    [n] iterations to go. *)
Fixpoint gameLoopFrom (n : nat) (fuel : nat) (oracle : oracle_t) (i : nat)
    (W : world) : outcome world :=
  match n with
  | O => Done W
  | S n => W ←← stepSnake fuel oracle i W; gameLoopFrom n fuel oracle (S i) W
  end.

(** [gameLoop()], without the drawing. *)
Definition gameLoop (fuel : nat) (oracle : oracle_t) (W : world) : outcome world :=
  gameLoopFrom (length (snakes W)) fuel oracle 0 W.

(** [k] ticks. *)
Fixpoint ticks (k : nat) (fuel : nat) (oracle : oracle_t) (W : world)
    : outcome world :=
  match k with
  | O => Done W
  | S k => W ←← gameLoop fuel oracle W; ticks k fuel oracle W
  end.

(** [gameTick()]: one [gameLoop()], after which the host's timer is armed
    to call [gameTick] again 60 ms later. The timer belongs to the host: its
    later firings are the ticks of [ticks]. *)
Definition gameTick (fuel : nat) (oracle : oracle_t) (W : world) : outcome world :=
  gameLoop fuel oracle W.

(** The statements of [initGame()] that come before its call of
    [gameTick()]: the two agents are placed and the foods are laid out. The
    script knows two colours, so [i % SNAKE_COLORS.length] is [i]. *)
Definition initGameBeforeTick (fuel : nat) (oracle : oracle_t) (W : world)
    : outcome world :=
  '(st0, ai) ←← orThrow (getStartState (aiController W) 0);
  '(st1, ai) ←← orThrow (getStartState ai 2147483648);
  let W := set_snakes (set_ai W ai) [mkSnake st0 0 0; mkSnake st1 1 1] in
  maintainFoodCount fuel oracle (set_foods W []).

(** [initGame()]: it ends with [gameTick()], the first tick of the game.
    Clearing the pending timer before that call changes nothing here. *)
Definition initGame (fuel : nat) (oracle : oracle_t) (W : world) : outcome world :=
  W ←← initGameBeforeTick fuel oracle W;
  gameTick fuel oracle W.

(** The module variables after the assignments of [resizeCanvas()], for a
    window of [innerWidth] by [innerHeight] pixels when [Date.now()] reads
    [now]; [W] supplies the module variables that the function leaves
    alone. *)
Definition resizedWorld (innerWidth innerHeight now : Z) (W : world) : world :=
  let tc := innerWidth / 40 in
  let tr := innerHeight / 40 in
  let tc := if negb (Z.rem tc 2 =? 0) then tc - 1 else tc in
  let tr := if negb (Z.rem tr 2 =? 0) then tr - 1 else tr in
  {| TILE_COLS := tc; TILE_ROWS := tr; snakes := snakes W; foods := foods W;
     aiController := newSnakeAI tc tr now now;
     snakeTargets := snakeTargets W; mathRandomCalls := mathRandomCalls W;
     decisionLog := decisionLog W |}.

(** [resizeCanvas()]: the assignments, then [initGame()]. *)
Definition resizeCanvas (fuel : nat) (oracle : oracle_t) (innerWidth innerHeight now : Z)
    (W : world) : outcome world :=
  initGame fuel oracle (resizedWorld innerWidth innerHeight now W).

(** A controller for the 6 by 6 grid, built with seed 42, that the concrete
    scenarios below use, and the world that [resizeCanvas] starts from. *)
Definition demoAI : SnakeAI :=
  default (newSnakeAI 6 6 42 0) (init (newSnakeAI 6 6 42 0)).

Definition emptyWorld : world :=
  {| TILE_COLS := 0; TILE_ROWS := 0; snakes := []; foods := [];
     aiController := newSnakeAI 0 0 1 1; snakeTargets := ∅;
     mathRandomCalls := 0; decisionLog := [] |}.

(** ** Notions used to state the properties *)

(** [p] is a cell of the [w] by [h] grid. *)
Definition inGrid (w h : Z) (p : pos) : Prop :=
  0 ≤ px p < w ∧ 0 ≤ py p < h.

(** Grid adjacency: the two cells differ by one step along one axis. *)
Definition adjacent4 (a b : pos) : Prop :=
  Z.abs (px a - px b) + Z.abs (py a - py b) = 1.

Definition padd (a d : pos) : pos := (px a + px d, py a + py d).

(** The consecutive pairs of a list, and those of a list read as a cycle:
    the latter include the pair made of the last and the first element. *)
Fixpoint lpairs {A} (l : list A) : list (A * A) :=
  match l with
  | a :: t => match t with b :: _ => (a, b) :: lpairs t | [] => [] end
  | [] => []
  end.

Definition cpairs {A} (l : list A) : list (A * A) :=
  match l with [] => [] | x :: _ => lpairs (l ++ [x]) end.

(** ** Properties of the random stream *)

Lemma random_range seed : 0 ≤ (Rng.random seed).2 < Rng.two32.
Proof.
  unfold Rng.random, Rng.ushr32. cbn [snd].
  rewrite Z.shiftr_0_r. apply Z.mod_pos_bound. reflexivity.
Qed.

Lemma scale_range k n :
  0 ≤ k < Rng.two32 → 0 < n → 0 ≤ Rng.scale k n < n.
Proof.
  intros Hk Hn. unfold Rng.scale, Rng.two32 in *. split.
  - apply Z.div_pos; nia.
  - apply Z.div_lt_upper_bound; nia.
Qed.

(** ** The spanning tree *)

(** A sequence of edges as Prim's construction emits them: each edge leaves
    the visited set through one grid step and its far end joins the set. *)
Inductive PrimSeq (w h : Z) : gset pos → list wall → gset pos → Prop :=
  | PrimNil V : PrimSeq w h V [] V
  | PrimCons V V' e es d :
      wall_u e ∈ V → wall_v e ∉ V → inGrid w h (wall_v e) →
      d ∈ dirs → wall_v e = padd (wall_u e) d →
      PrimSeq w h ({[wall_v e]} ∪ V) es V' →
      PrimSeq w h V (e :: es) V'.

Lemma PrimSeq_snoc w h V0 es V e d :
  PrimSeq w h V0 es V →
  wall_u e ∈ V → wall_v e ∉ V → inGrid w h (wall_v e) →
  d ∈ dirs → wall_v e = padd (wall_u e) d →
  PrimSeq w h V0 (es ++ [e]) ({[wall_v e]} ∪ V).
Proof.
  induction 1 as [V|V V' e' es' d' Hu Hv Hg Hd He Hs IH]; intros H1 H2 H3 H4 H5.
  - simpl. apply (PrimCons w h V _ e [] d H1 H2 H3 H4 H5). constructor.
  - simpl. apply (PrimCons w h V _ e' _ d' Hu Hv Hg Hd He). by apply IH.
Qed.

Lemma PrimSeq_mono w h V0 es V : PrimSeq w h V0 es V → V0 ⊆ V.
Proof. induction 1; set_solver. Qed.

Lemma elem_of_dirs d :
  d ∈ dirs ↔ d = (0, -1) ∨ d = (0, 1) ∨ d = (-1, 0) ∨ d = (1, 0).
Proof. unfold dirs. set_solver. Qed.

Lemma elem_of_addWalls node w h walls wl :
  wl ∈ addWalls node w h walls ↔
  wl ∈ walls ∨ ∃ d, d ∈ dirs ∧ wl = Wall node (padd node d) ∧ inGrid w h (padd node d).
Proof.
  unfold addWalls. rewrite elem_of_app, list_elem_of_omap.
  apply or_iff_compat_l. split.
  - intros (d & Hd & Hw). exists d. split; [done|].
    unfold inGrid, padd. cbn [px py fst snd].
    destruct (0 <=? px node + px d) eqn:E1; [|done].
    destruct (px node + px d <? w) eqn:E2; [|done].
    destruct (0 <=? py node + py d) eqn:E3; [|done].
    destruct (py node + py d <? h) eqn:E4; [|done].
    simpl in Hw. inversion Hw. split; [done|]. lia.
  - intros (d & Hd & -> & Hg). exists d. split; [done|].
    unfold inGrid, padd in *. cbn [px py fst snd] in *.
    destruct (0 <=? px node + px d) eqn:E1; [|lia].
    destruct (px node + px d <? w) eqn:E2; [|lia].
    destruct (0 <=? py node + py d) eqn:E3; [|lia].
    destruct (py node + py d <? h) eqn:E4; [|lia].
    done.
Qed.

Lemma length_addWalls node w h walls :
  (length (addWalls node w h walls) ≤ length walls + 4)%nat.
Proof.
  unfold addWalls, dirs. rewrite length_app. simpl.
  repeat case_match; simpl; lia.
Qed.

Lemma elem_of_splice1 {A} (i : nat) (l : list A) x :
  x ∈ splice1 i l → x ∈ l.
Proof.
  revert i. induction l as [|a l IH]; intros [|i]; unfold splice1; simpl;
    try (by intros ?%elem_of_nil).
  - rewrite drop_0. apply list_elem_of_further.
  - rewrite elem_of_cons. intros [->|H]; [apply list_elem_of_here|].
    apply list_elem_of_further, (IH i H).
Qed.

Lemma elem_of_splice1_other {A} (i : nat) (l : list A) x y :
  l !! i = Some y → x ∈ l → x = y ∨ x ∈ splice1 i l.
Proof.
  intros Hi Hx. unfold splice1.
  rewrite <- (take_drop_middle l i y Hi) in Hx.
  rewrite elem_of_app, elem_of_cons in Hx. rewrite elem_of_app. tauto.
Qed.

Lemma length_splice1 {A} (i : nat) (l : list A) y :
  l !! i = Some y → S (length (splice1 i l)) = length l.
Proof.
  intros Hi. unfold splice1.
  rewrite <- (take_drop_middle l i y Hi) at 3.
  rewrite !length_app. simpl. lia.
Qed.

(** The set of coarse cells. *)
Definition gridSet (w h : Z) : gset pos := list_to_set (coarseCells w h).

Lemma elem_of_zrange n x : x ∈ zrange n ↔ 0 ≤ x < n.
Proof.
  unfold zrange. rewrite list_elem_of_fmap. split.
  - intros (k & -> & Hk). apply elem_of_seq in Hk. lia.
  - intros Hx. exists (Z.to_nat x). split; [lia|]. apply elem_of_seq. lia.
Qed.

Lemma elem_of_coarseCells w h p : p ∈ coarseCells w h ↔ inGrid w h p.
Proof.
  unfold coarseCells, inGrid. rewrite list_elem_of_bind. split.
  - intros (cx & Hp & Hcx). apply list_elem_of_fmap in Hp as (cy & -> & Hcy).
    apply elem_of_zrange in Hcx, Hcy. done.
  - intros [Hx Hy]. exists (px p). split; [|by apply elem_of_zrange].
    apply list_elem_of_fmap. exists (py p). split; [by destruct p|by apply elem_of_zrange].
Qed.

Lemma elem_of_gridSet w h p : p ∈ gridSet w h ↔ inGrid w h p.
Proof. unfold gridSet. rewrite elem_of_list_to_set. apply elem_of_coarseCells. Qed.

Lemma mstLoop_step fuel w h seed V walls mst :
  walls ≠ [] →
  mstLoop (S fuel) w h seed V walls mst =
    let '(seed, k) := Rng.random seed in
    let randIdx := Z.to_nat (Rng.scale k (Z.of_nat (length walls))) in
    match walls !! randIdx with
    | None => None
    | Some wl =>
      let walls := splice1 randIdx walls in
      let uVis := bool_decide (wall_u wl ∈ V) in
      let vVis := bool_decide (wall_v wl ∈ V) in
      if negb (eqb uVis vVis) then
        let unvisited := if uVis then wall_v wl else wall_u wl in
        mstLoop fuel w h seed ({[unvisited]} ∪ V)
                (addWalls unvisited w h walls) (mst ++ [wl])
      else mstLoop fuel w h seed V walls mst
    end.
Proof. destruct walls; [done|reflexivity]. Qed.

(** The loop of [generateMST] returns, and what it returns is a Prim
    sequence whose final visited set is closed under grid steps. *)
Lemma mstLoop_spec w h V0 fuel : ∀ seed V walls mst,
  (∀ wl, wl ∈ walls →
     wall_u wl ∈ V ∧ inGrid w h (wall_v wl) ∧
     ∃ d, d ∈ dirs ∧ wall_v wl = padd (wall_u wl) d) →
  (∀ a, a ∈ V → inGrid w h a) →
  (∀ a d, a ∈ V → d ∈ dirs → inGrid w h (padd a d) →
     padd a d ∈ V ∨ Wall a (padd a d) ∈ walls) →
  PrimSeq w h V0 mst V →
  (length walls + 4 * size (gridSet w h ∖ V) ≤ fuel)%nat →
  ∃ seed' mst' V',
    mstLoop fuel w h seed V walls mst = Some (seed', mst') ∧
    PrimSeq w h V0 mst' V' ∧
    (∀ a, a ∈ V' → inGrid w h a) ∧
    (∀ a d, a ∈ V' → d ∈ dirs → inGrid w h (padd a d) → padd a d ∈ V').
Proof.
  induction fuel as [|fuel IH]; intros seed V walls mst Hw HV Hcl Hps Hm.
  - destruct walls as [|wl0 walls]; [|simpl in Hm; lia].
    exists seed, mst, V. simpl. split_and!; try done.
    intros a d Ha Hd Hg. destruct (Hcl a d Ha Hd Hg) as [?|Hin]; [done|].
    by apply elem_of_nil in Hin.
  - destruct (decide (walls = [])) as [->|Hne].
    { exists seed, mst, V. simpl. split_and!; try done.
      intros a d Ha Hd Hg. destruct (Hcl a d Ha Hd Hg) as [?|Hin]; [done|].
      by apply elem_of_nil in Hin. }
    rewrite mstLoop_step by done.
    assert (Hlen : (0 < length walls)%nat) by (destruct walls; simpl; [done|lia]).
    pose proof (random_range seed) as Hk.
    destruct (Rng.random seed) as [seed1 k]. cbn [snd] in Hk.
    pose proof (scale_range k (Z.of_nat (length walls)) Hk ltac:(lia)) as Hidx.
    set (randIdx := Z.to_nat (Rng.scale k (Z.of_nat (length walls)))).
    assert (Hlt : (randIdx < length walls)%nat) by (subst randIdx; lia).
    destruct (lookup_lt_is_Some_2 walls randIdx Hlt) as [wl Hwl].
    cbv zeta. rewrite Hwl.
    assert (Hin : wl ∈ walls) by (eapply list_elem_of_lookup_2; eauto).
    destruct (Hw wl Hin) as (Hu & Hg & d & Hd & Hv).
    pose proof (length_splice1 randIdx walls wl Hwl) as Hsl.
    rewrite (bool_decide_eq_true_2 _ Hu).
    destruct (decide (wall_v wl ∈ V)) as [HvV|HvV].
    + rewrite (bool_decide_eq_true_2 _ HvV). simpl.
      apply IH; try done.
      * intros wl' Hwl'. apply Hw. by eapply elem_of_splice1.
      * intros a d' Ha Hd' Hg'. destruct (Hcl a d' Ha Hd' Hg') as [?|Hi]; [by left|].
        destruct (elem_of_splice1_other randIdx walls _ wl Hwl Hi) as [Heq|?]; [|by right].
        left. rewrite <- Heq in HvV. exact HvV.
      * lia.
    + rewrite (bool_decide_eq_false_2 _ HvV). simpl.
      apply IH.
      * intros wl' Hwl'. apply elem_of_addWalls in Hwl' as [Hwl'|(d' & Hd' & -> & Hg')].
        -- apply elem_of_splice1 in Hwl'. destruct (Hw wl' Hwl') as (? & ? & ?).
           split; [apply elem_of_union; by right|done].
        -- cbn [wall_u wall_v].
           split; [apply elem_of_union; left; by apply elem_of_singleton|].
           split; [done|]. by exists d'.
      * intros a Ha. apply elem_of_union in Ha as [Ha|Ha]; [|by apply HV].
        apply elem_of_singleton in Ha. by subst.
      * intros a d' Ha Hd' Hg'.
        apply elem_of_union in Ha as [Ha|Ha].
        -- apply elem_of_singleton in Ha. subst a. right.
           apply elem_of_addWalls. right. by exists d'.
        -- destruct (Hcl a d' Ha Hd' Hg') as [?|Hi];
             [left; apply elem_of_union; by right|].
           destruct (elem_of_splice1_other randIdx walls _ wl Hwl Hi) as [Heq|?].
           ++ left. subst wl. cbn [wall_v].
              apply elem_of_union. left. by apply elem_of_singleton.
           ++ right. apply elem_of_addWalls. by left.
      * eapply PrimSeq_snoc; eauto.
      * pose proof (length_addWalls (wall_v wl) w h (splice1 randIdx walls)) as Hla.
        assert (Hsub : gridSet w h ∖ ({[wall_v wl]} ∪ V) ⊂ gridSet w h ∖ V).
        { apply strict_spec_alt. split.
          - intros x Hx. apply elem_of_difference in Hx as [? Hn].
            apply elem_of_difference. split; [done|].
            intros ?. apply Hn, elem_of_union. by right.
          - intros Heq. assert (Hm' : wall_v wl ∈ gridSet w h ∖ V).
            { apply elem_of_difference. split; [by apply elem_of_gridSet|done]. }
            rewrite <- Heq in Hm'. apply elem_of_difference in Hm' as [_ Hn].
            apply Hn, elem_of_union. left. by apply elem_of_singleton. }
        apply subset_size in Hsub. lia.
Qed.

Lemma NoDup_zrange n : NoDup (zrange n).
Proof.
  unfold zrange. apply NoDup_fmap; [apply Nat2Z.inj'|apply NoDup_seq].
Qed.

Lemma length_zrange n : length (zrange n) = Z.to_nat n.
Proof. unfold zrange. by rewrite length_fmap, length_seq. Qed.

Lemma NoDup_coarseCells w h : NoDup (coarseCells w h).
Proof.
  unfold coarseCells. apply NoDup_bind.
  - intros x1 x2 y _ _ H1 H2.
    apply list_elem_of_fmap in H1 as (? & -> & _).
    apply list_elem_of_fmap in H2 as (? & Heq & _). by inversion Heq.
  - intros x _. apply NoDup_fmap; [|apply NoDup_zrange].
    intros a b Heq. by inversion Heq.
  - apply NoDup_zrange.
Qed.

Lemma length_bind_const {A B} (f : A → list B) (c : nat) (l : list A) :
  (∀ x, length (f x) = c) → length (l ≫= f) = (length l * c)%nat.
Proof.
  intros Hf. induction l as [|a l IH]; [done|].
  rewrite bind_cons, length_app, Hf, IH. simpl. lia.
Qed.

Lemma length_coarseCells w h :
  length (coarseCells w h) = (Z.to_nat w * Z.to_nat h)%nat.
Proof.
  unfold coarseCells.
  rewrite (length_bind_const _ (Z.to_nat h)), length_zrange; [done|].
  intros x. by rewrite length_fmap, length_zrange.
Qed.

Lemma size_gridSet w h : size (gridSet w h) = (Z.to_nat w * Z.to_nat h)%nat.
Proof.
  unfold gridSet. rewrite size_list_to_set by apply NoDup_coarseCells.
  apply length_coarseCells.
Qed.

(** A set of grid cells that holds one cell and is closed under grid steps
    holds every cell: the grid graph is connected. *)
Lemma grid_connected (w h : Z) (V : gset pos) (s : pos) :
  s ∈ V → inGrid w h s →
  (∀ a d, a ∈ V → d ∈ dirs → inGrid w h (padd a d) → padd a d ∈ V) →
  ∀ p, inGrid w h p → p ∈ V.
Proof.
  intros Hs Hgs Hcl.
  assert (Hn : ∀ n p, inGrid w h p →
            Z.abs (px p - px s) + Z.abs (py p - py s) = Z.of_nat n → p ∈ V).
  { induction n as [|n IH]; intros [x y] Hg Hd;
      unfold inGrid in *; cbn [px py fst snd] in *.
    - destruct s as [sx sy]. cbn [px py fst snd] in *.
      assert (x = sx) by lia. assert (y = sy) by lia. by subst.
    - destruct (decide (x = px s)) as [Hx|Hx].
      + destruct (decide (py s < y)) as [Hy|Hy].
        * assert (Hq : (x, y - 1) ∈ V)
            by (apply IH; unfold inGrid; cbn [px py fst snd]; lia).
          replace (x, y) with (padd (x, y - 1) (0, 1))
            by (unfold padd; cbn [px py fst snd]; f_equal; lia).
          apply Hcl; [done|apply elem_of_dirs; tauto|].
          unfold inGrid, padd; cbn [px py fst snd]; lia.
        * assert (Hq : (x, y + 1) ∈ V)
            by (apply IH; unfold inGrid; cbn [px py fst snd]; lia).
          replace (x, y) with (padd (x, y + 1) (0, -1))
            by (unfold padd; cbn [px py fst snd]; f_equal; lia).
          apply Hcl; [done|apply elem_of_dirs; tauto|].
          unfold inGrid, padd; cbn [px py fst snd]; lia.
      + destruct (decide (px s < x)) as [Hy|Hy].
        * assert (Hq : (x - 1, y) ∈ V)
            by (apply IH; unfold inGrid; cbn [px py fst snd]; lia).
          replace (x, y) with (padd (x - 1, y) (1, 0))
            by (unfold padd; cbn [px py fst snd]; f_equal; lia).
          apply Hcl; [done|apply elem_of_dirs; tauto|].
          unfold inGrid, padd; cbn [px py fst snd]; lia.
        * assert (Hq : (x + 1, y) ∈ V)
            by (apply IH; unfold inGrid; cbn [px py fst snd]; lia).
          replace (x, y) with (padd (x + 1, y) (-1, 0))
            by (unfold padd; cbn [px py fst snd]; f_equal; lia).
          apply Hcl; [done|apply elem_of_dirs; tauto|].
          unfold inGrid, padd; cbn [px py fst snd]; lia. }
  intros p Hp.
  apply (Hn (Z.to_nat (Z.abs (px p - px s) + Z.abs (py p - py s))) p Hp). lia.
Qed.

(** [generateMST] returns on every grid with at least one coarse cell, and
    its edges are a Prim sequence that reaches every coarse cell. *)
Lemma generateMST_spec w h seed :
  0 < w → 0 < h →
  ∃ seed' mst start V,
    generateMST w h seed = Some (seed', mst) ∧
    inGrid w h start ∧
    PrimSeq w h {[start]} mst V ∧
    (∀ p, p ∈ V ↔ inGrid w h p).
Proof.
  intros Hw Hh. unfold generateMST.
  pose proof (random_range seed) as Hkx.
  destruct (Rng.random seed) as [seed1 kx]. cbn [snd] in Hkx.
  pose proof (random_range seed1) as Hky.
  destruct (Rng.random seed1) as [seed2 ky]. cbn [snd] in Hky.
  pose proof (scale_range kx w Hkx Hw) as Hx.
  pose proof (scale_range ky h Hky Hh) as Hy.
  set (start := (Rng.scale kx w, Rng.scale ky h)).
  assert (Hst : inGrid w h start) by (unfold inGrid, start; cbn [px py fst snd]; lia).
  destruct (mstLoop_spec w h {[start]} (Z.to_nat (4 * w * h)) seed2
              {[start]} (addWalls start w h []) [])
    as (seed' & mst & V & Heq & Hps & HV & Hcl).
  - intros wl Hwl. apply elem_of_addWalls in Hwl as [Hwl|(d & Hd & -> & Hg)].
    + by apply elem_of_nil in Hwl.
    + cbn [wall_u wall_v]. split; [by apply elem_of_singleton|].
      split; [done|]. by exists d.
  - intros a Ha. apply elem_of_singleton in Ha. by subst.
  - intros a d Ha Hd Hg. apply elem_of_singleton in Ha. subst a. right.
    apply elem_of_addWalls. right. by exists d.
  - constructor.
  - pose proof (length_addWalls start w h []) as Hl. simpl in Hl.
    assert (Hsz : (size (gridSet w h ∖ {[start]}) + 1 = size (gridSet w h))%nat).
    { assert (Hdis : ({[start]} : gset pos) ## gridSet w h ∖ {[start]}).
      { intros z Hz Hz'. apply elem_of_difference in Hz' as [_ Hn]. done. }
      pose proof (size_union _ _ Hdis) as Hu.
      rewrite size_singleton in Hu.
      replace ({[start]} ∪ gridSet w h ∖ {[start]}) with (gridSet w h) in Hu; [lia|].
      apply set_eq. intros p. rewrite elem_of_union, elem_of_difference, elem_of_singleton.
      split; [|intros [->|[? ?]]; [by apply elem_of_gridSet|done]].
      intros Hp. destruct (decide (p = start)); [by left|by right]. }
    rewrite size_gridSet in Hsz. nia.
  - exists seed', mst, start, V. split_and!; try done.
    intros p. split; [apply HV|].
    apply (grid_connected w h V start); try done.
    apply (PrimSeq_mono _ _ _ _ _ Hps). by apply elem_of_singleton.
Qed.

(** ** Lists read as cycles *)

Section cyclic.
Context {A : Type}.
Implicit Types l u v t : list A.

Lemma lpairs_app u b v :
  lpairs (u ++ b :: v) = lpairs (u ++ [b]) ++ lpairs (b :: v).
Proof.
  induction u as [|a u IH]; [done|].
  destruct u as [|a' u]; [done|].
  change (lpairs ((a :: a' :: u) ++ b :: v))
    with ((a, a') :: lpairs ((a' :: u) ++ b :: v)).
  rewrite IH. done.
Qed.

Lemma lpairs_snd a t p z : (p, z) ∈ lpairs (a :: t) → z ∈ t.
Proof.
  revert a. induction t as [|b t IH]; intros a; simpl.
  - by intros ?%elem_of_nil.
  - rewrite elem_of_cons. intros [Heq|H].
    + inversion Heq. apply list_elem_of_here.
    + apply list_elem_of_further, (IH b H).
Qed.

Lemma lpairs_fst t a z q : (z, q) ∈ lpairs (t ++ [a]) → z ∈ t.
Proof.
  induction t as [|b t IH]; simpl.
  - by intros ?%elem_of_nil.
  - destruct (t ++ [a]) as [|c r] eqn:E.
    + by intros ?%elem_of_nil.
    + rewrite elem_of_cons. intros [Heq|H].
      * inversion Heq. apply list_elem_of_here.
      * apply list_elem_of_further, (IH H).
Qed.

Lemma lpairs_split a b l :
  (a, b) ∈ lpairs l → ∃ l1 l2, l = l1 ++ a :: b :: l2.
Proof.
  induction l as [|x l IH]; simpl.
  - by intros ?%elem_of_nil.
  - destruct l as [|y l].
    + by intros ?%elem_of_nil.
    + rewrite elem_of_cons. intros [Heq|H].
      * inversion Heq. by exists [], l.
      * destruct (IH H) as (l1 & l2 & ->). by exists (x :: l1), l2.
Qed.

Lemma lpairs_mid l1 a b l2 : (a, b) ∈ lpairs (l1 ++ a :: b :: l2).
Proof.
  rewrite lpairs_app. apply elem_of_app. right. simpl. apply list_elem_of_here.
Qed.

Lemma cpairs_cons x t : cpairs (x :: t) = lpairs (x :: t ++ [x]).
Proof. done. Qed.

Lemma cpairs_elem_l a b l : (a, b) ∈ cpairs l → a ∈ l.
Proof.
  destruct l as [|x t]; [by intros ?%elem_of_nil|].
  rewrite cpairs_cons. intros H.
  change (x :: t ++ [x]) with ((x :: t) ++ [x]) in H. by apply lpairs_fst in H.
Qed.

Lemma cpairs_elem_r a b l : (a, b) ∈ cpairs l → b ∈ l.
Proof.
  destruct l as [|x t]; [by intros ?%elem_of_nil|].
  rewrite cpairs_cons. intros H. apply lpairs_snd in H.
  apply elem_of_app in H as [H|H].
  - by apply list_elem_of_further.
  - apply list_elem_of_singleton in H. subst. apply list_elem_of_here.
Qed.

Lemma cpairs_rot1 x t : cpairs (x :: t) ≡ₚ cpairs (t ++ [x]).
Proof.
  destruct t as [|y t]; [done|].
  assert (E1 : cpairs (x :: y :: t) = (x, y) :: lpairs ((y :: t) ++ [x])) by done.
  assert (E2 : cpairs ((y :: t) ++ [x]) = lpairs ((y :: t) ++ [x]) ++ [(x, y)]).
  { change (cpairs ((y :: t) ++ [x])) with (lpairs (((y :: t) ++ [x]) ++ [y])).
    rewrite <- app_assoc. change ([x] ++ [y]) with (x :: [y]).
    by rewrite lpairs_app. }
  rewrite E1, E2. apply Permutation_cons_append.
Qed.

Lemma cpairs_rot u v : cpairs (u ++ v) ≡ₚ cpairs (v ++ u).
Proof.
  revert v. induction u as [|x u IH]; intros v.
  - by rewrite app_nil_r.
  - change ((x :: u) ++ v) with (x :: (u ++ v)).
    rewrite cpairs_rot1, <- app_assoc, IH, <- app_assoc. reflexivity.
Qed.

Lemma lpairs_reverse a b l : (a, b) ∈ lpairs (reverse l) ↔ (b, a) ∈ lpairs l.
Proof.
  induction l as [|x l IH]; [by cbn; rewrite !elem_of_nil|].
  destruct l as [|y l].
  - by cbn; rewrite !elem_of_nil.
  - rewrite reverse_cons. rewrite reverse_cons in *.
    rewrite <- app_assoc. change ([y] ++ [x]) with (y :: [x]).
    rewrite lpairs_app, elem_of_app, IH.
    change (lpairs (x :: y :: l)) with ((x, y) :: lpairs (y :: l)).
    rewrite elem_of_cons. simpl lpairs at 2.
    rewrite list_elem_of_singleton. split.
    + intros [?|Heq]; [by right|]. inversion Heq. by left.
    + intros [Heq|?]; [|by left]. inversion Heq. by right.
Qed.

Lemma cpairs_reverse a b l : (a, b) ∈ cpairs (reverse l) ↔ (b, a) ∈ cpairs l.
Proof.
  destruct l as [|x t]; [by cbn; rewrite !elem_of_nil|].
  rewrite reverse_cons, (cpairs_rot (reverse t) [x]).
  change ([x] ++ reverse t) with (x :: reverse t).
  rewrite !cpairs_cons.
  replace (x :: reverse t ++ [x]) with (reverse (x :: t ++ [x])).
  - apply lpairs_reverse.
  - rewrite reverse_cons, reverse_app. done.
Qed.

(** An undirected edge of the cycle. *)
Definition cedge l (a b : A) : Prop := (a, b) ∈ cpairs l ∨ (b, a) ∈ cpairs l.

Lemma cedge_sym l a b : cedge l a b → cedge l b a.
Proof. unfold cedge. tauto. Qed.

Lemma cedge_rot u v a b : cedge (u ++ v) a b ↔ cedge (v ++ u) a b.
Proof. unfold cedge. by rewrite !(cpairs_rot u v). Qed.

Lemma cedge_reverse l a b : cedge (reverse l) a b ↔ cedge l a b.
Proof. unfold cedge. rewrite !cpairs_reverse. tauto. Qed.

(** A cycle with the directed pair [(a1, a2)] can be rotated so that it
    starts at [a2] and ends at [a1]. *)
Lemma rotate_to a1 a2 l :
  (a1, a2) ∈ cpairs l → a1 ≠ a2 →
  ∃ m u v, l = u ++ v ∧ a2 :: m ++ [a1] = v ++ u.
Proof.
  destruct l as [|x t]; [by intros ?%elem_of_nil|].
  rewrite cpairs_cons. intros H Hne.
  apply lpairs_split in H as (l1 & l2 & Heq).
  destruct l2 as [|y l2 _] using rev_ind.
  - change (x :: t ++ [x]) with ((x :: t) ++ [x]) in Heq.
    replace (l1 ++ [a1; a2]) with ((l1 ++ [a1]) ++ [a2]) in Heq
      by (by rewrite <- app_assoc).
    apply app_inj_tail in Heq as [Heq Hx].
    destruct l1 as [|z l1]; simpl in Heq; inversion Heq; subst; [done|].
    eexists l1, _, []. split; [by rewrite app_nil_r|done].
  - change (x :: t ++ [x]) with ((x :: t) ++ [x]) in Heq.
    replace (l1 ++ a1 :: a2 :: l2 ++ [y]) with ((l1 ++ a1 :: a2 :: l2) ++ [y]) in Heq
      by (by rewrite <- app_assoc).
    apply app_inj_tail in Heq as [Heq Hx].
    exists (l2 ++ l1), (l1 ++ [a1]), (a2 :: l2). split.
    + rewrite Heq, <- app_assoc. done.
    + simpl. by rewrite <- app_assoc.
Qed.

End cyclic.

(** ** The link table as a cycle *)

(** The two links of [x] are [p] and [q], in either order. *)
Definition nbrs (M : links_t) (x p q : pos) : Prop :=
  M !! x = Some [p; q] ∨ M !! x = Some [q; p].

(** [M] holds the cycle [L]: each cell of [L] is linked to exactly the cell
    before it and the cell after it, and these two differ. *)
Definition Rep (M : links_t) (L : list pos) : Prop :=
  NoDup L ∧
  ∀ p x q, (p, x) ∈ cpairs L → (x, q) ∈ cpairs L → p ≠ q ∧ nbrs M x p q.

Lemma nbrs_sym M x p q : nbrs M x p q → nbrs M x q p.
Proof. unfold nbrs. tauto. Qed.

Lemma Rep_rot M (u v : list pos) : Rep M (u ++ v) → Rep M (v ++ u).
Proof.
  intros [Hnd H]. split.
  - by rewrite (comm (++)).
  - intros p x q. rewrite !(cpairs_rot v u). apply H.
Qed.

Lemma Rep_reverse M (L : list pos) : Rep M L → Rep M (reverse L).
Proof.
  intros [Hnd H]. split.
  - by rewrite reverse_Permutation.
  - intros p x q. rewrite !cpairs_reverse. intros H1 H2.
    destruct (H q x p H2 H1) as [? ?]. split; [done|by apply nbrs_sym].
Qed.

Lemma Rep_ext M M' (L : list pos) :
  (∀ x, x ∈ L → M' !! x = M !! x) → Rep M L → Rep M' L.
Proof.
  intros He [Hnd H]. split; [done|].
  intros p x q H1 H2. destruct (H p x q H1 H2) as [? Hn]. split; [done|].
  unfold nbrs in *. rewrite He; [done|]. by eapply cpairs_elem_l.
Qed.

(** A cycle with the edge [a1 - a2] can be turned, by rotation and
    reversal, into one that starts at [a2] and ends at [a1]. *)
Lemma orient M (L : list pos) a1 a2 :
  Rep M L → cedge L a1 a2 → a1 ≠ a2 →
  ∃ m, Rep M (a2 :: m ++ [a1]) ∧ a2 :: m ++ [a1] ≡ₚ L ∧
       ∀ a b, cedge (a2 :: m ++ [a1]) a b ↔ cedge L a b.
Proof.
  intros HR [H|H] Hne.
  - destruct (rotate_to a1 a2 L H Hne) as (m & u & v & -> & Heq).
    exists m. rewrite Heq. split_and!.
    + by apply Rep_rot.
    + by rewrite (comm (++)).
    + intros a b. apply cedge_rot.
  - apply cpairs_reverse in H.
    destruct (rotate_to a1 a2 (reverse L) H Hne) as (m & u & v & HL & Heq).
    exists m. rewrite Heq. split_and!.
    + apply Rep_rot. rewrite <- HL. by apply Rep_reverse.
    + rewrite (comm (++)), <- HL. apply reverse_Permutation.
    + intros a b. rewrite cedge_rot, <- HL. apply cedge_reverse.
Qed.

(** ** Cutting and joining links *)

Lemma filter_other (l : list pos) (p b : pos) :
  l = [p; b] ∨ l = [b; p] → p ≠ b →
  filter (fun z => px z ≠ px b ∨ py z ≠ py b) l = [p].
Proof.
  intros Hl Hne.
  assert (Hp : px p ≠ px b ∨ py p ≠ py b).
  { destruct p as [x y], b as [x' y']. cbn [px py fst snd].
    destruct (decide (x = x')); [|by left]. right. congruence. }
  assert (Hb : ¬ (px b ≠ px b ∨ py b ≠ py b)) by tauto.
  destruct Hl as [->| ->].
  - rewrite filter_cons_True by done. rewrite filter_cons_False by done. done.
  - rewrite filter_cons_False by done. rewrite filter_cons_True by done. done.
Qed.

Lemma unlink_present (M : links_t) a b la lb :
  M !! a = Some la → M !! b = Some lb →
  unlink M a b =
    Some (<[b := filter (fun p => px p ≠ px a ∨ py p ≠ py a) lb]>
           (<[a := filter (fun p => px p ≠ px b ∨ py p ≠ py b) la]> M)).
Proof. intros Ha Hb. unfold unlink. rewrite Ha, Hb. done. Qed.

Lemma link_present (M : links_t) a b la lb :
  a ≠ b → M !! a = Some la → M !! b = Some lb →
  link M a b = <[b := lb ++ [a]]> (<[a := la ++ [b]]> M).
Proof.
  intros Hne Ha Hb. unfold link.
  destruct (decide (is_Some (M !! a))) as [_|[]]; [|by rewrite Ha].
  destruct (decide (is_Some (M !! b))) as [_|[]]; [|by rewrite Hb].
  rewrite Ha. cbn [default].
  rewrite lookup_insert_ne by done. rewrite Hb. done.
Qed.

(** [swapLinks] on two linked pairs [a1 - a2] and [b1 - b2]: the four cells
    trade one link each and nothing else changes. *)
Lemma swapLinks_spec (M : links_t) a1 a2 b1 b2 p q p' q' :
  a1 ≠ a2 → a1 ≠ b1 → a1 ≠ b2 → a2 ≠ b1 → a2 ≠ b2 → b1 ≠ b2 →
  nbrs M a1 p a2 → p ≠ a2 →
  nbrs M a2 a1 q → a1 ≠ q →
  nbrs M b1 b2 q' → b2 ≠ q' →
  nbrs M b2 p' b1 → p' ≠ b1 →
  ∃ M', swapLinks M a1 a2 b1 b2 = Some M' ∧
        M' !! a1 = Some [p; b1] ∧ M' !! a2 = Some [q; b2] ∧
        M' !! b1 = Some [q'; a1] ∧ M' !! b2 = Some [p'; a2] ∧
        ∀ k, k ≠ a1 → k ≠ a2 → k ≠ b1 → k ≠ b2 → M' !! k = M !! k.
Proof.
  intros N12 N11 N1b2 N21 N22 Nb Ha1 Hp Ha2 Hq Hb1 Hq' Hb2 Hp'.
  assert (∃ la1, M !! a1 = Some la1 ∧ (la1 = [p; a2] ∨ la1 = [a2; p]))
    as (la1 & Ea1 & Fa1) by (destruct Ha1; eauto).
  assert (∃ la2, M !! a2 = Some la2 ∧ (la2 = [q; a1] ∨ la2 = [a1; q]))
    as (la2 & Ea2 & Fa2) by (destruct Ha2; eauto).
  assert (∃ lb1, M !! b1 = Some lb1 ∧ (lb1 = [q'; b2] ∨ lb1 = [b2; q']))
    as (lb1 & Eb1 & Fb1) by (destruct Hb1; eauto).
  assert (∃ lb2, M !! b2 = Some lb2 ∧ (lb2 = [p'; b1] ∨ lb2 = [b1; p']))
    as (lb2 & Eb2 & Fb2) by (destruct Hb2; eauto).
  unfold swapLinks.
  rewrite (unlink_present M a1 a2 la1 la2 Ea1 Ea2).
  rewrite (filter_other la1 p a2 Fa1 Hp).
  rewrite (filter_other la2 q a1 Fa2 (not_eq_sym Hq)).
  cbn [mbind option_bind].
  set (M1 := <[a2 := [q]]> (<[a1 := [p]]> M)).
  assert (E1 : M1 !! b1 = Some lb1)
    by (unfold M1; by rewrite !lookup_insert_ne by done).
  assert (E2 : M1 !! b2 = Some lb2)
    by (unfold M1; by rewrite !lookup_insert_ne by done).
  rewrite (unlink_present M1 b1 b2 lb1 lb2 E1 E2).
  rewrite (filter_other lb1 q' b2 Fb1 (not_eq_sym Hq')).
  rewrite (filter_other lb2 p' b1 Fb2 Hp').
  cbn [mbind option_bind].
  set (M2 := <[b2 := [p']]> (<[b1 := [q']]> M1)).
  assert (E3 : M2 !! a1 = Some [p]).
  { unfold M2, M1. rewrite !lookup_insert_ne by done. by rewrite lookup_insert_eq. }
  assert (E4 : M2 !! b1 = Some [q']).
  { unfold M2. rewrite lookup_insert_ne by done. by rewrite lookup_insert_eq. }
  rewrite (link_present M2 a1 b1 [p] [q'] N11 E3 E4).
  set (M3 := <[b1 := [q'] ++ [a1]]> (<[a1 := [p] ++ [b1]]> M2)).
  assert (E5 : M3 !! a2 = Some [q]).
  { unfold M3, M2, M1. rewrite !lookup_insert_ne by done. by rewrite lookup_insert_eq. }
  assert (E6 : M3 !! b2 = Some [p']).
  { unfold M3, M2. rewrite !lookup_insert_ne by done. by rewrite lookup_insert_eq. }
  rewrite (link_present M3 a2 b2 [q] [p'] N22 E5 E6).
  eexists. split; [reflexivity|]. split_and!.
  - unfold M3. rewrite !lookup_insert_ne by done. by rewrite lookup_insert_eq.
  - rewrite lookup_insert_ne by done. by rewrite lookup_insert_eq.
  - unfold M3. rewrite !lookup_insert_ne by done. by rewrite lookup_insert_eq.
  - by rewrite lookup_insert_eq.
  - intros k K1 K2 K3 K4. unfold M3, M2, M1. by rewrite !lookup_insert_ne by done.
Qed.

Section ends.
Context {A : Type}.
Implicit Types l t : list A.

Lemma cpairs_ends x t y e :
  e ∈ cpairs (x :: t ++ [y]) ↔ e ∈ lpairs (x :: t ++ [y]) ∨ e = (y, x).
Proof.
  change (cpairs (x :: t ++ [y])) with (lpairs (((x :: t) ++ [y]) ++ [x])).
  rewrite <- app_assoc. change ([y] ++ [x]) with (y :: [x]).
  rewrite lpairs_app, elem_of_app.
  change (lpairs [y; x]) with [(y, x)].
  by rewrite list_elem_of_singleton.
Qed.

Lemma lpairs_first x t y : ∃ q, (x, q) ∈ lpairs (x :: t ++ [y]).
Proof.
  destruct t as [|z t]; eexists; apply list_elem_of_here.
Qed.

Lemma lpairs_last x t y : ∃ p, (p, y) ∈ lpairs (x :: t ++ [y]).
Proof.
  destruct t as [|z t _] using rev_ind.
  - exists x. apply list_elem_of_here.
  - exists z. rewrite <- app_assoc.
    change (x :: t ++ [z] ++ [y]) with ((x :: t) ++ z :: y :: []).
    apply lpairs_mid.
Qed.

Lemma cpairs_join x t y x' t' y' e :
  e ∈ cpairs ((x :: t ++ [y]) ++ (x' :: t' ++ [y'])) ↔
  e ∈ lpairs (x :: t ++ [y]) ∨ e = (y, x') ∨
  e ∈ lpairs (x' :: t' ++ [y']) ∨ e = (y', x).
Proof.
  change (cpairs ((x :: t ++ [y]) ++ x' :: t' ++ [y']))
    with (lpairs (((x :: t ++ [y]) ++ x' :: t' ++ [y']) ++ [x])).
  replace (((x :: t ++ [y]) ++ x' :: t' ++ [y']) ++ [x])
    with ((x :: t) ++ y :: ((x' :: t') ++ y' :: [x])).
  2:{ simpl. rewrite <- !app_assoc. simpl. by rewrite <- !app_assoc. }
  rewrite (lpairs_app (x :: t) y ((x' :: t') ++ y' :: [x])).
  change (lpairs (y :: (x' :: t') ++ y' :: [x]))
    with ((y, x') :: lpairs ((x' :: t') ++ y' :: [x])).
  rewrite (lpairs_app (x' :: t') y' [x]).
  change (lpairs [y'; x]) with [(y', x)].
  rewrite elem_of_app, elem_of_cons, elem_of_app, list_elem_of_singleton. done.
Qed.
End ends.

(** Joining two disjoint cycles: the first is cut at its closing pair
    [a1 -> a2], the second at its closing pair [b2 -> b1], and the links
    [a1 - b1] and [a2 - b2] close the concatenation. *)
Lemma merge_oriented (M : links_t) (l m : list pos) a1 a2 b1 b2 :
  Rep M (a2 :: l ++ [a1]) → Rep M (b1 :: m ++ [b2]) →
  (∀ x, x ∈ a2 :: l ++ [a1] → x ∈ b1 :: m ++ [b2] → False) →
  ∃ M', swapLinks M a1 a2 b1 b2 = Some M' ∧
        Rep M' ((a2 :: l ++ [a1]) ++ (b1 :: m ++ [b2])) ∧
        (∀ k, k ≠ a1 → k ≠ a2 → k ≠ b1 → k ≠ b2 → M' !! k = M !! k).
Proof.
  set (La := a2 :: l ++ [a1]). set (Lb := b1 :: m ++ [b2]).
  intros [NDa Ra] [NDb Rb] Hdis.
  assert (Ia1 : a1 ∈ La)
    by (apply list_elem_of_further, elem_of_app; right; apply list_elem_of_here).
  assert (Ia2 : a2 ∈ La) by apply list_elem_of_here.
  assert (Ib1 : b1 ∈ Lb) by apply list_elem_of_here.
  assert (Ib2 : b2 ∈ Lb)
    by (apply list_elem_of_further, elem_of_app; right; apply list_elem_of_here).
  assert (N12 : a1 ≠ a2).
  { intros ->. unfold La in NDa. apply NoDup_cons in NDa as [Hn _].
    apply Hn, elem_of_app. right. apply list_elem_of_here. }
  assert (Nb : b1 ≠ b2).
  { intros ->. unfold Lb in NDb. apply NoDup_cons in NDb as [Hn _].
    apply Hn, elem_of_app. right. apply list_elem_of_here. }
  assert (N11 : a1 ≠ b1) by (intros ->; eauto).
  assert (N1b2 : a1 ≠ b2) by (intros ->; eauto).
  assert (N21 : a2 ≠ b1) by (intros ->; eauto).
  assert (N22 : a2 ≠ b2) by (intros ->; eauto).
  assert (Ca : (a1, a2) ∈ cpairs La) by (apply cpairs_ends; by right).
  assert (Cb : (b2, b1) ∈ cpairs Lb) by (apply cpairs_ends; by right).
  assert (La_in : ∀ e, e ∈ lpairs La → e ∈ cpairs La)
    by (intros e He; apply cpairs_ends; by left).
  assert (Lb_in : ∀ e, e ∈ lpairs Lb → e ∈ cpairs Lb)
    by (intros e He; apply cpairs_ends; by left).
  destruct (lpairs_last a2 l a1) as [p Hp]. fold La in Hp.
  destruct (lpairs_first a2 l a1) as [q Hq]. fold La in Hq.
  destruct (lpairs_last b1 m b2) as [p' Hp']. fold Lb in Hp'.
  destruct (lpairs_first b1 m b2) as [q' Hq']. fold Lb in Hq'.
  destruct (Ra p a1 a2 (La_in _ Hp) Ca) as [Np Ha1].
  destruct (Ra a1 a2 q Ca (La_in _ Hq)) as [Nq Ha2].
  destruct (Rb b2 b1 q' Cb (Lb_in _ Hq')) as [Nq' Hb1].
  destruct (Rb p' b2 b1 (Lb_in _ Hp') Cb) as [Np' Hb2].
  destruct (swapLinks_spec M a1 a2 b1 b2 p q p' q') as
    (M' & Hsw & Ea1 & Ea2 & Eb1 & Eb2 & Hoth); try done.
  exists M'. split; [done|]. split; [|done].
  assert (FstA : ∀ x y, (x, y) ∈ lpairs La → x ∈ a2 :: l).
  { intros x y H. unfold La in H.
    change (a2 :: l ++ [a1]) with ((a2 :: l) ++ [a1]) in H. by eapply lpairs_fst. }
  assert (SndA : ∀ x y, (x, y) ∈ lpairs La → y ∈ l ++ [a1])
    by (intros x y H; by eapply lpairs_snd).
  assert (FstB : ∀ x y, (x, y) ∈ lpairs Lb → x ∈ b1 :: m).
  { intros x y H. unfold Lb in H.
    change (b1 :: m ++ [b2]) with ((b1 :: m) ++ [b2]) in H. by eapply lpairs_fst. }
  assert (SndB : ∀ x y, (x, y) ∈ lpairs Lb → y ∈ m ++ [b2])
    by (intros x y H; by eapply lpairs_snd).
  assert (InA : ∀ x y, (x, y) ∈ lpairs La → x ∈ La ∧ y ∈ La).
  { intros x y H. split.
    - by eapply cpairs_elem_l, La_in.
    - by eapply cpairs_elem_r, La_in. }
  assert (InB : ∀ x y, (x, y) ∈ lpairs Lb → x ∈ Lb ∧ y ∈ Lb).
  { intros x y H. split.
    - by eapply cpairs_elem_l, Lb_in.
    - by eapply cpairs_elem_r, Lb_in. }
  assert (NotFirstA : ∀ x, (x, a2) ∈ lpairs La → False).
  { intros x H. apply SndA in H. unfold La in NDa.
    apply NoDup_cons in NDa as [Hn _]. done. }
  assert (NotLastA : ∀ y, (a1, y) ∈ lpairs La → False).
  { intros y H. apply FstA in H. unfold La in NDa.
    change (a2 :: l ++ [a1]) with ((a2 :: l) ++ [a1]) in NDa.
    apply NoDup_app in NDa as (_ & Hn & _). apply (Hn a1 H), list_elem_of_here. }
  assert (NotFirstB : ∀ x, (x, b1) ∈ lpairs Lb → False).
  { intros x H. apply SndB in H. unfold Lb in NDb.
    apply NoDup_cons in NDb as [Hn _]. done. }
  assert (NotLastB : ∀ y, (b2, y) ∈ lpairs Lb → False).
  { intros y H. apply FstB in H. unfold Lb in NDb.
    change (b1 :: m ++ [b2]) with ((b1 :: m) ++ [b2]) in NDb.
    apply NoDup_app in NDb as (_ & Hn & _). apply (Hn b2 H), list_elem_of_here. }
  (* the pair of links of a cell fixes its two neighbours *)
  assert (Uniq : ∀ x s t s', nbrs M x s t → nbrs M x s' t → s ≠ t → s' ≠ t → s = s').
  { intros x s t s' [E|E] [E'|E'] ? ?; rewrite E in E'; by inversion E'. }
  split.
  - apply NoDup_app. split; [done|]. split; [|done]. intros x Hx Hx'. eauto.
  - intros pp x qq Hpp Hqq.
    apply cpairs_join in Hpp. apply cpairs_join in Hqq. fold La Lb in Hpp, Hqq.
    destruct Hpp as [Hpp|[Epp|[Hpp|Epp]]].
    + (* entered along the first cycle *)
      destruct (InA _ _ Hpp) as [Ipp Ix].
      destruct Hqq as [Hqq|[Eqq|[Hqq|Eqq]]].
      * destruct (Ra pp x qq (La_in _ Hpp) (La_in _ Hqq)) as [? Hn]. split; [done|].
        unfold nbrs. rewrite Hoth; [done|..]; intros ->; eauto.
      * injection Eqq as -> ->.
        destruct (Ra pp a1 a2 (La_in _ Hpp) Ca) as [? Hn].
        assert (p = pp) by (eapply Uniq; eauto). subst pp.
        split; [intros ->; eauto|]. by left.
      * exfalso. exact (Hdis _ Ix (proj1 (InB _ _ Hqq))).
      * injection Eqq as -> ->. exfalso. exact (Hdis _ Ix Ib2).
    + injection Epp as -> ->.
      destruct Hqq as [Hqq|[Eqq|[Hqq|Eqq]]].
      * exfalso. exact (Hdis _ (proj1 (InA _ _ Hqq)) Ib1).
      * injection Eqq as E _. exfalso. by apply N11.
      * destruct (Rb b2 b1 qq Cb (Lb_in _ Hqq)) as [? Hn].
        assert (q' = qq) by (eapply (Uniq b1 q' b2 qq); eauto using nbrs_sym).
        subst qq. split; [intros ->; destruct (InB _ _ Hqq); eauto|]. by right.
      * injection Eqq as E _. exfalso. by apply Nb.
    + (* entered along the second cycle *)
      destruct (InB _ _ Hpp) as [Ipp Ix].
      destruct Hqq as [Hqq|[Eqq|[Hqq|Eqq]]].
      * exfalso. exact (Hdis _ (proj1 (InA _ _ Hqq)) Ix).
      * injection Eqq as -> ->. exfalso. exact (Hdis _ Ia1 Ix).
      * destruct (Rb pp x qq (Lb_in _ Hpp) (Lb_in _ Hqq)) as [? Hn]. split; [done|].
        unfold nbrs. rewrite Hoth; [done|..]; intros ->; eauto.
      * injection Eqq as -> ->.
        destruct (Rb pp b2 b1 (Lb_in _ Hpp) Cb) as [? Hn].
        assert (p' = pp) by (eapply Uniq; eauto). subst pp.
        split; [intros ->; eauto|]. by left.
    + injection Epp as -> ->.
      destruct Hqq as [Hqq|[Eqq|[Hqq|Eqq]]].
      * destruct (Ra a1 a2 qq Ca (La_in _ Hqq)) as [? Hn].
        assert (q = qq) by (eapply (Uniq a2 q a1 qq); eauto using nbrs_sym).
        subst qq. split; [intros ->; destruct (InA _ _ Hqq); eauto|]. by right.
      * injection Eqq as E _. exfalso. by apply N12.
      * exfalso. exact (Hdis _ Ia2 (proj1 (InB _ _ Hqq))).
      * injection Eqq as E _. exfalso. by apply N22.
Qed.

(** Joining two disjoint cycles along an edge of each, whatever their
    presentation as lists. *)
Lemma merge (M : links_t) (L B : list pos) a1 a2 b1 b2 :
  Rep M L → Rep M B → (∀ x, x ∈ L → x ∈ B → False) →
  cedge L a1 a2 → cedge B b1 b2 → a1 ≠ a2 → b1 ≠ b2 →
  ∃ M' L', swapLinks M a1 a2 b1 b2 = Some M' ∧ Rep M' L' ∧ L' ≡ₚ L ++ B ∧
    (∀ k, k ≠ a1 → k ≠ a2 → k ≠ b1 → k ≠ b2 → M' !! k = M !! k) ∧
    (∀ a b, cedge L a b → ¬ (a = a1 ∧ b = a2) → ¬ (a = a2 ∧ b = a1) → cedge L' a b) ∧
    (∀ a b, cedge B a b → ¬ (a = b1 ∧ b = b2) → ¬ (a = b2 ∧ b = b1) → cedge L' a b) ∧
    (∀ a b, (a, b) ∈ cpairs L' →
       cedge L a b ∨ cedge B a b ∨ (a, b) = (a1, b1) ∨ (a, b) = (b2, a2)).
Proof.
  intros RL RB Hdis Ea Eb Na Nb.
  destruct (orient M L a1 a2 RL Ea Na) as (l & RLa & PLa & ELa).
  destruct (orient M B b2 b1 RB (cedge_sym _ _ _ Eb) (not_eq_sym Nb))
    as (m & RLb & PLb & ELb).
  destruct (merge_oriented M l m a1 a2 b1 b2 RLa RLb) as (M' & Hsw & RM' & Hoth).
  { intros x Hx Hx'. rewrite PLa in Hx. rewrite PLb in Hx'. eauto. }
  exists M', ((a2 :: l ++ [a1]) ++ (b1 :: m ++ [b2])).
  split; [done|]. split; [done|]. split; [by rewrite PLa, PLb|]. split; [done|].
  split_and!.
  - intros a b Hab N1 N2. apply ELa in Hab.
    destruct Hab as [H|H]; apply cpairs_ends in H as [H|H]; simplify_eq;
      try tauto.
    + left. apply cpairs_join. by left.
    + right. apply cpairs_join. by left.
  - intros a b Hab N1 N2. apply ELb in Hab.
    destruct Hab as [H|H]; apply cpairs_ends in H as [H|H]; simplify_eq;
      try tauto.
    + left. apply cpairs_join. right. right. by left.
    + right. apply cpairs_join. right. right. by left.
  - intros a b Hab. apply cpairs_join in Hab as [H|[H|[H|H]]].
    + left. apply ELa. left. apply cpairs_ends. by left.
    + right. right. by left.
    + right. left. apply ELb. left. apply cpairs_ends. by left.
    + right. right. by right.
Qed.

(** ** The 2x2 blocks *)

(** The coarse cell whose block holds the fine cell [k]. *)
Definition blockOf (k : pos) : pos := (px k / 2, py k / 2).

(** The block of coarse cell [c], clockwise from its top left cell. *)
Definition blk (c : pos) : list pos :=
  [(2 * px c, 2 * py c); (2 * px c + 1, 2 * py c);
   (2 * px c + 1, 2 * py c + 1); (2 * px c, 2 * py c + 1)].

(** The two cells of the block of [c] on the side that faces direction [d]. *)
Definition side (c d : pos) : pos * pos :=
  if px d =? 1 then ((2 * px c + 1, 2 * py c), (2 * px c + 1, 2 * py c + 1))
  else if px d =? -1 then ((2 * px c, 2 * py c), (2 * px c, 2 * py c + 1))
  else if py d =? 1 then ((2 * px c, 2 * py c + 1), (2 * px c + 1, 2 * py c + 1))
  else ((2 * px c, 2 * py c), (2 * px c + 1, 2 * py c)).

Definition opp (d : pos) : pos := (- px d, - py d).

Ltac zdiv := Z.to_euclidean_division_equations; lia.

(** Membership of an element that occurs in an explicit list. *)
Ltac in_list :=
  repeat first [apply list_elem_of_here | apply list_elem_of_further].

Lemma elem_of_blk k c : k ∈ blk c ↔ blockOf k = c.
Proof.
  destruct k as [x y], c as [cx cy]. unfold blk, blockOf. cbn [px py fst snd].
  rewrite !elem_of_cons, elem_of_nil. split.
  - intros [H|[H|[H|[H|[]]]]]; inversion H; subst; f_equal; zdiv.
  - intros H. simplify_eq.
    assert (x = 2 * (x / 2) ∨ x = 2 * (x / 2) + 1) as [Ex|Ex] by zdiv;
    assert (y = 2 * (y / 2) ∨ y = 2 * (y / 2) + 1) as [Ey|Ey] by zdiv.
    + left. by f_equal.
    + do 3 right. left. by f_equal.
    + right. left. by f_equal.
    + do 2 right. left. by f_equal.
Qed.

Ltac opp_eval :=
  try change (opp (0, -1)) with ((0, 1) : pos);
  try change (opp (0, 1)) with ((0, -1) : pos);
  try change (opp (-1, 0)) with ((1, 0) : pos);
  try change (opp (1, 0)) with ((-1, 0) : pos).

Lemma applyEdge_side (M : links_t) u d :
  d ∈ dirs →
  applyEdge M (Wall u (padd u d)) =
    swapLinks M (side u d).1 (side u d).2
                (side (padd u d) (opp d)).1 (side (padd u d) (opp d)).2.
Proof.
  intros Hd. apply elem_of_dirs in Hd.
  destruct u as [ux uy]. unfold applyEdge, padd. cbn [wall_u wall_v px py fst snd].
  destruct Hd as [->|[->|[->| ->]]]; cbn [px py fst snd];
    opp_eval; unfold side; cbn [px py fst snd Z.eqb Pos.eqb].
  - replace (ux + 0 - ux) with 0 by lia. replace (uy + -1 - uy) with (-1) by lia. done.
  - replace (ux + 0 - ux) with 0 by lia. replace (uy + 1 - uy) with 1 by lia. done.
  - replace (ux + -1 - ux) with (-1) by lia. done.
  - replace (ux + 1 - ux) with 1 by lia. done.
Qed.

Lemma link_lookup (M : links_t) a b :
  a ≠ b →
  link M a b !! a = Some (default [] (M !! a) ++ [b]) ∧
  link M a b !! b = Some (default [] (M !! b) ++ [a]) ∧
  ∀ k, k ≠ a → k ≠ b → link M a b !! k = M !! k.
Proof.
  intros Hne. unfold link.
  destruct (decide (is_Some (M !! a))) as [Ha|Ha].
  - destruct (decide (is_Some (M !! b))) as [Hb|Hb].
    + split_and!.
      * rewrite lookup_insert_ne by done. by rewrite lookup_insert_eq.
      * rewrite lookup_insert_eq. by rewrite lookup_insert_ne by done.
      * intros k ? ?. by rewrite !lookup_insert_ne by done.
    + apply eq_None_not_Some in Hb. split_and!.
      * rewrite lookup_insert_ne by done. rewrite lookup_insert_eq.
        by rewrite lookup_insert_ne by done.
      * rewrite lookup_insert_eq. rewrite lookup_insert_ne by done.
        by rewrite lookup_insert_eq, Hb.
      * intros k ? ?. by rewrite !lookup_insert_ne by done.
  - apply eq_None_not_Some in Ha.
    destruct (decide (is_Some (<[a:=[]]> M !! b))) as [Hb|Hb].
    + rewrite lookup_insert_ne in Hb by done. split_and!.
      * rewrite lookup_insert_ne by done. rewrite lookup_insert_eq.
        by rewrite lookup_insert_eq, Ha.
      * rewrite lookup_insert_eq. by rewrite !lookup_insert_ne by done.
      * intros k ? ?. by rewrite !lookup_insert_ne by done.
    + apply eq_None_not_Some in Hb. rewrite lookup_insert_ne in Hb by done.
      split_and!.
      * rewrite lookup_insert_ne by done. rewrite lookup_insert_eq.
        rewrite lookup_insert_ne by done. by rewrite lookup_insert_eq, Ha.
      * rewrite lookup_insert_eq. rewrite lookup_insert_ne by done.
        by rewrite lookup_insert_eq, Hb.
      * intros k ? ?. by rewrite !lookup_insert_ne by done.
Qed.

(** What [linkBlock] makes of a table that has no entry for the block. *)
Lemma linkBlock_lookup (M : links_t) (c : pos) :
  (∀ k, k ∈ blk c → M !! k = None) →
  let tl := (2 * px c, 2 * py c) in
  let tr := (2 * px c + 1, 2 * py c) in
  let br := (2 * px c + 1, 2 * py c + 1) in
  let bl := (2 * px c, 2 * py c + 1) in
  linkBlock M c !! tl = Some [tr; bl] ∧ linkBlock M c !! tr = Some [tl; br] ∧
  linkBlock M c !! br = Some [tr; bl] ∧ linkBlock M c !! bl = Some [br; tl] ∧
  ∀ k, k ∉ blk c → linkBlock M c !! k = M !! k.
Proof.
  intros Hfresh tl tr br bl. unfold linkBlock.
  fold tl tr br bl.
  assert (N1 : tl ≠ tr) by (unfold tl, tr; intros [=]; lia).
  assert (N2 : tr ≠ br) by (unfold tr, br; intros [=]; lia).
  assert (N3 : br ≠ bl) by (unfold br, bl; intros [=]; lia).
  assert (N4 : bl ≠ tl) by (unfold bl, tl; intros [=]; lia).
  assert (N5 : tl ≠ br) by (unfold tl, br; intros [=]; lia).
  assert (N6 : tr ≠ bl) by (unfold tr, bl; intros [=]; lia).
  assert (Ftl : M !! tl = None) by (apply Hfresh; unfold blk; in_list).
  assert (Ftr : M !! tr = None) by (apply Hfresh; unfold blk; in_list).
  assert (Fbr : M !! br = None) by (apply Hfresh; unfold blk; in_list).
  assert (Fbl : M !! bl = None) by (apply Hfresh; unfold blk; in_list).
  set (M1 := link M tl tr).
  destruct (link_lookup M tl tr N1) as (A1 & A2 & A3). fold M1 in A1, A2, A3.
  set (M2 := link M1 tr br).
  destruct (link_lookup M1 tr br N2) as (B1 & B2 & B3). fold M2 in B1, B2, B3.
  set (M3 := link M2 br bl).
  destruct (link_lookup M2 br bl N3) as (C1 & C2 & C3). fold M3 in C1, C2, C3.
  destruct (link_lookup M3 bl tl N4) as (D1 & D2 & D3).
  rewrite Ftl in A1. rewrite Ftr in A2. cbn [default app] in A1, A2.
  rewrite A2 in B1. rewrite (A3 br) in B2 by done. rewrite Fbr in B2.
  cbn [default app] in B1, B2.
  rewrite B2 in C1. rewrite (B3 bl) in C2 by done. rewrite (A3 bl) in C2 by done.
  rewrite Fbl in C2. cbn [default app] in C1, C2.
  rewrite C2 in D1. rewrite (C3 tl) in D2 by done. rewrite (B3 tl) in D2 by done.
  rewrite A1 in D2. cbn [default app] in D1, D2.
  split_and!.
  - done.
  - rewrite D3 by done. rewrite C3 by done. done.
  - rewrite D3 by done. done.
  - done.
  - intros k Hk. unfold blk in Hk. fold tl tr br bl in Hk.
    rewrite !not_elem_of_cons in Hk. destruct Hk as (K1 & K2 & K3 & K4 & _).
    rewrite D3, C3, B3, A3 by done. done.
Qed.


Lemma linkBlock_other (M : links_t) (c k : pos) :
  k ∉ blk c → linkBlock M c !! k = M !! k.
Proof.
  intros Hk. unfold linkBlock, blk in *.
  set (tl := (2 * px c, 2 * py c)) in *.
  set (tr := (2 * px c + 1, 2 * py c)) in *.
  set (br := (2 * px c + 1, 2 * py c + 1)) in *.
  set (bl := (2 * px c, 2 * py c + 1)) in *.
  assert (N1 : tl ≠ tr) by (unfold tl, tr; intros [=]; lia).
  assert (N2 : tr ≠ br) by (unfold tr, br; intros [=]; lia).
  assert (N3 : br ≠ bl) by (unfold br, bl; intros [=]; lia).
  assert (N4 : bl ≠ tl) by (unfold bl, tl; intros [=]; lia).
  rewrite !not_elem_of_cons in Hk. destruct Hk as (K1 & K2 & K3 & K4 & _).
  rewrite (proj2 (proj2 (link_lookup _ bl tl N4))) by done.
  rewrite (proj2 (proj2 (link_lookup _ br bl N3))) by done.
  rewrite (proj2 (proj2 (link_lookup _ tr br N2))) by done.
  rewrite (proj2 (proj2 (link_lookup _ tl tr N1))) by done.
  done.
Qed.

Lemma linkBlocks_other (cs : list pos) : ∀ (M : links_t) k,
  blockOf k ∉ cs → foldl linkBlock M cs !! k = M !! k.
Proof.
  induction cs as [|c cs IH]; intros M k Hk; [done|].
  cbn [foldl]. rewrite IH by set_solver.
  apply linkBlock_other. rewrite elem_of_blk. set_solver.
Qed.

(** The four entries of a block that no later operation has touched. *)
Definition intact (M : links_t) (c : pos) : Prop :=
  let tl := (2 * px c, 2 * py c) in
  let tr := (2 * px c + 1, 2 * py c) in
  let br := (2 * px c + 1, 2 * py c + 1) in
  let bl := (2 * px c, 2 * py c + 1) in
  M !! tl = Some [tr; bl] ∧ M !! tr = Some [tl; br] ∧
  M !! br = Some [tr; bl] ∧ M !! bl = Some [br; tl].

Lemma linkBlocks_intact (cs : list pos) : ∀ (M : links_t),
  NoDup cs → (∀ k, blockOf k ∈ cs → M !! k = None) →
  ∀ c, c ∈ cs → intact (foldl linkBlock M cs) c.
Proof.
  induction cs as [|c0 cs IH]; intros M Hnd Hfresh c Hc.
  - by apply elem_of_nil in Hc.
  - apply NoDup_cons in Hnd as [Hn0 Hnd]. cbn [foldl].
    apply elem_of_cons in Hc as [->|Hc].
    + destruct (linkBlock_lookup M c0) as (E1 & E2 & E3 & E4 & _).
      { intros k Hk. apply Hfresh. apply elem_of_blk in Hk. set_solver. }
      assert (Hb : ∀ k, k ∈ blk c0 → blockOf k ∉ cs)
        by (intros k Hk%elem_of_blk Hin; apply Hn0; by rewrite <- Hk).
      unfold intact.
      rewrite !linkBlocks_other by (apply Hb; unfold blk; in_list). done.
    + apply IH; [done| |done].
      intros k Hk. rewrite linkBlock_other.
      * apply Hfresh. set_solver.
      * rewrite elem_of_blk. intros E. apply Hn0. by rewrite <- E.
Qed.

Lemma cpairs_blk c :
  cpairs (blk c) =
    [((2 * px c, 2 * py c), (2 * px c + 1, 2 * py c));
     ((2 * px c + 1, 2 * py c), (2 * px c + 1, 2 * py c + 1));
     ((2 * px c + 1, 2 * py c + 1), (2 * px c, 2 * py c + 1));
     ((2 * px c, 2 * py c + 1), (2 * px c, 2 * py c))].
Proof. done. Qed.

Ltac pos_neq := intros [=]; lia.

Lemma Rep_blk (M : links_t) c : intact M c → Rep M (blk c).
Proof.
  intros (E1 & E2 & E3 & E4). split.
  - unfold blk. repeat apply NoDup_cons_2; try apply NoDup_nil_2;
      rewrite ?elem_of_cons, ?elem_of_nil; intros H;
      repeat (destruct H as [H|H]; [simplify_eq; lia|]); done.
  - intros p x q. rewrite cpairs_blk, !elem_of_cons, !elem_of_nil.
    intros [H|[H|[H|[H|[]]]]] [H'|[H'|[H'|[H'|[]]]]];
      simplify_eq; try lia;
      (split; [pos_neq|]); unfold nbrs; rewrite ?E1, ?E2, ?E3, ?E4; tauto.
Qed.

Lemma adjacent4_sym a b : adjacent4 a b → adjacent4 b a.
Proof. unfold adjacent4. lia. Qed.

Lemma blk_adjacent c a b : (a, b) ∈ cpairs (blk c) → adjacent4 a b.
Proof.
  rewrite cpairs_blk, !elem_of_cons, elem_of_nil.
  intros [H|[H|[H|[H|[]]]]]; simplify_eq; unfold adjacent4; cbn [px py fst snd]; lia.
Qed.

Lemma side_cedge c d : d ∈ dirs → cedge (blk c) (side c d).1 (side c d).2.
Proof.
  intros Hd. apply elem_of_dirs in Hd.
  unfold cedge. rewrite cpairs_blk, !elem_of_cons, !elem_of_nil.
  destruct Hd as [->|[->|[->| ->]]]; unfold side;
    cbn [px py fst snd Z.eqb Pos.eqb]; tauto.
Qed.

Lemma side_distinct c d : (side c d).1 ≠ (side c d).2.
Proof. unfold side. repeat case_match; cbn [fst snd]; pos_neq. Qed.

Lemma side_blockOf c d :
  blockOf (side c d).1 = c ∧ blockOf (side c d).2 = c.
Proof.
  destruct c as [cx cy]. unfold side, blockOf.
  repeat case_match; cbn [px py fst snd]; split; f_equal; zdiv.
Qed.

(** A side determines its block and its direction. *)
Lemma side_inj c d c' d' :
  d ∈ dirs → d' ∈ dirs →
  ((side c d).1 = (side c' d').1 ∧ (side c d).2 = (side c' d').2) ∨
  ((side c d).1 = (side c' d').2 ∧ (side c d).2 = (side c' d').1) →
  c = c' ∧ d = d'.
Proof.
  intros Hd Hd'. apply elem_of_dirs in Hd, Hd'.
  destruct c as [cx cy], c' as [cx' cy'].
  destruct Hd as [->|[->|[->| ->]]], Hd' as [->|[->|[->| ->]]];
    unfold side; cbn [px py fst snd Z.eqb Pos.eqb];
    intros [[H1 H2]|[H1 H2]]; simplify_eq;
    first [lia | split; [f_equal; lia|done]].
Qed.

Lemma side_adjacent c d :
  d ∈ dirs →
  adjacent4 (side c d).1 (side (padd c d) (opp d)).1 ∧
  adjacent4 (side (padd c d) (opp d)).2 (side c d).2.
Proof.
  intros Hd. apply elem_of_dirs in Hd. destruct c as [cx cy].
  destruct Hd as [->|[->|[->| ->]]];
    opp_eval; unfold side, padd, adjacent4; cbn [px py fst snd Z.eqb Pos.eqb]; lia.
Qed.

Lemma opp_dirs d : d ∈ dirs → opp d ∈ dirs.
Proof.
  rewrite !elem_of_dirs.
  intros [->|[->|[->| ->]]]; opp_eval; tauto.
Qed.

Lemma padd_opp c d : padd (padd c d) (opp d) = c.
Proof. destruct c, d. unfold padd, opp. cbn [px py fst snd]. f_equal; lia. Qed.

(** ** The invariant of the re-linking loop *)

(** After the edges that visited [V]: the blocks of [V] form the one cycle
    [L], every other block is intact, a side of a visited block that faces an
    unvisited one is still an edge of [L], and the edges of [L] join
    adjacent cells. *)
Record Linked (w h : Z) (V : gset pos) (M : links_t) (L : list pos) : Prop := {
  lk_rep : Rep M L;
  lk_cells : ∀ k, k ∈ L ↔ blockOf k ∈ V;
  lk_rest : ∀ c, inGrid w h c → c ∉ V → intact M c;
  lk_sides : ∀ c d, c ∈ V → d ∈ dirs → inGrid w h (padd c d) → padd c d ∉ V →
               cedge L (side c d).1 (side c d).2;
  lk_adj : ∀ a b, (a, b) ∈ cpairs L → adjacent4 a b
}.

Lemma Linked_start (w h : Z) (M : links_t) (s : pos) :
  inGrid w h s → (∀ c, inGrid w h c → intact M c) →
  Linked w h {[s]} M (blk s).
Proof.
  intros Hs Hall. split.
  - apply Rep_blk, Hall, Hs.
  - intros k. rewrite elem_of_blk, elem_of_singleton. done.
  - intros c Hc _. by apply Hall.
  - intros c d Hc Hd _ _. apply elem_of_singleton in Hc. subst c.
    by apply side_cedge.
  - intros a b. apply blk_adjacent.
Qed.

Lemma intact_ext (M M' : links_t) c :
  (∀ k, k ∈ blk c → M' !! k = M !! k) → intact M c → intact M' c.
Proof.
  intros He (E1 & E2 & E3 & E4). unfold intact.
  rewrite !He; [done|..]; unfold blk; set_solver.
Qed.

Lemma Linked_step (w h : Z) (V : gset pos) (M : links_t) (L : list pos) (e : wall) (d : pos) :
  Linked w h V M L →
  wall_u e ∈ V → wall_v e ∉ V → inGrid w h (wall_v e) →
  d ∈ dirs → wall_v e = padd (wall_u e) d →
  ∃ M' L', applyEdge M e = Some M' ∧ Linked w h ({[wall_v e]} ∪ V) M' L'.
Proof.
  intros [HR Hcells Hrest Hsides Hadj] Hu Hv Hg Hd He.
  destruct e as [u v]. cbn [wall_u wall_v] in *. subst v.
  rewrite (applyEdge_side M u d Hd).
  set (v := padd u d) in *.
  pose proof (opp_dirs d Hd) as Hod.
  pose proof (side_blockOf u d) as [Ba1 Ba2].
  pose proof (side_blockOf v (opp d)) as [Bb1 Bb2].
  set (a1 := (side u d).1) in *. set (a2 := (side u d).2) in *.
  set (b1 := (side v (opp d)).1) in *. set (b2 := (side v (opp d)).2) in *.
  destruct (merge M L (blk v) a1 a2 b1 b2) as
    (M' & L' & Hsw & HR' & HP & Hoth & HeL & HeB & Hnew).
  - done.
  - apply Rep_blk. by apply Hrest.
  - intros x Hx Hx'. apply Hcells in Hx. apply elem_of_blk in Hx'. congruence.
  - by apply Hsides.
  - by apply side_cedge.
  - apply side_distinct.
  - apply side_distinct.
  - exists M', L'. split; [done|].
    assert (Htouch : ∀ k, blockOf k ≠ u → blockOf k ≠ v → M' !! k = M !! k).
    { intros k K1 K2. apply Hoth; intros E; subst k; congruence. }
    split.
    + done.
    + intros k. rewrite HP, elem_of_app, Hcells, elem_of_blk.
      rewrite elem_of_union, elem_of_singleton. tauto.
    + intros c Hc Hnc. apply not_elem_of_union in Hnc as [Hcv HcV].
      apply not_elem_of_singleton in Hcv.
      apply (intact_ext M); [|by apply Hrest].
      intros k Hk. apply elem_of_blk in Hk. apply Htouch; congruence.
    + intros c d' Hc Hd' Hg' Hn'.
      apply not_elem_of_union in Hn' as [Hn1 Hn2].
      apply not_elem_of_singleton in Hn1.
      apply elem_of_union in Hc as [Hc|Hc].
      * apply elem_of_singleton in Hc. subst c.
        apply HeB; [by apply side_cedge|..].
        -- intros [E1 E2].
           destruct (side_inj v d' v (opp d) Hd' Hod) as [_ ->]; [by left|].
           apply Hn2. unfold v at 1. by rewrite padd_opp.
        -- intros [E1 E2].
           destruct (side_inj v d' v (opp d) Hd' Hod) as [_ ->]; [by right|].
           apply Hn2. unfold v at 1. by rewrite padd_opp.
      * apply HeL; [by apply Hsides|..].
        -- intros [E1 E2].
           destruct (side_inj c d' u d Hd' Hd) as [-> ->]; [by left|]. done.
        -- intros [E1 E2].
           destruct (side_inj c d' u d Hd' Hd) as [-> ->]; [by right|]. done.
    + intros a b Hab. apply Hnew in Hab as [H|[H|[H|H]]].
      * destruct H as [H|H]; [by apply Hadj|by apply adjacent4_sym, Hadj].
      * destruct H as [H|H]; [by eapply blk_adjacent|].
        by eapply adjacent4_sym, blk_adjacent.
      * injection H as Ha Hb. rewrite Ha, Hb. apply (side_adjacent u d Hd).
      * injection H as Ha Hb. rewrite Ha, Hb. apply (side_adjacent u d Hd).
Qed.

Lemma Linked_edges (w h : Z) (V : gset pos) (es : list wall) (V' : gset pos) :
  PrimSeq w h V es V' →
  ∀ M L, Linked w h V M L →
  ∃ M' L', applyEdges M es = Some M' ∧ Linked w h V' M' L'.
Proof.
  induction 1 as [V|V V' e es d Hu Hv Hg Hd He Hs IH]; intros M L HL.
  - exists M, L. done.
  - destruct (Linked_step w h V M L e d HL Hu Hv Hg Hd He) as (M1 & L1 & E1 & HL1).
    destruct (IH M1 L1 HL1) as (M' & L' & E' & HL').
    exists M', L'. split; [|done]. cbn [applyEdges]. rewrite E1. done.
Qed.

(** ** The traversal *)

Lemma pos_eqb_eq (a b : pos) : pos_eqb a b = true ↔ a = b.
Proof.
  destruct a as [x y], b as [x' y']. unfold pos_eqb. cbn [px py fst snd].
  rewrite andb_true_iff, !Z.eqb_eq. split; [intros [-> ->]; done|].
  intros [=]. done.
Qed.

Lemma pos_eqb_refl (a : pos) : pos_eqb a a = true.
Proof. by apply pos_eqb_eq. Qed.

Lemma pos_eqb_neq (a b : pos) : a ≠ b → pos_eqb a b = false.
Proof.
  intros Hne. destruct (pos_eqb a b) eqn:E; [|done].
  by apply pos_eqb_eq in E.
Qed.

Lemma cpairs_succ {A} (l : list A) x : x ∈ l → ∃ q, (x, q) ∈ cpairs l.
Proof.
  intros Hx. destruct l as [|y t]; [by apply elem_of_nil in Hx|].
  apply list_elem_of_split in Hx as (l1 & l2 & Heq).
  rewrite cpairs_cons. change (y :: t ++ [y]) with ((y :: t) ++ [y]).
  rewrite Heq, <- app_assoc.
  destruct l2 as [|z l2]; eexists; apply (lpairs_mid l1 x).
Qed.

Lemma cpairs_pred {A} (l : list A) x : x ∈ l → ∃ p, (p, x) ∈ cpairs l.
Proof.
  intros Hx. assert (Hr : x ∈ reverse l) by (by rewrite elem_of_reverse).
  destruct (cpairs_succ _ _ Hr) as [p Hp]. exists p. by apply cpairs_reverse.
Qed.

Lemma cpairs_mid {A} (pre : list A) a b post : (a, b) ∈ cpairs (pre ++ a :: b :: post).
Proof.
  destruct pre as [|y pre].
  - apply list_elem_of_here.
  - change (cpairs ((y :: pre) ++ a :: b :: post))
      with (lpairs (((y :: pre) ++ a :: b :: post) ++ [y])).
    rewrite <- app_assoc. apply (lpairs_mid (y :: pre) a b (post ++ [y])).
Qed.

Lemma walk_S (n : nat) (M : links_t) (c prev : pos) (acc : list pos) :
  walk (S n) M (Some c) prev acc =
    match M !! c with
    | None => Some (acc ++ [c])
    | Some neighbors =>
      n0 ← neighbors !! 0%nat;
      walk n M (if pos_eqb n0 prev then neighbors !! 1%nat else Some n0) c (acc ++ [c])
    end.
Proof. done. Qed.

(** From a cell of the cycle, entered from the cell before it, the walk
    produces the rest of the list. *)
Lemma walk_follows (M : links_t) (L : list pos) :
  Rep M L →
  ∀ todo pre curr prev acc,
    L = pre ++ curr :: todo → (prev, curr) ∈ cpairs L →
    walk (S (length todo)) M (Some curr) prev acc = Some (acc ++ curr :: todo).
Proof.
  intros [Hnd HR]. induction todo as [|nx todo IH]; intros pre curr prev acc HL Hprev.
  - assert (Hin : curr ∈ L) by (rewrite HL; set_solver).
    destruct (cpairs_succ L curr Hin) as [q Hq].
    destruct (HR prev curr q Hprev Hq) as [_ [E|E]];
      cbn [length]; rewrite walk_S, E; done.
  - assert (Hnx : (curr, nx) ∈ cpairs L) by (rewrite HL; apply cpairs_mid).
    destruct (HR prev curr nx Hprev Hnx) as [Hne [E|E]].
    + cbn [length]. rewrite walk_S, E.
      cbn [lookup list_lookup mbind option_bind]. rewrite pos_eqb_refl.
      rewrite (IH (pre ++ [curr]) nx curr (acc ++ [curr])).
      * by rewrite <- app_assoc.
      * by rewrite <- app_assoc.
      * done.
    + cbn [length]. rewrite walk_S, E.
      cbn [lookup list_lookup mbind option_bind].
      rewrite pos_eqb_neq by done.
      rewrite (IH (pre ++ [curr]) nx curr (acc ++ [curr])).
      * by rewrite <- app_assoc.
      * by rewrite <- app_assoc.
      * done.
Qed.

(** The traversal of a table that holds a cycle through [x0] returns that
    cycle, from [x0] on, in the direction of the second link of [x0]. *)
Lemma walk_cycle (M : links_t) (L : list pos) (x0 : pos) :
  Rep M L → x0 ∈ L →
  ∃ l0 prev cycle,
    M !! x0 = Some l0 ∧ l0 !! 0%nat = Some prev ∧
    walk (length L) M (Some x0) prev [] = Some cycle ∧
    head cycle = Some x0 ∧ cycle ≡ₚ L ∧
    ∀ a b, (a, b) ∈ cpairs cycle → cedge L a b.
Proof.
  intros HR Hx.
  apply list_elem_of_split in Hx as (l1 & l2 & ->).
  pose proof (Rep_rot M l1 (x0 :: l2) HR) as HR1.
  set (T := l2 ++ l1). change ((x0 :: l2) ++ l1) with (x0 :: T) in HR1.
  assert (Hin : x0 ∈ x0 :: T) by apply list_elem_of_here.
  destruct (cpairs_pred _ _ Hin) as [p Hp].
  destruct (cpairs_succ _ _ Hin) as [q Hq].
  destruct (proj2 HR1 p x0 q Hp Hq) as [Hne [E|E]].
  - exists [p; q], p, (x0 :: T). split_and!; try done.
    + replace (length (l1 ++ x0 :: l2)) with (S (length T))
        by (unfold T; rewrite !length_app; simpl; lia).
      apply (walk_follows M (x0 :: T) HR1 T [] x0 p []); done.
    + unfold T. by rewrite (comm (++) l1).
    + intros a b Hab. apply (cedge_rot l1 (x0 :: l2)). by left.
  - pose proof (Rep_rot M (reverse T) [x0]) as HR2.
    rewrite <- reverse_cons in HR2. specialize (HR2 (Rep_reverse _ _ HR1)).
    change ([x0] ++ reverse T) with (x0 :: reverse T) in HR2.
    exists [q; p], q, (x0 :: reverse T). split_and!; try done.
    + replace (length (l1 ++ x0 :: l2)) with (S (length (reverse T)))
        by (unfold T; rewrite length_reverse, !length_app; simpl; lia).
      apply (walk_follows M (x0 :: reverse T) HR2 (reverse T) [] x0 q []); [done|].
      change (x0 :: reverse T) with ([x0] ++ reverse T).
      rewrite <- (cpairs_rot (reverse T) [x0]), <- reverse_cons.
      by apply cpairs_reverse.
    + rewrite reverse_Permutation. unfold T. by rewrite (comm (++) l1).
    + intros a b Hab. apply (cedge_rot l1 (x0 :: l2)).
      change ((x0 :: l2) ++ l1) with (x0 :: T).
      apply cedge_reverse. rewrite reverse_cons.
      apply (cedge_rot (reverse T) [x0]). by left.
Qed.

(** ** The cycle builder, end to end *)

Lemma initial_intact (w h : Z) (c : pos) :
  inGrid w h c → intact (foldl linkBlock (∅ : links_t) (coarseCells w h)) c.
Proof.
  intros Hc. apply linkBlocks_intact.
  - apply NoDup_coarseCells.
  - intros k _. apply lookup_empty.
  - by apply elem_of_coarseCells.
Qed.

Lemma inGrid_blockOf (w h : Z) (k : pos) :
  inGrid w h (blockOf k) ↔ inGrid (2 * w) (2 * h) k.
Proof.
  destruct k as [x y]. unfold inGrid, blockOf. cbn [px py fst snd].
  split; intros [? ?]; split; zdiv.
Qed.

(** What [generateHamiltonianCycle] returns on a [2w] by [2h] grid. *)
Lemma generateHamiltonianCycle_spec (w h seed : Z) :
  0 < w → 0 < h →
  ∃ seed' cycle,
    generateHamiltonianCycle (2 * w) (2 * h) seed = Some (seed', cycle) ∧
    head cycle = Some (0, 0) ∧
    cycle ≡ₚ coarseCells (2 * w) (2 * h) ∧
    ∀ a b, (a, b) ∈ cpairs cycle → adjacent4 a b.
Proof.
  intros Hw Hh. unfold generateHamiltonianCycle.
  replace (2 * w / 2) with w by zdiv. replace (2 * h / 2) with h by zdiv.
  destruct (generateMST_spec w h seed Hw Hh) as (seed' & mst & start & V & -> & Hs & Hps & HV).
  cbn [mbind option_bind]. unfold mstToCycle.
  set (M0 := foldl linkBlock (∅ : links_t) (coarseCells w h)).
  destruct (Linked_edges w h {[start]} mst V Hps M0 (blk start)) as (M & L & -> & HL).
  { apply Linked_start; [done|]. intros c Hc. by apply initial_intact. }
  cbn [mbind option_bind].
  destruct HL as [HR Hcells _ _ Hadj].
  assert (HLperm : L ≡ₚ coarseCells (2 * w) (2 * h)).
  { apply NoDup_Permutation; [apply HR|apply NoDup_coarseCells|].
    intros k. rewrite Hcells, HV, elem_of_coarseCells. apply inGrid_blockOf. }
  assert (H0 : (0, 0) ∈ L).
  { rewrite HLperm. apply elem_of_coarseCells. unfold inGrid. cbn [px py fst snd]. lia. }
  destruct (walk_cycle M L (0, 0) HR H0) as (l0 & prev & cycle & -> & E0 & Hwalk & Hhd & Hperm & Hedges).
  cbn [mbind option_bind]. rewrite E0. cbn [mbind option_bind].
  replace (Z.to_nat (2 * w * (2 * h))) with (length L).
  2:{ rewrite HLperm, length_coarseCells. lia. }
  rewrite Hwalk. cbn [mbind option_bind].
  exists seed', cycle. split_and!; try done.
  - by rewrite Hperm.
  - intros a b Hab. destruct (Hedges a b Hab) as [H|H].
    + by apply Hadj.
    + by apply adjacent4_sym, Hadj.
Qed.

(** ** Cycle validity *)

Lemma cpairs_lookup {A} (l : list A) (i : nat) (a b : A) :
  l !! i = Some a → l !! (S i mod length l)%nat = Some b → (a, b) ∈ cpairs l.
Proof.
  intros Ha Hb. pose proof (lookup_lt_Some _ _ _ Ha) as Hi.
  destruct (decide (S i < length l)%nat) as [Hlt|Hge].
  - rewrite Nat.mod_small in Hb by done.
    rewrite <- (take_drop_middle l i a Ha).
    pose proof (lookup_drop l (S i) 0) as Hd.
    rewrite Nat.add_0_r, Hb in Hd.
    destruct (drop (S i) l) as [|b' post] eqn:E; [done|].
    cbn in Hd. injection Hd as ->. apply cpairs_mid.
  - assert (Hlen : S i = length l) by lia.
    rewrite Hlen, Nat.Div0.mod_same in Hb.
    destruct l as [|x t]; [done|]. cbn in Hb. injection Hb as ->.
    rewrite cpairs_cons.
    assert (Hsplit : b :: t = take i (b :: t) ++ [a]).
    { rewrite <- (take_drop_middle (b :: t) i a Ha) at 1.
      rewrite drop_ge by (rewrite <- Hlen; lia). done. }
    change (b :: t ++ [b]) with ((b :: t) ++ [b]).
    rewrite Hsplit, <- app_assoc. apply (lpairs_mid (take i (b :: t)) a b []).
Qed.

(** C1, as amended: on a grid with positive even dimensions, for every seed,
    [generateHamiltonianCycle] returns a sequence that starts at [(0,0)], has
    [cols * rows] positions, holds every cell of the grid exactly once, and
    in which each position and the next one, the first following the last,
    are adjacent. *)
Theorem hamiltonian_cycle_valid (cols rows seed : Z) :
  0 < cols → 0 < rows → Z.even cols = true → Z.even rows = true →
  ∃ seed' cycle,
    generateHamiltonianCycle cols rows seed = Some (seed', cycle) ∧
    head cycle = Some (0, 0) ∧
    Z.of_nat (length cycle) = cols * rows ∧
    NoDup cycle ∧
    (∀ p, p ∈ cycle ↔ inGrid cols rows p) ∧
    (∀ i a b, cycle !! i = Some a →
              cycle !! (S i mod length cycle)%nat = Some b → adjacent4 a b).
Proof.
  intros Hc Hr Ec Er.
  apply Z.even_spec in Ec as [w ->]. apply Z.even_spec in Er as [h ->].
  destruct (generateHamiltonianCycle_spec w h seed) as (seed' & cycle & E & Hhd & Hp & Hadj);
    [lia|lia|].
  exists seed', cycle. split_and!; try done.
  - rewrite Hp, length_coarseCells. lia.
  - rewrite Hp. apply NoDup_coarseCells.
  - intros p. rewrite Hp. apply elem_of_coarseCells.
  - intros i a b Ha Hb. apply Hadj. by eapply cpairs_lookup.
Qed.

Lemma hamiltonian_cycle_valid_witness :
  0 < 4 ∧ 0 < 2 ∧ Z.even 4 = true ∧ Z.even 2 = true ∧
  ∃ seed' cycle,
    generateHamiltonianCycle 4 2 7 = Some (seed', cycle) ∧
    head cycle = Some (0, 0) ∧
    Z.of_nat (length cycle) = 4 * 2 ∧
    NoDup cycle ∧
    (∀ p, p ∈ cycle ↔ inGrid 4 2 p) ∧
    (∀ i a b, cycle !! i = Some a →
              cycle !! (S i mod length cycle)%nat = Some b → adjacent4 a b).
Proof.
  split; [lia|]. split; [lia|]. split; [reflexivity|]. split; [reflexivity|].
  apply (hamiltonian_cycle_valid 4 2 7); [lia|lia|reflexivity|reflexivity].
Defined.

(** C1 as stated fails on an even grid with no columns: the traversal reads
    the links of [(0,0)], which the empty table does not have, and the
    builder throws instead of returning the empty sequence. *)
Lemma hamiltonian_cycle_zero_columns :
  Z.even 0 = true ∧ Z.even 2 = true ∧
  generateHamiltonianCycle 0 2 42 = None ∧
  init (newSnakeAI 0 2 42 0) = None.
Proof. vm_compute. done. Qed.

(** ** Determinism *)

Lemma newSnakeAI_seeded (c r s now : Z) :
  s ≠ 0 → newSnakeAI c r s now = newSnakeAI c r s 0.
Proof.
  intros Hs. unfold newSnakeAI. apply Z.eqb_neq in Hs. by rewrite Hs.
Qed.

(** The builder on the 8 by 8 grid with seed 42. *)
Lemma cycle_8x8_seed42 :
  ∃ cycle, hamiltonianCycle <$> init (newSnakeAI 8 8 42 0) = Some cycle ∧
           length cycle = 64%nat ∧ NoDup cycle.
Proof.
  eexists. split; [vm_compute; reflexivity|]. split; [reflexivity|].
  refine (bool_decide_unpack _ _). vm_compute. exact I.
Qed.

(** C2, as amended: two controllers built with the same dimensions and the
    same non-zero seed are the same controller whatever the clock reads, so
    their calls of [random()] return the same numbers and their cycle builds
    return the same cycle; the 8 by 8 grid with seed 42 gives one sequence of
    64 distinct positions every time. *)
Theorem same_seed_same_run (c r s now1 now2 : Z) :
  s ≠ 0 →
  (∀ n, Rng.stream n (seed (newSnakeAI c r s now1)) =
        Rng.stream n (seed (newSnakeAI c r s now2))) ∧
  init (newSnakeAI c r s now1) = init (newSnakeAI c r s now2) ∧
  generateHamiltonianCycle c r (seed (newSnakeAI c r s now1)) =
    generateHamiltonianCycle c r (seed (newSnakeAI c r s now2)) ∧
  ∃ cycle, hamiltonianCycle <$> init (newSnakeAI 8 8 42 now1) = Some cycle ∧
           hamiltonianCycle <$> init (newSnakeAI 8 8 42 now2) = Some cycle ∧
           length cycle = 64%nat ∧ NoDup cycle.
Proof.
  intros Hs.
  rewrite (newSnakeAI_seeded c r s now1 Hs), (newSnakeAI_seeded c r s now2 Hs).
  split; [reflexivity|]. split; [reflexivity|]. split; [reflexivity|].
  destruct cycle_8x8_seed42 as (cycle & E & Hl & Hn).
  exists cycle.
  rewrite (newSnakeAI_seeded 8 8 42 now1), (newSnakeAI_seeded 8 8 42 now2) by done.
  exact (conj E (conj E (conj Hl Hn))).
Qed.

Lemma same_seed_same_run_witness :
  42 ≠ 0 ∧
  (∀ n, Rng.stream n (seed (newSnakeAI 8 8 42 1)) =
        Rng.stream n (seed (newSnakeAI 8 8 42 2))) ∧
  init (newSnakeAI 8 8 42 1) = init (newSnakeAI 8 8 42 2) ∧
  generateHamiltonianCycle 8 8 (seed (newSnakeAI 8 8 42 1)) =
    generateHamiltonianCycle 8 8 (seed (newSnakeAI 8 8 42 2)) ∧
  ∃ cycle, hamiltonianCycle <$> init (newSnakeAI 8 8 42 1) = Some cycle ∧
           hamiltonianCycle <$> init (newSnakeAI 8 8 42 2) = Some cycle ∧
           length cycle = 64%nat ∧ NoDup cycle.
Proof.
  split; [lia|]. apply (same_seed_same_run 8 8 42 1 2). lia.
Defined.

(** C2 as stated fails for the seed 0, which the constructor replaces by
    the reading of the clock: two controllers built with the same
    [(8, 8, 0)] at different times draw different numbers and build
    different cycles. *)
Lemma zero_seed_follows_clock :
  bool_decide (Rng.stream 3 (seed (newSnakeAI 8 8 0 1000)) =
               Rng.stream 3 (seed (newSnakeAI 8 8 0 2000))) = false ∧
  bool_decide (hamiltonianCycle <$> init (newSnakeAI 8 8 0 1000) =
               hamiltonianCycle <$> init (newSnakeAI 8 8 0 2000)) = false.
Proof. vm_compute. done. Qed.

(** ** Target claims *)

(** The distance that [findNearestFood] computes from [head] to [f]:
    [NaN] ([None]) when one of them has no cycle index. *)
Definition foodDist (ai : SnakeAI) (head f : pos) : option Z :=
  match getCycleIndex ai f, getCycleIndex ai head with
  | Some fIdx, Some hIdx =>
    let dist := fIdx - hIdx in
    Some (if dist <? 0 then dist + cycleLen ai else dist)
  | _, _ => None
  end.

(** What the loop of [findNearestFood] has found in the foods [pre] seen so
    far: nothing when each of them is claimed by another agent or has no
    distance, and otherwise the first of the unclaimed foods at the least
    distance. *)
Definition Best (ai : SnakeAI) (head : pos) (t : option targets_t) (id : Z)
    (pre : list pos) (st : nearestState) : Prop :=
  match nearest st with
  | None =>
    minCycleDist st = None ∧
    ∀ (j : nat) f, pre !! j = Some f →
      isTaken t id (Z.of_nat j) = true ∨ foodDist ai head f = None
  | Some f =>
    ∃ (k : nat) d,
      nearestIdx st = Z.of_nat k ∧ minCycleDist st = Some d ∧
      pre !! k = Some f ∧ isTaken t id (Z.of_nat k) = false ∧
      foodDist ai head f = Some d ∧
      ∀ (j : nat) f' d', pre !! j = Some f' →
        isTaken t id (Z.of_nat j) = false → foodDist ai head f' = Some d' →
        d ≤ d' ∧ ((j < k)%nat → d < d')
  end.

Lemma nearestStep_Best (ai : SnakeAI) (head : pos) (t : option targets_t) (id : Z)
    (pre : list pos) (st : nearestState) (f : pos) :
  Best ai head t id pre st →
  Best ai head t id (pre ++ [f])
       (nearestStep ai (getCycleIndex ai head) t id st (Z.of_nat (length pre)) f).
Proof.
  intros HB. unfold nearestStep.
  assert (Hsnoc : ∀ (j : nat) g, (pre ++ [f]) !! j = Some g →
            pre !! j = Some g ∨ (j = length pre ∧ g = f)).
  { intros j g Hj. apply lookup_app_Some in Hj as [?|[Hge Hj]]; [by left|].
    right. apply list_lookup_singleton_Some in Hj as [? ?]. split; [lia|done]. }
  destruct (isTaken t id (Z.of_nat (length pre))) eqn:Etk.
  { (* claimed by another agent: skipped *)
    unfold Best in *. destruct (nearest st) as [g|].
    - destruct HB as (k & d & Hk & Hm & Hl & Htk & Hd & Hmin).
      exists k, d. split_and!; try done.
      + by apply lookup_app_l_Some.
      + intros j f' d' Hj Hnt Hd'. apply Hsnoc in Hj as [Hj|[-> ->]]; [eauto|].
        congruence.
    - destruct HB as [Hm Hall]. split; [done|].
      intros j g Hj. apply Hsnoc in Hj as [Hj|[-> ->]]; [eauto|]. by left. }
  destruct (getCycleIndex ai f) as [fIdx|] eqn:Ef.
  2:{ (* the food has no cycle index: its distance is NaN *)
      assert (Hf : foodDist ai head f = None) by (unfold foodDist; by rewrite Ef).
      unfold Best in *. destruct (nearest st) as [g|].
      - destruct HB as (k & d & Hk & Hm & Hl & Htk & Hd & Hmin).
        exists k, d. split_and!; try done.
        + by apply lookup_app_l_Some.
        + intros j f' d' Hj Hnt Hd'. apply Hsnoc in Hj as [Hj|[-> ->]]; [eauto|].
          congruence.
      - destruct HB as [Hm Hall]. split; [done|].
        intros j g Hj. apply Hsnoc in Hj as [Hj|[-> ->]]; [eauto|]. by right. }
  destruct (getCycleIndex ai head) as [hIdx|] eqn:Eh.
  2:{ (* the head has no cycle index: every distance is NaN *)
      assert (Hno : ∀ g, foodDist ai head g = None).
      { intros g. unfold foodDist. rewrite Eh. by destruct (getCycleIndex ai g). }
      unfold Best in *. destruct (nearest st) as [g|].
      - destruct HB as (k & d & Hk & Hm & Hl & Htk & Hd & Hmin).
        rewrite Hno in Hd. done.
      - destruct HB as [Hm Hall]. split; [done|]. intros j g Hj. by right. }
  cbv zeta.
  set (dist := if fIdx - hIdx <? 0 then fIdx - hIdx + cycleLen ai else fIdx - hIdx).
  assert (Hf : foodDist ai head f = Some dist)
    by (unfold foodDist; by rewrite Ef, Eh).
  unfold Best in HB. destruct (nearest st) as [g|] eqn:En.
  - destruct HB as (k & d & Hk & Hm & Hl & Htk & Hd & Hmin).
    pose proof (lookup_lt_Some _ _ _ Hl) as Hklt.
    rewrite Hm. unfold closer. destruct (dist <? d) eqn:Elt.
    + apply Z.ltb_lt in Elt. unfold Best. cbn [nearest nearestIdx minCycleDist].
      exists (length pre), dist. split_and!; try done.
      * rewrite lookup_app_r by lia. by rewrite Nat.sub_diag.
      * intros j f' d' Hj Hnt Hd'. apply Hsnoc in Hj as [Hj|[-> ->]].
        -- destruct (Hmin j f' d' Hj Hnt Hd') as [Hle _].
           split; [lia|]. intros _. lia.
        -- rewrite Hf in Hd'. injection Hd' as <-. split; lia.
    + apply Z.ltb_ge in Elt. unfold Best. rewrite En.
      exists k, d. split_and!; try done.
      * by apply lookup_app_l_Some.
      * intros j f' d' Hj Hnt Hd'. apply Hsnoc in Hj as [Hj|[-> ->]]; [eauto|].
        rewrite Hf in Hd'. injection Hd' as <-. split; lia.
  - destruct HB as [Hm Hall]. rewrite Hm. unfold closer, Best.
    cbn [nearest nearestIdx minCycleDist].
    exists (length pre), dist. split_and!; try done.
    + rewrite lookup_app_r by lia. by rewrite Nat.sub_diag.
    + intros j f' d' Hj Hnt Hd'. apply Hsnoc in Hj as [Hj|[-> ->]].
      * destruct (Hall j f' Hj) as [?|?]; congruence.
      * rewrite Hf in Hd'. injection Hd' as <-. split; lia.
Qed.

Lemma nearestLoop_Best (ai : SnakeAI) (head : pos) (t : option targets_t) (id : Z)
    (foods : list pos) : ∀ (pre : list pos) (st : nearestState),
  Best ai head t id pre st →
  Best ai head t id (pre ++ foods)
       (nearestLoop ai (getCycleIndex ai head) t id st (Z.of_nat (length pre)) foods).
Proof.
  induction foods as [|f foods IH]; intros pre st HB.
  - by rewrite app_nil_r.
  - cbn [nearestLoop].
    replace (Z.of_nat (length pre) + 1) with (Z.of_nat (length (pre ++ [f])))
      by (rewrite length_app; simpl; lia).
    replace (pre ++ f :: foods) with ((pre ++ [f]) ++ foods)
      by (by rewrite <- app_assoc).
    apply IH. by apply nearestStep_Best.
Qed.

(** The state in which the loop of [findNearestFood] ends. *)
Definition nearestResult (ai : SnakeAI) (head : pos) (foods : list pos) (id : Z)
    (t : option targets_t) : nearestState :=
  nearestLoop ai (getCycleIndex ai head) t id
    {| minCycleDist := None; nearest := None; nearestIdx := -1 |} 0 foods.

Lemma nearestResult_Best (ai : SnakeAI) (head : pos) (foods : list pos) (id : Z)
    (t : option targets_t) :
  Best ai head t id foods (nearestResult ai head foods id t).
Proof.
  apply (nearestLoop_Best ai head t id foods [] _).
  split; [done|]. intros j f Hj. done.
Qed.

Lemma isTaken_true (t : targets_t) (id i : Z) :
  isTaken (Some t) id i = true ↔ ∃ oid, oid ≠ id ∧ t !! oid = Some i.
Proof.
  unfold isTaken. rewrite existsb_exists. split.
  - intros ([oid k] & Hin & Hb). cbn [fst snd] in Hb.
    apply andb_true_iff in Hb as [Hne Heq].
    apply negb_true_iff, Z.eqb_neq in Hne. apply Z.eqb_eq in Heq. subst k.
    exists oid. split; [done|].
    apply elem_of_map_to_list. by apply list_elem_of_In.
  - intros (oid & Hne & Hl). exists (oid, i). split.
    + apply list_elem_of_In. by apply elem_of_map_to_list.
    + cbn [fst snd]. apply andb_true_iff. split.
      * by apply negb_true_iff, Z.eqb_neq.
      * by apply Z.eqb_eq.
Qed.

Lemma isTaken_false (t : targets_t) (id i : Z) :
  isTaken (Some t) id i = false ↔ ∀ oid, oid ≠ id → t !! oid ≠ Some i.
Proof.
  rewrite <- not_true_iff_false, isTaken_true. split.
  - intros Hn oid Hne Hl. apply Hn. by exists oid.
  - intros Hall (oid & Hne & Hl). by apply (Hall oid).
Qed.

Lemma findNearestFood_eq (ai : SnakeAI) (head : pos) (foods : list pos) (id : Z)
    (t : targets_t) :
  findNearestFood ai head foods id (Some t) =
    let st := nearestResult ai head foods id (Some t) in
    (nearest st,
     match nearest st with
     | Some _ => if negb (id =? -1) then Some (<[id := nearestIdx st]> t) else Some t
     | None => Some t
     end).
Proof. done. Qed.

(** The loop reads the table only through [isTaken] at the indices of the
    foods it visits. *)
Lemma nearestLoop_ext (ai : SnakeAI) (hIdx : option Z) (t t' : option targets_t)
    (id : Z) (foods : list pos) : ∀ (st : nearestState) (i : Z),
  (∀ k, i ≤ k < i + Z.of_nat (length foods) → isTaken t id k = isTaken t' id k) →
  nearestLoop ai hIdx t id st i foods = nearestLoop ai hIdx t' id st i foods.
Proof.
  induction foods as [|f foods IH]; intros st i Hext; [done|].
  cbn [nearestLoop].
  assert (Hs : nearestStep ai hIdx t id st i f = nearestStep ai hIdx t' id st i f).
  { unfold nearestStep. rewrite (Hext i) by (cbn [length]; lia). done. }
  rewrite Hs. apply IH. intros k Hk. apply Hext. cbn [length]. lia.
Qed.

Lemma isTaken_delete_stale (t : targets_t) (id oid k i : Z) :
  t !! oid = Some k → i ≠ k →
  isTaken (Some (delete oid t)) id i = isTaken (Some t) id i.
Proof.
  intros Hk Hne.
  destruct (isTaken (Some t) id i) eqn:E.
  - apply isTaken_true in E as (o & Ho & Hl). apply isTaken_true.
    exists o. split; [done|]. rewrite lookup_delete_ne; [done|].
    intros ->. congruence.
  - apply isTaken_false. intros o Ho Hl.
    apply lookup_delete_Some in Hl as [_ Hl].
    by apply (proj1 (isTaken_false t id i) E o).
Qed.

Lemma spawnAttempts_targets (n : nat) (oracle : oracle_t) : ∀ W,
  snakeTargets (spawnAttempts n oracle W) = snakeTargets W.
Proof.
  induction n as [|n IH]; intros W; [done|].
  cbn [spawnAttempts]. unfold mathRandom. cbv zeta.
  repeat case_match; try done; by rewrite IH.
Qed.

Lemma maintainFoodCount_targets (fuel : nat) (oracle : oracle_t) : ∀ W W',
  maintainFoodCount fuel oracle W = Done W' → snakeTargets W' = snakeTargets W.
Proof.
  induction fuel as [|fuel IH]; intros W W'; cbn [maintainFoodCount].
  - case_match; [done|]. by intros [= <-].
  - case_match; [|by intros [= <-]].
    intros Hm. apply IH in Hm. rewrite Hm. apply spawnAttempts_targets.
Qed.

(** C7, as amended (the claim is recorded unless the caller's id is [-1]).
    For every call of [findNearestFood] with a claims table [t]:
    a food that is returned stands at an index that no other agent claims,
    and that index becomes the caller's claim when its id is not [-1];
    a claim on an index outside the food list changes nothing in what is
    found; when the sole food is returned to a caller with an id, a later
    caller with another id finds nothing; and the branch of the tick loop in
    which a snake eats leaves that snake without a claim. *)
Theorem target_claims (ai : SnakeAI) (head : pos) (foods : list pos) (id : Z)
    (t : targets_t) :
  (∀ f, (findNearestFood ai head foods id (Some t)).1 = Some f →
     ∃ k : nat, foods !! k = Some f ∧
       (∀ oid, oid ≠ id → t !! oid ≠ Some (Z.of_nat k)) ∧
       (findNearestFood ai head foods id (Some t)).2 =
         Some (if id =? -1 then t else <[id := Z.of_nat k]> t)) ∧
  ((findNearestFood ai head foods id (Some t)).1 = None →
   (findNearestFood ai head foods id (Some t)).2 = Some t) ∧
  (∀ oid k, t !! oid = Some k → k < 0 ∨ Z.of_nat (length foods) ≤ k →
     (findNearestFood ai head foods id (Some (delete oid t))).1 =
     (findNearestFood ai head foods id (Some t)).1) ∧
  (∀ f other head' t', foods = [f] → id ≠ -1 → other ≠ id →
     findNearestFood ai head foods id (Some t) = (Some f, Some t') →
     (findNearestFood ai head' [f] other (Some t')).1 = None) ∧
  (∀ fuel oracle W s foodIndex W',
     eatFood fuel oracle W s foodIndex = Done W' →
     snakeTargets W' !! sid s = None).
Proof.
  cbv zeta. rewrite findNearestFood_eq. cbv zeta. cbn [fst snd].
  pose proof (nearestResult_Best ai head foods id (Some t)) as HB.
  unfold Best in HB. split_and!.
  - intros f Hf. rewrite Hf in HB |- *.
    destruct HB as (k & d & Hk & _ & Hl & Htk & _).
    exists k. split; [done|]. split; [by apply isTaken_false|].
    rewrite Hk. by destruct (id =? -1).
  - intros Hn. by rewrite Hn.
  - intros oid k Hk Hout. rewrite findNearestFood_eq. cbv zeta. cbn [fst].
    unfold nearestResult. f_equal. apply nearestLoop_ext.
    intros i Hi. apply (isTaken_delete_stale t id oid k i Hk). lia.
  - intros f other head' t' -> Hid Hother Hr.
    injection Hr as Hn Ht. rewrite Hn in HB, Ht.
    destruct HB as (k & d & Hk & _ & Hl & _).
    apply list_lookup_singleton_Some in Hl as [-> _].
    apply Z.eqb_neq in Hid. rewrite Hid in Ht. cbn [negb] in Ht.
    injection Ht as <-. rewrite Hk.
    rewrite findNearestFood_eq. cbv zeta. cbn [fst].
    pose proof (nearestResult_Best ai head' [f] other (Some (<[id:=Z.of_nat 0]> t))) as HB'.
    unfold Best in HB'.
    destruct (nearest (nearestResult ai head' [f] other (Some (<[id:=Z.of_nat 0]> t))))
      as [g|]; [|done].
    destruct HB' as (k' & d' & _ & _ & Hl' & Htk' & _).
    apply list_lookup_singleton_Some in Hl' as [-> _].
    exfalso. apply (proj1 (isTaken_false _ _ _) Htk' id); [done|].
    apply lookup_insert_eq.
  - intros fuel oracle W s foodIndex W' He. unfold eatFood in He.
    apply maintainFoodCount_targets in He. rewrite He.
    cbn [snakeTargets set_targets set_foods]. apply lookup_delete_eq.
Qed.

(** C7 as stated fails for a caller with the id -1, the default of
    [getNextMove]: the search returns the food and records no claim, and
    the next caller selects the same food. *)
Lemma anonymous_caller_records_nothing :
  findNearestFood demoAI (0,0) [(0,1)] (-1) (Some ∅) = (Some (0,1), Some ∅) ∧
  (findNearestFood demoAI (0,2) [(0,1)] 1 (Some ∅)).1 = Some (0,1).
Proof. vm_compute. done. Qed.

(** ** The path ahead of the head *)

(** The position [i] steps ahead of [head] on the cycle:
    [cycle[(index head + i) mod length]]. *)
Definition cycleAhead (ai : SnakeAI) (head : pos) (i : nat) : option pos :=
  hIdx ← getCycleIndex ai head;
  hamiltonianCycle ai !! Z.to_nat ((hIdx + Z.of_nat i) mod cycleLen ai).

(** The head has a cycle index, and it is an index of the cycle array. *)
Definition onCycle (ai : SnakeAI) (head : pos) : Prop :=
  ∃ hIdx, getCycleIndex ai head = Some hIdx ∧ 0 ≤ hIdx < cycleLen ai.

Lemma hasPos_elem (arr : list pos) (q : pos) : hasPos arr q = true ↔ q ∈ arr.
Proof.
  unfold hasPos. rewrite existsb_exists. split.
  - intros (p & Hin & Hp). apply pos_eqb_eq in Hp. subst. by apply list_elem_of_In.
  - intros Hin. exists q. split; [by apply list_elem_of_In|apply pos_eqb_refl].
Qed.

Lemma cycleAhead_Some (ai : SnakeAI) (head : pos) (i : nat) :
  onCycle ai head → ∃ p, cycleAhead ai head i = Some p.
Proof.
  intros (hIdx & E & Hr). unfold cycleAhead. rewrite E. cbn [mbind option_bind].
  apply lookup_lt_is_Some_2. unfold cycleLen in *.
  pose proof (Z.mod_pos_bound (hIdx + Z.of_nat i) (Z.of_nat (length (hamiltonianCycle ai)))).
  lia.
Qed.

Lemma isSafePathLoop_spec (ai : SnakeAI) (obstacles : list pos) (hIdx : Z) (head : pos) :
  getCycleIndex ai head = Some hIdx → 0 ≤ hIdx < cycleLen ai →
  ∀ (steps k : nat),
    isSafePathLoop steps ai (Some ((hIdx + Z.of_nat k) mod cycleLen ai)) obstacles =
    Some (forallb (fun i => match cycleAhead ai head i with
                            | Some p => negb (hasPos obstacles p)
                            | None => true
                            end) (seq (S k) steps)).
Proof.
  intros E Hr. induction steps as [|steps IH]; intros k; [done|].
  cbn [isSafePathLoop seq forallb].
  set (len := cycleLen ai) in *.
  assert (Hc : 0 ≤ (hIdx + Z.of_nat k) mod len < len) by (apply Z.mod_pos_bound; lia).
  unfold optAdd, jsRem. cbn [fmap option_fmap option_map mbind option_bind].
  destruct (len =? 0) eqn:E0; [apply Z.eqb_eq in E0; lia|].
  rewrite Z.rem_mod_nonneg by lia.
  replace (((hIdx + Z.of_nat k) mod len + 1) mod len)
    with ((hIdx + Z.of_nat (S k)) mod len).
  2:{ replace (hIdx + Z.of_nat (S k)) with (hIdx + Z.of_nat k + 1) by lia.
      symmetry. apply Zplus_mod_idemp_l. }
  assert (Hc' : 0 ≤ (hIdx + Z.of_nat (S k)) mod len < len) by (apply Z.mod_pos_bound; lia).
  unfold jsIndex. cbn [mbind option_bind].
  destruct ((hIdx + Z.of_nat (S k)) mod len <? 0) eqn:En; [apply Z.ltb_lt in En; lia|].
  unfold cycleAhead at 1. rewrite E. cbn [mbind option_bind]. fold len.
  destruct (hamiltonianCycle ai !! Z.to_nat ((hIdx + Z.of_nat (S k)) mod len))
    as [p|] eqn:Ep.
  2:{ apply lookup_ge_None in Ep. unfold len, cycleLen in *. lia. }
  assert (Hs : someAt obstacles (Some p) = Some (hasPos obstacles p))
    by (by destruct obstacles).
  rewrite Hs. cbn [mbind option_bind].
  destruct (hasPos obstacles p); [done|]. cbn [negb andb]. apply IH.
Qed.

(** [isSafePath] from a head on the cycle returns, and it returns [true]
    exactly when none of the positions 1 to [steps] ahead is an obstacle. *)
Lemma isSafePath_spec (ai : SnakeAI) (head : pos) (steps : nat) (obstacles : list pos) :
  onCycle ai head →
  ∃ safe, isSafePath ai head steps obstacles = Some safe ∧
    (safe = true ↔
     ∀ (i : nat) p, (1 ≤ i ≤ steps)%nat → cycleAhead ai head i = Some p → p ∉ obstacles).
Proof.
  intros (hIdx & E & Hr). unfold isSafePath. rewrite E.
  pose proof (isSafePathLoop_spec ai obstacles hIdx head E Hr steps 0) as H.
  rewrite Z.add_0_r, Z.mod_small in H by done.
  eexists. split; [exact H|].
  rewrite forallb_forall. split.
  - intros Hall i p Hi Hp Hin.
    specialize (Hall i). rewrite Hp in Hall.
    assert (Hseq : In i (seq 1 steps)) by (apply in_seq; lia).
    specialize (Hall Hseq). apply negb_true_iff in Hall.
    apply hasPos_elem in Hin. congruence.
  - intros Hall i Hi. apply in_seq in Hi.
    destruct (cycleAhead ai head i) as [p|] eqn:Ep; [|done].
    apply negb_true_iff. apply not_true_iff_false. intros Hin%hasPos_elem.
    by apply (Hall i p ltac:(lia) Ep).
Qed.

Lemma nextOnCycle_ahead (ai : SnakeAI) (head : pos) :
  onCycle ai head →
  jsIndex (hamiltonianCycle ai)
          (jsRem (optAdd (getCycleIndex ai head) 1) (cycleLen ai)) =
  cycleAhead ai head 1.
Proof.
  intros (hIdx & E & Hr). unfold cycleAhead. rewrite E.
  unfold optAdd, jsRem, jsIndex. cbn [fmap option_fmap option_map mbind option_bind].
  destruct (cycleLen ai =? 0) eqn:E0; [apply Z.eqb_eq in E0; lia|].
  rewrite Z.rem_mod_nonneg by lia. cbn [mbind option_bind].
  pose proof (Z.mod_pos_bound (hIdx + 1) (cycleLen ai)).
  destruct ((hIdx + 1) mod cycleLen ai <? 0) eqn:En; [apply Z.ltb_lt in En; lia|].
  done.
Qed.

Lemma mkObstaclesSet_None (obstacles : list pos) (p : pos) :
  p ∈ mkObstaclesSet obstacles None ↔ p ∈ obstacles.
Proof. unfold mkObstaclesSet. apply elem_of_list_to_set. Qed.

(** ** Moves and neighbours *)

(** The move that follows the cycle, and the move to the neighbour [n]. *)
Definition cycleMove (head nextPos : pos) : Move :=
  {| mv_x := px nextPos - px head; mv_y := py nextPos - py head;
     mv_type := "cycle"; mv_reason := None; mv_score := None |}.

Definition shortcutMove (head n : pos) : Move :=
  {| mv_x := px n - px head; mv_y := py n - py head;
     mv_type := "shortcut"; mv_reason := Some "Safe Shortcut"; mv_score := None |}.

(** The neighbours of [head] in the order up, down, left, right, those off
    the grid left out. *)
Definition neighboursUDLR (ai : SnakeAI) (head : pos) : list pos :=
  filter (fun n => inGrid (cols ai) (rows ai) n)
    [(px head, py head - 1); (px head, py head + 1);
     (px head - 1, py head); (px head + 1, py head)].

Lemma inGridb_spec (w h x y : Z) :
  (0 <=? x) && (x <? w) && (0 <=? y) && (y <? h) = true ↔ inGrid w h (x, y).
Proof.
  unfold inGrid. cbn [px py fst snd].
  rewrite !andb_true_iff, !Z.leb_le, !Z.ltb_lt. tauto.
Qed.

Lemma getNeighbors_UDLR (ai : SnakeAI) (head : pos) :
  getNeighbors ai head = neighboursUDLR ai head.
Proof.
  destruct head as [x y].
  unfold getNeighbors, neighboursUDLR, dirs. cbn [omap list_omap px py fst snd].
  replace (x + 0) with x by lia. replace (y + 0) with y by lia.
  replace (y + -1) with (y - 1) by lia. replace (x + -1) with (x - 1) by lia.
  rewrite !filter_cons, filter_nil.
  repeat match goal with
  | |- context [if ?b then Some ?p else None] =>
    let E := fresh "E" in
    destruct b eqn:E;
    [ apply inGridb_spec in E
    | apply not_true_iff_false in E; rewrite inGridb_spec in E ]
  end;
  repeat destruct (decide _); first [done | contradiction].
Qed.

Lemma firstShortcut_find (ok : pos → bool) (l : list pos) :
  firstShortcut ok l = find ok l.
Proof. induction l as [|n l IH]; [done|]. cbn. by rewrite IH. Qed.

(** ** The loops of the survival fallback *)






(** The score that [survive] gives to the neighbour [n]. *)
Definition surviveScore (ai : SnakeAI) (snake : list pos) (obstaclesSet : gset pos)
    (n : pos) : Z :=
  floodFill ai n (obstaclesSet ∪ list_to_set snake) - getDangerScore ai n obstaclesSet * 2.

(** What the loop of [survive] holds after the neighbours [pre]. *)
Definition Fittest (ai : SnakeAI) (snake : list pos) (obstaclesSet : gset pos)
    (pre : list pos) (best : option pos * option Z) : Prop :=
  match best.1 with
  | None => best.2 = None ∧ ∀ n, n ∈ pre → n ∈ snake ∨ n ∈ obstaclesSet
  | Some b =>
    best.2 = Some (surviveScore ai snake obstaclesSet b) ∧
    b ∈ pre ∧ (b ∉ snake) ∧ (b ∉ obstaclesSet) ∧
    ∀ n, n ∈ pre → n ∉ snake → n ∉ obstaclesSet →
         surviveScore ai snake obstaclesSet n ≤ surviveScore ai snake obstaclesSet b
  end.

Lemma surviveStep_Fittest (ai : SnakeAI) (snake : list pos) (obstaclesSet : gset pos)
    (pre : list pos) (best : option pos * option Z) (n : pos) :
  Fittest ai snake obstaclesSet pre best →
  Fittest ai snake obstaclesSet (pre ++ [n])
    (surviveStep ai (list_to_set snake) obstaclesSet
                 (obstaclesSet ∪ list_to_set snake) best n).
Proof.
  intros HF. unfold surviveStep.
  assert (Hsnoc : ∀ m, m ∈ pre ++ [n] ↔ m ∈ pre ∨ m = n).
  { intros m. by rewrite elem_of_app, list_elem_of_singleton. }
  destruct (decide (n ∈ snake)) as [Hs|Hs].
  { rewrite (bool_decide_eq_false_2 (n ∉ list_to_set snake))
      by (rewrite elem_of_list_to_set; tauto).
    cbn [andb]. unfold Fittest in *. destruct (best.1) as [b|].
    - destruct HF as (E & Hb & Hbs & Hbo & Hmax). split_and!; try done.
      + apply Hsnoc. by left.
      + intros m Hm Hms Hmo. apply Hsnoc in Hm as [Hm| ->]; [by apply Hmax|done].
    - destruct HF as [E Hall]. split; [done|].
      intros m Hm. apply Hsnoc in Hm as [Hm| ->]; [by apply Hall|by left]. }
  rewrite (bool_decide_eq_true_2 (n ∉ list_to_set snake))
    by (by rewrite elem_of_list_to_set).
  cbn [andb].
  destruct (decide (n ∈ obstaclesSet)) as [Ho|Ho].
  { rewrite (bool_decide_eq_false_2 (n ∉ obstaclesSet)) by tauto.
    unfold Fittest in *. destruct (best.1) as [b|].
    - destruct HF as (E & Hb & Hbs & Hbo & Hmax). split_and!; try done.
      + apply Hsnoc. by left.
      + intros m Hm Hms Hmo. apply Hsnoc in Hm as [Hm| ->]; [by apply Hmax|done].
    - destruct HF as [E Hall]. split; [done|].
      intros m Hm. apply Hsnoc in Hm as [Hm| ->]; [by apply Hall|by right]. }
  rewrite (bool_decide_eq_true_2 (n ∉ obstaclesSet)) by done.
  fold (surviveScore ai snake obstaclesSet n).
  unfold Fittest in HF. destruct best as [[b|] bs]; cbn [fst snd] in *.
  - destruct HF as (-> & Hb & Hbs & Hbo & Hmax). cbn [beats].
    destruct (surviveScore ai snake obstaclesSet b <? surviveScore ai snake obstaclesSet n)
      eqn:Elt.
    + apply Z.ltb_lt in Elt. unfold Fittest. cbn [fst snd]. split_and!; try done.
      * apply Hsnoc. by right.
      * intros m Hm Hms Hmo. apply Hsnoc in Hm as [Hm| ->]; [|lia].
        specialize (Hmax m Hm Hms Hmo). lia.
    + apply Z.ltb_ge in Elt. unfold Fittest. cbn [fst snd]. split_and!; try done.
      * apply Hsnoc. by left.
      * intros m Hm Hms Hmo. apply Hsnoc in Hm as [Hm| ->]; [by apply Hmax|done].
  - destruct HF as [-> Hall]. cbn [beats]. unfold Fittest. cbn [fst snd].
    split_and!; try done.
    + apply Hsnoc. by right.
    + intros m Hm Hms Hmo. apply Hsnoc in Hm as [Hm| ->]; [|lia].
      destruct (Hall m Hm); done.
Qed.

Lemma surviveLoop_Fittest (ai : SnakeAI) (snake : list pos) (obstaclesSet : gset pos)
    (ns : list pos) : ∀ (pre : list pos) (best : option pos * option Z),
  Fittest ai snake obstaclesSet pre best →
  Fittest ai snake obstaclesSet (pre ++ ns)
    (foldl (surviveStep ai (list_to_set snake) obstaclesSet
                        (obstaclesSet ∪ list_to_set snake)) best ns).
Proof.
  induction ns as [|n ns IH]; intros pre best HF.
  - by rewrite app_nil_r.
  - cbn [foldl].
    replace (pre ++ n :: ns) with ((pre ++ [n]) ++ ns) by (by rewrite <- app_assoc).
    apply IH. by apply surviveStep_Fittest.
Qed.

(** [survive] returns [null] when every neighbour of the head is on the
    snake or an obstacle, and otherwise the move to a free neighbour of the
    highest score, with that score. *)
Lemma survive_spec (ai : SnakeAI) (h : pos) (snake : list pos)
    (obstaclesSet : gset pos) (reason : string) :
  match survive ai h snake obstaclesSet reason with
  | None => ∀ n, n ∈ getNeighbors ai h → n ∈ snake ∨ n ∈ obstaclesSet
  | Some m =>
    ∃ b, b ∈ getNeighbors ai h ∧ (b ∉ snake) ∧ (b ∉ obstaclesSet) ∧
      m = {| mv_x := px b - px h; mv_y := py b - py h; mv_type := "survival";
             mv_reason := Some reason;
             mv_score := Some (surviveScore ai snake obstaclesSet b) |} ∧
      ∀ n, n ∈ getNeighbors ai h → n ∉ snake → n ∉ obstaclesSet →
           surviveScore ai snake obstaclesSet n ≤ surviveScore ai snake obstaclesSet b
  end.
Proof.
  unfold survive. cbv zeta.
  pose proof (surviveLoop_Fittest ai snake obstaclesSet (getNeighbors ai h) [] (None, None))
    as HF.
  cbn [app] in HF.
  set (best := foldl _ _ _) in *.
  unfold Fittest in HF.
  destruct (best.1) as [b|].
  - destruct HF as (E & Hb & Hbs & Hbo & Hmax).
    + split; [done|]. intros n Hn. by apply elem_of_nil in Hn.
    + exists b. rewrite E. done.
  - apply HF. split; [done|]. intros n Hn. by apply elem_of_nil in Hn.
Qed.

(** ** Calls that return *)

Lemma fillCycleMap_other (cycle : list pos) : ∀ (m : gmap pos Z) (index : Z) (p : pos),
  p ∉ cycle → fillCycleMap m index cycle !! p = m !! p.
Proof.
  induction cycle as [|q cycle IH]; intros m index p Hp; [done|].
  cbn [fillCycleMap]. apply not_elem_of_cons in Hp as [Hne Hp].
  rewrite IH by done. by rewrite lookup_insert_ne.
Qed.

Lemma fillCycleMap_lookup (cycle : list pos) : ∀ (m : gmap pos Z) (index : Z) (p : pos),
  p ∈ cycle →
  ∃ i, fillCycleMap m index cycle !! p = Some i ∧
       index ≤ i < index + Z.of_nat (length cycle).
Proof.
  induction cycle as [|q cycle IH]; intros m index p Hp.
  - by apply elem_of_nil in Hp.
  - cbn [fillCycleMap length]. destruct (decide (p ∈ cycle)) as [Hin|Hnin].
    + destruct (IH (<[q := index]> m) (index + 1) p Hin) as (i & E & Hi).
      exists i. split; [done|lia].
    + apply elem_of_cons in Hp as [->|Hp]; [|done].
      exists index. rewrite fillCycleMap_other by done.
      rewrite lookup_insert_eq. split; [done|lia].
Qed.

(** After [init] on a grid with positive even dimensions every cell of the
    grid has a cycle index. *)
Lemma init_onCycle (ai : SnakeAI) :
  0 < cols ai → 0 < rows ai → Z.even (cols ai) = true → Z.even (rows ai) = true →
  ∃ ai', init ai = Some ai' ∧ isInitialized ai' = true ∧
    ∀ p, inGrid (cols ai) (rows ai) p → onCycle ai' p.
Proof.
  intros Hc Hr Ec Er. unfold init.
  pose proof Ec as Ec'. pose proof Er as Er'.
  apply Z.even_spec in Ec' as [w Hw]. apply Z.even_spec in Er' as [h Hh].
  assert (E1 : (Z.rem (cols ai) 2 =? 0) = true).
  { apply Z.eqb_eq. rewrite Z.rem_mod_nonneg by lia. rewrite Hw.
    rewrite Z.mul_comm. apply Z.mod_mul. lia. }
  assert (E2 : (Z.rem (rows ai) 2 =? 0) = true).
  { apply Z.eqb_eq. rewrite Z.rem_mod_nonneg by lia. rewrite Hh.
    rewrite Z.mul_comm. apply Z.mod_mul. lia. }
  rewrite E1, E2. cbn [negb orb].
  destruct (generateHamiltonianCycle_spec w h (seed ai))
    as (seed' & cycle & E & Hhd & Hp & Hadj); [lia|lia|].
  rewrite <- Hw, <- Hh in E, Hp. rewrite E. cbn [mbind option_bind].
  eexists. split; [reflexivity|]. split; [reflexivity|].
  intros p Hin. unfold onCycle, getCycleIndex, cycleLen. cbn [cycleMap hamiltonianCycle].
  assert (Hpc : p ∈ cycle) by (rewrite Hp; by apply elem_of_coarseCells).
  destruct (fillCycleMap_lookup cycle ∅ 0 p Hpc) as (i & Ei & Hi).
  exists i. split; [exact Ei|lia].
Qed.

(** On an initialised controller, a call with a non-empty body whose head has
    a cycle index returns. *)
Lemma getNextMove_total (ai : SnakeAI) (snake foods : list pos) (poison : option pos)
    (obstacles : list pos) (id : Z) (targets : option targets_t) (h : pos) :
  isInitialized ai = true → head snake = Some h → onCycle ai h →
  ∃ d, getNextMove ai snake foods poison obstacles id targets = Some d ∧ dec_ai d = ai.
Proof.
  intros Hinit Hh Hon. unfold getNextMove, ensureInit. rewrite Hinit.
  cbn [mbind option_bind]. rewrite Hh. cbn [mbind option_bind].
  destruct (cycleAhead_Some ai h 1 Hon) as [nextPos Hnext].
  rewrite (nextOnCycle_ahead ai h Hon), Hnext. cbn [mbind option_bind].
  destruct (bool_decide _); [by eexists|].
  destruct (isSafePath_spec ai h 5 obstacles Hon) as (safe & -> & _).
  cbn [mbind option_bind].
  destruct safe; cbn [negb]; [|by eexists].
  destruct (findNearestFood ai h foods id targets) as [[food|] tt]; [|by eexists].
  unfold findShortcut.
  assert (Hl : is_Some (last snake)).
  { destruct snake as [|x t]; [done|]. rewrite last_cons.
    destruct (last t); by eexists. }
  destruct Hl as [tail ->]. cbn [mbind option_bind].
  destruct (firstShortcut _ _); by eexists.
Qed.

(** ** The tick loop *)

(** A sample of the values that the host's [Math.random()] may return, used
    in the concrete runs. *)
Definition sampleRandom : oracle_t :=
  fun n => snd (Rng.random (Z.of_nat n * 7919 + 1)).

(** What [maintainFoodCount] leaves alone: everything but the foods and the
    count of the calls of [Math.random()]. *)
Definition sameButFoods (W W' : world) : Prop :=
  snakes W' = snakes W ∧ aiController W' = aiController W ∧
  snakeTargets W' = snakeTargets W ∧ decisionLog W' = decisionLog W ∧
  TILE_COLS W' = TILE_COLS W ∧ TILE_ROWS W' = TILE_ROWS W.

Lemma spawnAttempts_frame (n : nat) (oracle : oracle_t) : ∀ W,
  sameButFoods W (spawnAttempts n oracle W).
Proof.
  induction n as [|n IH]; intros W; [done|].
  cbn [spawnAttempts]. unfold mathRandom. cbv zeta.
  repeat case_match; try done;
    match goal with
    | |- sameButFoods _ (spawnAttempts _ _ ?W2) => exact (IH W2)
    end.
Qed.

Lemma maintainFoodCount_frame (fuel : nat) (oracle : oracle_t) : ∀ W W',
  maintainFoodCount fuel oracle W = Done W' → sameButFoods W W'.
Proof.
  induction fuel as [|fuel IH]; intros W W'; cbn [maintainFoodCount].
  - case_match; [done|]. by intros [= <-].
  - case_match; [|by intros [= <-]].
    intros Hm. apply IH in Hm.
    pose proof (spawnAttempts_frame 50 oracle W) as Hs.
    unfold sameButFoods, spawnSingleFood in *.
    destruct Hm as (-> & -> & -> & -> & -> & ->). exact Hs.
Qed.

(** The pieces of a call that returned. *)
Lemma obind_Done {A B} (m : outcome A) (k : A → outcome B) (b : B) :
  obind m k = Done b → ∃ a, m = Done a ∧ k a = Done b.
Proof. destruct m as [a| |]; [|done..]. intros H. by exists a. Qed.

Lemma orThrow_Done {A} (o : option A) (a : A) : orThrow o = Done a → o = Some a.
Proof. destruct o; [|done]. by intros [= ->]. Qed.

(** What [decidePhase] does to the world: it records the decision, and it
    changes the direction of snake [i] and nothing else of the snakes. *)
Lemma decidePhase_spec (i : nat) (W W1 : world) (s : snakeT) (h : pos) :
  decidePhase i W = Done (W1, s, h) →
  ∃ s0 h0, snakes W !! i = Some s0 ∧ head (body s0) = Some h0 ∧
    body s = body s0 ∧ sid s = sid s0 ∧ colorIndex s = colorIndex s0 ∧
    h = (px h0 + sdx s, py h0 + sdy s) ∧
    snakes W1 = <[i := s]> (snakes W) ∧
    decisionLog W1 = decisionLog W ++ [(sid s0, otherParts (snakes W) i)] ∧
    foods W1 = foods W ∧ TILE_COLS W1 = TILE_COLS W ∧ TILE_ROWS W1 = TILE_ROWS W.
Proof.
  unfold decidePhase. intros H.
  apply obind_Done in H as (s0 & Hs0 & H). apply orThrow_Done in Hs0.
  apply obind_Done in H as (dec & Hdec & H). cbv zeta in H.
  apply obind_Done in H as (h0 & Hh0 & H). apply orThrow_Done in Hh0.
  injection H as <- <- <-.
  exists s0, h0. cbn in *. split_and!; done.
Qed.

Lemma removelast_elem {A} (l : list A) (p : A) : p ∈ removelast l → p ∈ l.
Proof.
  induction l as [|x l IH]; [done|]. cbn [removelast].
  destruct l as [|y l]; [intros H; by apply elem_of_nil in H|].
  intros H. apply elem_of_cons in H as [->|H]; [apply list_elem_of_here|].
  apply list_elem_of_further. by apply IH.
Qed.

(** What [advance] does to the snakes: snake [i] gets the new head, and
    loses its last cell unless it eats. *)
Lemma advance_spec (fuel : nat) (oracle : oracle_t) (i : nat) (W W' : world)
    (s : snakeT) (h : pos) :
  advance fuel oracle i W s h = Done W' →
  ∃ sf, snakes W' = <[i := sf]> (<[i := set_body s (h :: body s)]> (snakes W)) ∧
    sid sf = sid s ∧ (∀ p, p ∈ body sf → p = h ∨ p ∈ body s) ∧
    decisionLog W' = decisionLog W.
Proof.
  unfold advance. cbv zeta. destruct (findIndex _ _) as [foodIndex|].
  - unfold eatFood. cbv zeta. intros H. apply maintainFoodCount_frame in H.
    destruct H as (Hs & _ & _ & Hl & _). cbn in Hs, Hl.
    exists (set_body s (h :: body s)). rewrite Hs, Hl. split_and!; try done.
    + by rewrite list_insert_insert_eq.
    + cbn. intros p Hp. apply elem_of_cons in Hp. tauto.
  - intros [= <-]. cbn [snakes set_snakes decisionLog].
    eexists. split; [reflexivity|]. cbn [sid body set_body]. split_and!; try done.
    intros p Hp. apply (removelast_elem (h :: body s)) in Hp.
    apply elem_of_cons in Hp. tauto.
Qed.

Lemma respawn_spec (oracle : oracle_t) (i : nat) (W W' : world) (s : snakeT) :
  respawn oracle i W s = Done W' →
  ∃ sf, snakes W' = <[i := sf]> (snakes W) ∧ sid sf = sid s ∧
        decisionLog W' = decisionLog W.
Proof.
  unfold respawn, mathRandom. cbv zeta. intros H.
  apply obind_Done in H as ([st ai] & _ & H). injection H as <-.
  eexists. cbn. split_and!; done.
Qed.

(** An iteration of the loop records one decision and replaces snake [i]. *)
Lemma stepSnake_spec (fuel : nat) (oracle : oracle_t) (i : nat) (W W' : world) :
  stepSnake fuel oracle i W = Done W' →
  ∃ s0 sf, snakes W !! i = Some s0 ∧ snakes W' = <[i := sf]> (snakes W) ∧
    sid sf = sid s0 ∧
    decisionLog W' = decisionLog W ++ [(sid s0, otherParts (snakes W) i)].
Proof.
  unfold stepSnake. intros H.
  apply obind_Done in H as ([[W1 s] h] & Hd & H).
  apply decidePhase_spec in Hd
    as (s0 & h0 & Hs0 & _ & Hb & Hid & _ & _ & Hss & Hlog & _).
  exists s0. destruct (collides W1 s h).
  - apply respawn_spec in H as (sf & Hsf & Hidf & Hl).
    exists sf. rewrite Hsf, Hss, Hl, Hlog, Hidf, Hid.
    by rewrite list_insert_insert_eq.
  - apply advance_spec in H as (sf & Hsf & Hidf & _ & Hl).
    exists sf. rewrite Hsf, Hss, Hl, Hlog, Hidf, Hid.
    by rewrite !list_insert_insert_eq.
Qed.

(** ** Obstacles within a tick *)

(** The obstacle list that snapshot semantics would give to agent [i]: the
    bodies of the other agents as they are in the world [W0] at the start of
    the tick. *)
Definition snapshotObstacles (W0 : world) (i : nat) : list pos :=
  concat (imap (fun idx other => if decide (i = idx) then [] else body other)
               (snakes W0)).

(** A world with two agents on the 6 by 6 grid of [demoAI]. *)
Definition demoWorld : world :=
  {| TILE_COLS := 6; TILE_ROWS := 6;
     snakes := [ {| body := [(2,3); (2,2); (3,2)]; sdx := 0; sdy := 1;
                    nextDx := 0; nextDy := 1; colorIndex := 0; sid := 0 |};
                 {| body := [(5,3); (5,4); (5,5)]; sdx := 0; sdy := -1;
                    nextDx := 0; nextDy := -1; colorIndex := 1; sid := 1 |} ];
     foods := [(4,5); (0,0); (1,1); (4,0); (0,5)];
     aiController := demoAI; snakeTargets := ∅;
     mathRandomCalls := 0; decisionLog := [] |}.

(** C5, as amended: the obstacles given to an agent are the bodies of the
    other agents as they are when its iteration starts. In a tick of two
    agents the first is given the body that the second has at the start of
    the tick, which is the snapshot, and the second is given the body that
    the first has after its own iteration, not the one it had at the start
    of the tick. *)
Theorem obstacles_are_live (fuel : nat) (oracle : oracle_t) (W W' : world)
    (a b : snakeT) :
  snakes W = [a; b] → gameLoop fuel oracle W = Done W' →
  ∃ W1 a', stepSnake fuel oracle 0 W = Done W1 ∧
    stepSnake fuel oracle 1 W1 = Done W' ∧
    snakes W1 = [a'; b] ∧
    decisionLog W' = decisionLog W ++ [(sid a, body b); (sid b, body a')] ∧
    snapshotObstacles W 0 = body b ∧ snapshotObstacles W 1 = body a.
Proof.
  intros Hs H. unfold gameLoop in H. rewrite Hs in H. cbn [length gameLoopFrom] in H.
  apply obind_Done in H as (W1 & H0 & H).
  apply obind_Done in H as (W2 & H1 & H). injection H as ->.
  exists W1.
  destruct (stepSnake_spec _ _ _ _ _ H0) as (s0 & a' & Hl0 & Hs1 & Hid0 & Hlog0).
  destruct (stepSnake_spec _ _ _ _ _ H1) as (s1 & b' & Hl1 & Hs2 & Hid1 & Hlog1).
  rewrite Hs in Hl0, Hs1, Hlog0. cbn in Hl0, Hs1. injection Hl0 as <-.
  rewrite Hs1 in Hl1, Hlog1. cbn in Hl1. injection Hl1 as <-.
  exists a'. split; [done|]. split; [done|]. split; [done|].
  split.
  - rewrite Hlog1, Hlog0, <- app_assoc. cbn. by rewrite !app_nil_r.
  - unfold snapshotObstacles. rewrite Hs. cbn. by rewrite !app_nil_r.
Qed.

Lemma obstacles_are_live_witness :
  ∃ W' a b, snakes demoWorld = [a; b] ∧ gameLoop 5 sampleRandom demoWorld = Done W' ∧
    ∃ W1 a', stepSnake 5 sampleRandom 0 demoWorld = Done W1 ∧
      stepSnake 5 sampleRandom 1 W1 = Done W' ∧
      snakes W1 = [a'; b] ∧
      decisionLog W' = decisionLog demoWorld ++ [(sid a, body b); (sid b, body a')] ∧
      snapshotObstacles demoWorld 0 = body b ∧ snapshotObstacles demoWorld 1 = body a.
Proof.
  assert (H : ∃ W', gameLoop 5 sampleRandom demoWorld = Done W').
  { vm_compute. eexists. reflexivity. }
  destruct H as [W' H].
  exists W'. eexists. eexists. split; [reflexivity|]. split; [exact H|].
  exact (obstacles_are_live 5 sampleRandom demoWorld W' _ _ eq_refl H).
Defined.

(** C5 as stated fails: in the first tick, the one that ends [resizeCanvas],
    for a window of 160 by 160 pixels and a clock reading 3, the agent 1 is
    given the body of the agent 0 after its move, and not the body in the
    snapshot. [W0] is the world when the tick starts and [W1] the world
    that [resizeCanvas] returns. *)
Lemma second_agent_sees_moved_first :
  obind (initGameBeforeTick 20 sampleRandom (resizedWorld 160 160 3 emptyWorld))
    (fun W0 =>
    obind (resizeCanvas 20 sampleRandom 160 160 3 emptyWorld) (fun W1 =>
      Done (snapshotObstacles W0 0, snapshotObstacles W0 1, decisionLog W1))) =
  Done ([(0,3); (0,2); (1,2)], [(1,1); (0,1); (0,0)],
        [(0, [(0,3); (0,2); (1,2)]); (1, [(2,1); (1,1); (0,1)])]).
Proof. vm_compute. reflexivity. Qed.

(** ** Bodies that share no cell *)

(** No two distinct agents have a body cell in common. *)
Definition bodiesDisjoint (ss : list snakeT) : Prop :=
  ∀ (i j : nat) (si sj : snakeT) (p : pos),
    i ≠ j → ss !! i = Some si → ss !! j = Some sj → p ∈ body si → p ∉ body sj.

(** Distinct agents have distinct ids. *)
Definition distinctIds (ss : list snakeT) : Prop :=
  ∀ (i j : nat) (si sj : snakeT),
    i ≠ j → ss !! i = Some si → ss !! j = Some sj → sid si ≠ sid sj.

(** Without a collision the new head is on no body of an agent with another
    id. *)
Lemma collides_false_other (W : world) (s : snakeT) (h : pos) (other : snakeT) :
  collides W s h = false → other ∈ snakes W → sid other ≠ sid s → h ∉ body other.
Proof.
  unfold collides. cbv zeta. intros Hc Hin Hid Hh.
  destruct (_ || _ || _ || _); [done|]. cbn [negb] in Hc.
  destruct (hasPos (body s) h); [done|]. cbn [negb] in Hc.
  assert (Ht : existsb (fun other => negb (sid other =? sid s) && hasPos (body other) h)
                       (snakes W) = true); [|by rewrite Ht in Hc].
  apply existsb_exists. exists other. split; [by apply list_elem_of_In|].
  apply andb_true_iff. split.
  - apply negb_true_iff, Z.eqb_neq. done.
  - by apply hasPos_elem.
Qed.

(** C8, as amended: in a world in which the agents have distinct ids and
    their bodies share no cell, an iteration of the tick loop in which the
    moving agent does not collide leaves the ids distinct and the bodies
    without a shared cell. *)
Theorem no_overlap_without_collision (fuel : nat) (oracle : oracle_t) (i : nat)
    (W W1 W' : world) (s : snakeT) (h : pos) :
  distinctIds (snakes W) → bodiesDisjoint (snakes W) →
  decidePhase i W = Done (W1, s, h) → collides W1 s h = false →
  stepSnake fuel oracle i W = Done W' →
  distinctIds (snakes W') ∧ bodiesDisjoint (snakes W').
Proof.
  intros Hids Hdis Hd Hc Hstep.
  unfold stepSnake in Hstep. rewrite Hd in Hstep. cbn [obind] in Hstep.
  rewrite Hc in Hstep.
  apply decidePhase_spec in Hd
    as (s0 & h0 & Hs0 & _ & Hb & Hid & _ & _ & Hss & _).
  apply advance_spec in Hstep as (sf & Hsf & Hidf & Hbf & _).
  rewrite Hss, !list_insert_insert_eq in Hsf.
  pose proof (lookup_lt_Some _ _ _ Hs0) as Hlt.
  assert (Hi : snakes W' !! i = Some sf).
  { rewrite Hsf. by apply list_lookup_insert_eq. }
  assert (Hj : ∀ j, j ≠ i → snakes W' !! j = snakes W !! j).
  { intros j Hne. rewrite Hsf. by apply list_lookup_insert_ne. }
  assert (Hfree : ∀ j sj, j ≠ i → snakes W !! j = Some sj → h ∉ body sj).
  { intros j sj Hne Hsj. apply (collides_false_other W1 s h sj Hc).
    - rewrite Hss. apply (list_elem_of_lookup_2 _ j).
      rewrite list_lookup_insert_ne by done. exact Hsj.
    - rewrite Hid. exact (Hids j i sj s0 Hne Hsj Hs0). }
  split.
  - intros a b sa sb Hab Ha Hb'.
    destruct (decide (a = i)) as [->|Hai]; destruct (decide (b = i)) as [->|Hbi].
    + done.
    + rewrite Hi in Ha. injection Ha as <-. rewrite Hj in Hb' by done.
      rewrite Hidf, Hid. exact (Hids i b s0 sb Hab Hs0 Hb').
    + rewrite Hi in Hb'. injection Hb' as <-. rewrite Hj in Ha by done.
      rewrite Hidf, Hid. exact (Hids a i sa s0 Hab Ha Hs0).
    + rewrite Hj in Ha, Hb' by done. exact (Hids a b sa sb Hab Ha Hb').
  - intros a b sa sb p Hab Ha Hb' Hp.
    destruct (decide (a = i)) as [->|Hai]; destruct (decide (b = i)) as [->|Hbi].
    + done.
    + rewrite Hi in Ha. injection Ha as <-. rewrite Hj in Hb' by done.
      destruct (Hbf p Hp) as [->|Hp0].
      * exact (Hfree b sb Hbi Hb').
      * rewrite Hb in Hp0. exact (Hdis i b s0 sb p Hab Hs0 Hb' Hp0).
    + rewrite Hi in Hb'. injection Hb' as <-. rewrite Hj in Ha by done.
      intros Hpf. destruct (Hbf p Hpf) as [->|Hp0].
      * exact (Hfree a sa Hai Ha Hp).
      * rewrite Hb in Hp0. exact (Hdis a i sa s0 p Hab Ha Hs0 Hp Hp0).
    + rewrite Hj in Ha, Hb' by done. exact (Hdis a b sa sb p Hab Ha Hb' Hp).
Qed.

Lemma demoWorld_distinct : distinctIds (snakes demoWorld).
Proof.
  intros i j si sj Hij Hi Hj.
  destruct i as [|[|i]]; destruct j as [|[|j]]; cbn in Hi, Hj; try done;
    injection Hi as <-; injection Hj as <-; cbn; lia.
Qed.

Lemma demoWorld_disjoint : bodiesDisjoint (snakes demoWorld).
Proof.
  intros i j si sj p Hij Hi Hj Hp Hq.
  destruct i as [|[|i]]; destruct j as [|[|j]]; cbn in Hi, Hj; try done;
    injection Hi as <-; injection Hj as <-; cbn in Hp, Hq;
    repeat (apply elem_of_cons in Hp as [->|Hp]);
    try (by apply elem_of_nil in Hp);
    repeat (apply elem_of_cons in Hq as [Hq|Hq]; [by inversion Hq|]);
    by apply elem_of_nil in Hq.
Qed.

Lemma no_overlap_without_collision_witness :
  ∃ W1 s h W',
    distinctIds (snakes demoWorld) ∧ bodiesDisjoint (snakes demoWorld) ∧
    decidePhase 0 demoWorld = Done (W1, s, h) ∧ collides W1 s h = false ∧
    stepSnake 5 sampleRandom 0 demoWorld = Done W' ∧
    distinctIds (snakes W') ∧ bodiesDisjoint (snakes W').
Proof.
  assert (Hd : ∃ W1 s h, decidePhase 0 demoWorld = Done (W1, s, h)).
  { vm_compute. do 3 eexists. reflexivity. }
  destruct Hd as (W1 & s & h & Hd).
  assert (Hc : collides W1 s h = false).
  { assert (E : obind (decidePhase 0 demoWorld)
                      (fun r => Done (collides r.1.1 r.1.2 r.2)) = Done false)
      by (vm_compute; reflexivity).
    rewrite Hd in E. cbn in E. by injection E. }
  assert (Hs : ∃ W', stepSnake 5 sampleRandom 0 demoWorld = Done W').
  { vm_compute. eexists. reflexivity. }
  destruct Hs as (W' & Hs).
  exists W1, s, h, W'.
  split; [exact demoWorld_distinct|]. split; [exact demoWorld_disjoint|].
  split; [exact Hd|]. split; [exact Hc|]. split; [exact Hs|].
  exact (no_overlap_without_collision 5 sampleRandom 0 demoWorld W1 W' s h
           demoWorld_distinct demoWorld_disjoint Hd Hc Hs).
Defined.

(** C8 as stated fails: in [resizeCanvas] for a window of 160 by 160
    pixels and a clock reading 2 the two bodies placed by [initGame] share
    the cells [(3,0)] and [(3,1)]; in the first tick, which ends
    [initGame], the agent 1 collides, and the body it is given on respawn
    shares [(2,0)] and [(3,0)] with the agent 0. [W0] is the world when the
    tick starts and [W1] the world that [resizeCanvas] returns. *)
Lemma respawn_overlaps_other :
  obind (initGameBeforeTick 20 sampleRandom (resizedWorld 160 160 2 emptyWorld))
    (fun W0 =>
    obind (resizeCanvas 20 sampleRandom 160 160 2 emptyWorld) (fun W1 =>
      Done (body <$> snakes W0, body <$> snakes W1))) =
  Done ([[(2,0); (3,0); (3,1)]; [(3,0); (3,1); (3,2)]],
        [[(2,1); (2,0); (3,0)]; [(2,0); (3,0); (3,1)]]).
Proof. vm_compute. reflexivity. Qed.

(** ** What is drawn from the seeded stream *)






(** ** Food replenishment *)

(** What the loop of [maintainFoodCount] keeps when every cell of the grid
    that is on no snake is in [R]: the foods are distinct cells of [R]. *)
Record Crowded (R : list pos) (W : world) : Prop := MkCrowded {
  cr_cols : 0 < TILE_COLS W;
  cr_rows : 0 < TILE_ROWS W;
  cr_nodup : NoDup (foods W);
  cr_foods : ∀ f, f ∈ foods W → f ∈ R;
  cr_free : ∀ p, inGrid (TILE_COLS W) (TILE_ROWS W) p →
                 (∀ s, s ∈ snakes W → p ∉ body s) → p ∈ R
}.

Lemma spawnAttempts_Crowded (R : list pos) (oracle : oracle_t) (n : nat) :
  (∀ k, 0 ≤ oracle k < Rng.two32) →
  ∀ W, Crowded R W → Crowded R (spawnAttempts n oracle W).
Proof.
  intros Ho. induction n as [|n IH]; intros W HW; [done|].
  cbn [spawnAttempts]. unfold mathRandom. cbv zeta.
  set (W2 := {| TILE_COLS := TILE_COLS W; TILE_ROWS := TILE_ROWS W;
                snakes := snakes W; foods := foods W;
                aiController := aiController W; snakeTargets := snakeTargets W;
                mathRandomCalls := S (S (mathRandomCalls W));
                decisionLog := decisionLog W |}).
  assert (HW2 : Crowded R W2) by (destruct HW; by constructor).
  change (Crowded R
    (let newFood : pos :=
       (Rng.scale (oracle (mathRandomCalls W)) (TILE_COLS W),
        Rng.scale (oracle (S (mathRandomCalls W))) (TILE_ROWS W)) in
     let isValid := negb (existsb (fun s => hasPos (body s) newFood) (snakes W)) in
     let isValid := if isValid && hasPos (foods W) newFood then false else isValid in
     if isValid then set_foods W2 (foods W ++ [newFood])
     else spawnAttempts n oracle W2)).
  cbv zeta.
  set (newFood := (Rng.scale _ _, Rng.scale _ _)).
  destruct (negb (existsb _ (snakes W))) eqn:Es; cbn [andb]; [|by apply IH].
  destruct (hasPos (foods W) newFood) eqn:Ef; [by apply IH|].
  assert (Hnf : newFood ∉ foods W).
  { intros Hin. apply hasPos_elem in Hin. by rewrite Hin in Ef. }
  assert (Hfree : ∀ s, s ∈ snakes W → newFood ∉ body s).
  { intros s Hs Hin. apply negb_true_iff in Es.
    assert (Ht : existsb (fun s => hasPos (body s) newFood) (snakes W) = true);
      [|by rewrite Ht in Es].
    apply existsb_exists. exists s. split; [by apply list_elem_of_In|].
    by apply hasPos_elem. }
  assert (Hin : inGrid (TILE_COLS W) (TILE_ROWS W) newFood).
  { destruct HW. split; apply scale_range; done. }
  destruct HW as [Hc Hr Hnd Hfs Hfr]. constructor; cbn; try done.
  - apply NoDup_app. split; [done|]. split; [|apply NoDup_singleton].
    intros x Hx Hx'. apply list_elem_of_singleton in Hx' as ->. done.
  - intros f Hf. apply elem_of_app in Hf as [Hf|Hf]; [by apply Hfs|].
    apply list_elem_of_singleton in Hf as ->. by apply Hfr.
Qed.

(** In a crowded world with fewer than 5 cells in [R] the loop of
    [maintainFoodCount] goes on for as long as it is allowed to. *)
Lemma maintainFoodCount_Crowded (R : list pos) (oracle : oracle_t) (fuel : nat) :
  (∀ k, 0 ≤ oracle k < Rng.two32) → (length R < 5)%nat →
  ∀ W, Crowded R W → maintainFoodCount fuel oracle W = OutOfFuel.
Proof.
  intros Ho HR.
  induction fuel as [|fuel IH]; intros W HW; cbn [maintainFoodCount].
  - assert (Hlen : (length (foods W) ≤ length R)%nat).
    { apply submseteq_length, NoDup_submseteq; [apply HW|]. apply HW. }
    by rewrite (proj2 (Nat.ltb_lt _ _)) by lia.
  - assert (Hlen : (length (foods W) ≤ length R)%nat).
    { apply submseteq_length, NoDup_submseteq; [apply HW|]. apply HW. }
    rewrite (proj2 (Nat.ltb_lt _ _)) by lia.
    apply IH. by apply spawnAttempts_Crowded.
Qed.

(** C6 fails in the code: [maintainFoodCount] repeats [spawnSingleFood]
    until there are 5 foods, and a spawn that finds no place adds nothing.
    When fewer than 5 cells of the grid are on no snake, so that the distinct
    foods on such cells are fewer than 5, the call does not return, however
    many iterations it is allowed and whatever the host's [Math.random()]
    returns. *)
Theorem maintainFoodCount_starves (R : list pos) (oracle : oracle_t) (fuel : nat)
    (W : world) :
  (∀ k, 0 ≤ oracle k < Rng.two32) →
  0 < TILE_COLS W → 0 < TILE_ROWS W →
  NoDup (foods W) → (∀ f, f ∈ foods W → f ∈ R) →
  (∀ p, inGrid (TILE_COLS W) (TILE_ROWS W) p →
        (∀ s, s ∈ snakes W → p ∉ body s) → p ∈ R) →
  (length R < 5)%nat →
  maintainFoodCount fuel oracle W = OutOfFuel.
Proof.
  intros Ho Hc Hr Hnd Hfs Hfr HR.
  apply (maintainFoodCount_Crowded R oracle fuel Ho HR). by constructor.
Qed.

(** The world of a window of 80 by 80 pixels once [initGame] has placed the
    two agents: both are on the same three cells of the 2 by 2 grid. *)
Definition tinyWorld : world :=
  {| TILE_COLS := 2; TILE_ROWS := 2;
     snakes := [ {| body := [(0,0); (1,0); (1,1)]; sdx := -1; sdy := 0;
                    nextDx := -1; nextDy := 0; colorIndex := 0; sid := 0 |};
                 {| body := [(0,0); (1,0); (1,1)]; sdx := -1; sdy := 0;
                    nextDx := -1; nextDy := 0; colorIndex := 1; sid := 1 |} ];
     foods := []; aiController := newSnakeAI 2 2 42 42; snakeTargets := ∅;
     mathRandomCalls := 0; decisionLog := [] |}.

Lemma tinyWorld_free (p : pos) :
  inGrid 2 2 p → (∀ s, s ∈ snakes tinyWorld → p ∉ body s) → p ∈ [(0,1) : pos].
Proof.
  intros [Hx Hy] Hfree. destruct p as [x y]. cbn [px py fst snd] in *.
  specialize (Hfree _ (list_elem_of_here _ _)). cbn [body] in Hfree.
  assert (Hxy : (x = 0 ∨ x = 1) ∧ (y = 0 ∨ y = 1)) by lia.
  destruct Hxy as [[-> | ->] [-> | ->]].
  - exfalso. apply Hfree. apply list_elem_of_here.
  - apply list_elem_of_here.
  - exfalso. apply Hfree. apply list_elem_of_further, list_elem_of_here.
  - exfalso. apply Hfree. do 2 apply list_elem_of_further. apply list_elem_of_here.
Qed.

Lemma maintainFoodCount_starves_witness :
  (∀ k, 0 ≤ sampleRandom k < Rng.two32) ∧
  0 < TILE_COLS tinyWorld ∧ 0 < TILE_ROWS tinyWorld ∧
  NoDup (foods tinyWorld) ∧ (length [((0,1)%Z : pos)] < 5)%nat ∧
  maintainFoodCount 1000 sampleRandom tinyWorld = OutOfFuel.
Proof.
  assert (Ho : ∀ k, 0 ≤ sampleRandom k < Rng.two32).
  { intros k. apply random_range. }
  split; [exact Ho|]. split; [reflexivity|]. split; [reflexivity|].
  split; [apply NoDup_nil_2|]. split; [cbn; lia|].
  apply (maintainFoodCount_starves [(0,1)] sampleRandom 1000 tinyWorld Ho).
  - reflexivity.
  - reflexivity.
  - apply NoDup_nil_2.
  - intros f Hf. by apply elem_of_nil in Hf.
  - exact tinyWorld_free.
  - cbn. lia.
Defined.

(** The module variables when [resizeCanvas] calls [initGame] for a window
    of 80 by 80 pixels at the clock reading 42. *)
Definition smallWindow : world :=
  {| TILE_COLS := 2; TILE_ROWS := 2; snakes := []; foods := [];
     aiController := newSnakeAI 2 2 42 42; snakeTargets := ∅;
     mathRandomCalls := 0; decisionLog := [] |}.

Lemma resizeCanvas_80 (fuel : nat) (oracle : oracle_t) :
  resizeCanvas fuel oracle 80 80 42 emptyWorld = initGame fuel oracle smallWindow.
Proof. reflexivity. Qed.

(** The start states that [initGame] draws on that grid. *)
Lemma tiny_start_states :
  ∃ r0 r1, getStartState (aiController smallWindow) 0 = Some r0 ∧
    getStartState r0.2 2147483648 = Some r1 ∧
    st_snake r0.1 = [(0,0); (1,0); (1,1)] ∧ st_snake r1.1 = [(0,0); (1,0); (1,1)].
Proof.
  eexists. eexists. split; [vm_compute; reflexivity|].
  split; [vm_compute; reflexivity|]. split; reflexivity.
Qed.

Lemma initGame_placed (fuel : nat) (oracle : oracle_t) (W : world)
    (st0 st1 : startState) (ai0 ai1 : SnakeAI) :
  getStartState (aiController W) 0 = Some (st0, ai0) →
  getStartState ai0 2147483648 = Some (st1, ai1) →
  initGameBeforeTick fuel oracle W =
  maintainFoodCount fuel oracle
    (set_foods (set_snakes (set_ai W ai1) [mkSnake st0 0 0; mkSnake st1 1 1]) []).
Proof.
  intros E0 E1. unfold initGameBeforeTick. rewrite E0. cbn [orThrow obind].
  by rewrite E1.
Qed.

Lemma initGame_hangs (fuel : nat) (oracle : oracle_t) (W : world) :
  initGameBeforeTick fuel oracle W = OutOfFuel → initGame fuel oracle W = OutOfFuel.
Proof. intros H. unfold initGame. by rewrite H. Qed.

(** The failing input: for a window of 80 by 80 pixels [resizeCanvas] does
    not return. *)
Lemma resizeCanvas_80_hangs (fuel : nat) (oracle : oracle_t) :
  (∀ k, 0 ≤ oracle k < Rng.two32) →
  resizeCanvas fuel oracle 80 80 42 emptyWorld = OutOfFuel.
Proof.
  intros Ho. rewrite resizeCanvas_80. apply initGame_hangs.
  destruct tiny_start_states as ([st0 ai0] & [st1 ai1] & E0 & E1 & Hb0 & Hb1).
  cbn [fst snd] in E1, Hb0, Hb1.
  rewrite (initGame_placed fuel oracle smallWindow st0 st1 ai0 ai1 E0 E1).
  clear E0 E1.
  apply (maintainFoodCount_Crowded [(0,1)] oracle fuel Ho); [cbn [length]; lia|].
  constructor.
  - reflexivity.
  - reflexivity.
  - apply NoDup_nil_2.
  - intros f Hf. change (f ∈ @nil pos) in Hf. by apply elem_of_nil in Hf.
  - intros p Hin Hfree. apply tinyWorld_free; [exact Hin|].
    intros s Hs. change (s ∈ snakes tinyWorld) in Hs.
    assert (Hbs : body s = st_snake st0).
    { cbn [snakes tinyWorld] in Hs.
      apply elem_of_cons in Hs as [->|Hs]; [rewrite Hb0; reflexivity|].
      apply elem_of_cons in Hs as [->|Hs]; [rewrite Hb0; reflexivity|].
      by apply elem_of_nil in Hs. }
    rewrite Hbs. apply (Hfree (mkSnake st0 0 0)).
    change (mkSnake st0 0 0 ∈ [mkSnake st0 0 0; mkSnake st1 1 1]).
    apply list_elem_of_here.
Qed.

(** ** Further properties of the cycle builder *)

Lemma dirs_adjacent (u d : pos) : d ∈ dirs → adjacent4 u (padd u d).
Proof.
  intros Hd. apply elem_of_dirs in Hd.
  unfold adjacent4, padd. destruct u as [x y]. cbn [px py fst snd].
  destruct Hd as [-> | [-> | [-> | ->]]]; cbn [px py fst snd]; lia.
Qed.

(** The far ends of the edges of a Prim sequence are new, distinct cells,
    they make up the visited set together with the initial cells, and each
    edge starts from an initial cell or from the far end of an earlier
    edge. *)
Lemma PrimSeq_tree (w h : Z) (V0 : gset pos) (es : list wall) (V : gset pos) :
  PrimSeq w h V0 es V →
  (∀ p, p ∈ V ↔ p ∈ V0 ∨ p ∈ wall_v <$> es) ∧
  NoDup (wall_v <$> es) ∧
  (∀ v, v ∈ wall_v <$> es → v ∉ V0) ∧
  (∀ (i : nat) e, es !! i = Some e →
     adjacent4 (wall_u e) (wall_v e) ∧
     (wall_u e ∈ V0 ∨ wall_u e ∈ wall_v <$> take i es)).
Proof.
  induction 1 as [V|V V' e es d Hu Hv Hg Hd He Hs IH].
  - split_and!.
    + intros p. cbn. rewrite elem_of_nil. tauto.
    + apply NoDup_nil_2.
    + intros v Hin. by apply elem_of_nil in Hin.
    + intros i e Hi. by rewrite lookup_nil in Hi.
  - destruct IH as (IHV & IHnd & IHnew & IHidx). split_and!.
    + intros p. rewrite IHV, fmap_cons, elem_of_cons, elem_of_union, elem_of_singleton.
      tauto.
    + rewrite fmap_cons. apply NoDup_cons. split; [|done].
      intros Hin. apply IHnew in Hin. apply Hin.
      apply elem_of_union. left. by apply elem_of_singleton.
    + intros v Hin HV. rewrite fmap_cons in Hin.
      apply elem_of_cons in Hin as [->|Hin]; [done|].
      apply IHnew in Hin. apply Hin. apply elem_of_union. by right.
    + intros i e' Hi. destruct i as [|i].
      * cbn in Hi. injection Hi as <-. split; [|by left].
        rewrite He. by apply dirs_adjacent.
      * cbn in Hi. destruct (IHidx i e' Hi) as [Hadj Hfrom]. split; [done|].
        cbn [take]. rewrite fmap_cons.
        destruct Hfrom as [Hfrom|Hfrom].
        -- apply elem_of_union in Hfrom as [Hfrom|Hfrom].
           ++ apply elem_of_singleton in Hfrom. right. rewrite Hfrom.
              apply list_elem_of_here.
           ++ by left.
        -- right. by apply list_elem_of_further.
Qed.

(** X1. [generateMST] builds a spanning tree of the coarse grid rooted at its
    random start cell: on a grid of [w] by [h] cells it returns [w * h - 1]
    edges between adjacent cells; the far ends of the edges are distinct and
    are the cells other than the start; and each edge starts from the start
    cell or from the far end of an edge emitted before it. *)
Theorem generateMST_spanning_tree (w h seed : Z) :
  0 < w → 0 < h →
  ∃ seed' mst start,
    generateMST w h seed = Some (seed', mst) ∧
    inGrid w h start ∧
    Z.of_nat (length mst) = w * h - 1 ∧
    NoDup (wall_v <$> mst) ∧
    (start ∉ wall_v <$> mst) ∧
    (∀ p, inGrid w h p ↔ p = start ∨ p ∈ wall_v <$> mst) ∧
    (∀ (i : nat) e, mst !! i = Some e →
       adjacent4 (wall_u e) (wall_v e) ∧
       (wall_u e = start ∨ wall_u e ∈ wall_v <$> take i mst)).
Proof.
  intros Hw Hh.
  destruct (generateMST_spec w h seed Hw Hh) as (seed' & mst & start & V & E & Hst & HP & HV).
  destruct (PrimSeq_tree w h {[start]} mst V HP) as (HVeq & Hnd & Hnew & Hidx).
  exists seed', mst, start.
  assert (Hsv : start ∉ wall_v <$> mst).
  { intros Hin. apply (Hnew _ Hin). by apply elem_of_singleton. }
  assert (Hcells : ∀ p, inGrid w h p ↔ p = start ∨ p ∈ wall_v <$> mst).
  { intros p. rewrite <- HV, HVeq, elem_of_singleton. tauto. }
  split_and!; try done.
  - assert (HVset : V = {[start]} ∪ list_to_set (wall_v <$> mst)).
    { apply set_eq. intros p.
      rewrite HVeq, elem_of_union, elem_of_list_to_set. tauto. }
    assert (HVgrid : V = gridSet w h).
    { apply set_eq. intros p. rewrite HV. symmetry. apply elem_of_gridSet. }
    pose proof (size_gridSet w h) as Hsz. rewrite <- HVgrid, HVset in Hsz.
    rewrite size_union in Hsz.
    + rewrite size_singleton, size_list_to_set, length_fmap in Hsz by done. nia.
    + intros p Hp Hq. apply elem_of_singleton in Hp as ->.
      by apply elem_of_list_to_set in Hq.
  - intros i e Hi. destruct (Hidx i e Hi) as [Hadj Hfrom]. split; [done|].
    destruct Hfrom as [Hfrom|Hfrom]; [left; by apply elem_of_singleton in Hfrom|by right].
Qed.

Lemma generateMST_spanning_tree_witness :
  0 < 3 ∧ 0 < 2 ∧
  ∃ seed' mst start,
    generateMST 3 2 42 = Some (seed', mst) ∧
    inGrid 3 2 start ∧
    Z.of_nat (length mst) = 3 * 2 - 1 ∧
    NoDup (wall_v <$> mst) ∧
    (start ∉ wall_v <$> mst) ∧
    (∀ p, inGrid 3 2 p ↔ p = start ∨ p ∈ wall_v <$> mst) ∧
    (∀ (i : nat) e, mst !! i = Some e →
       adjacent4 (wall_u e) (wall_v e) ∧
       (wall_u e = start ∨ wall_u e ∈ wall_v <$> take i mst)).
Proof.
  split; [lia|]. split; [lia|].
  apply (generateMST_spanning_tree 3 2 42); lia.
Defined.

(** ** Further properties of the generator and of the link table *)

(** X2. Every value returned by [random()] is in the interval from 0 to 1, 1
    excluded, so that [Math.floor(random() * m)] is an index below [m] for
    every positive [m]: the first [n] values of the stream of any seed. *)
Theorem random_stream_in_unit_interval (n : nat) (seed : Z) :
  length (Rng.stream n seed) = n ∧
  ∀ k, k ∈ Rng.stream n seed →
    0 ≤ k < Rng.two32 ∧ ∀ m, 0 < m → 0 ≤ Rng.scale k m < m.
Proof.
  revert seed. induction n as [|n IH]; intros seed.
  - split; [done|]. intros k Hk. by apply elem_of_nil in Hk.
  - cbn [Rng.stream]. pose proof (random_range seed) as Hr.
    destruct (Rng.random seed) as [s k0]. cbn [snd] in Hr.
    destruct (IH s) as [Hlen Hall]. split; [cbn; by rewrite Hlen|].
    intros k Hk. apply elem_of_cons in Hk as [->|Hk]; [|by apply Hall].
    split; [done|]. intros m Hm. by apply scale_range.
Qed.

Lemma filter_drop_last (l : list pos) (b : pos) :
  b ∉ l → filter (fun p => px p ≠ px b ∨ py p ≠ py b) (l ++ [b]) = l.
Proof.
  intros Hb. rewrite filter_app.
  rewrite (filter_cons_False _ b []) by tauto.
  rewrite filter_nil, app_nil_r.
  induction l as [|x l IH]; [done|].
  apply not_elem_of_cons in Hb as [Hne Hb].
  rewrite filter_cons_True.
  - by rewrite IH.
  - destruct x as [x1 x2], b as [b1 b2]. cbn [px py fst snd].
    destruct (decide (x1 = b1)) as [->|]; [|by left]. right. congruence.
Qed.

(** X3. [unlink] undoes [link]: when [a] and [b] are distinct positions that
    both have an entry in the table and are not linked to each other,
    linking them and then unlinking them gives the table back. *)
Theorem unlink_link_round_trip (links : links_t) (a b : pos) (la lb : list pos) :
  a ≠ b → links !! a = Some la → links !! b = Some lb → b ∉ la → a ∉ lb →
  unlink (link links a b) a b = Some links.
Proof.
  intros Hne Ha Hb Hbla Halb.
  rewrite (link_present links a b la lb Hne Ha Hb).
  rewrite (unlink_present _ a b (la ++ [b]) (lb ++ [a])).
  - rewrite !filter_drop_last by done. f_equal.
    apply map_eq. intros k.
    destruct (decide (k = b)) as [->|Hkb]; [by rewrite lookup_insert_eq|].
    rewrite lookup_insert_ne by done.
    destruct (decide (k = a)) as [->|Hka]; [by rewrite lookup_insert_eq|].
    by rewrite !lookup_insert_ne by done.
  - rewrite lookup_insert_ne by done. by rewrite lookup_insert_eq.
  - by rewrite lookup_insert_eq.
Qed.

Lemma unlink_link_round_trip_witness :
  ((0,0) : pos) ≠ (1,0) ∧
  unlink (link {[ (0,0) := [((0,1) : pos)]; (1,0) := [((1,1) : pos)] ]} (0,0) (1,0))
         (0,0) (1,0) =
  Some {[ (0,0) := [((0,1) : pos)]; (1,0) := [((1,1) : pos)] ]}.
Proof.
  assert (Hne : ((0,0) : pos) ≠ (1,0)) by (intros [=]).
  split; [exact Hne|].
  apply (unlink_link_round_trip _ (0,0) (1,0) [(0,1)] [(1,1)] Hne).
  - reflexivity.
  - reflexivity.
  - intros H. apply list_elem_of_singleton in H. discriminate H.
  - intros H. apply list_elem_of_singleton in H. discriminate H.
Defined.

(** X4. [unlink] and [swapLinks] throw when a position they are given has no
    entry in the table, and [link] makes the entries it needs: after
    [link(links, a, b)] both [a] and [b] have an entry. *)
Theorem link_table_missing_entry (links : links_t) (a b c d : pos) :
  (links !! a = None ∨ links !! b = None → unlink links a b = None) ∧
  (links !! a = None ∨ links !! b = None → swapLinks links a b c d = None) ∧
  is_Some (link links a b !! a) ∧ is_Some (link links a b !! b).
Proof.
  assert (Hun : links !! a = None ∨ links !! b = None → unlink links a b = None).
  { intros [H|H]; unfold unlink; rewrite H; [done|]. by destruct (links !! a). }
  split; [exact Hun|]. split.
  - intros H. unfold swapLinks. by rewrite (Hun H).
  - unfold link. cbv zeta.
    destruct (decide (a = b)) as [->|Hne].
    + rewrite lookup_insert_eq. split; by eexists.
    + rewrite lookup_insert_ne by done. rewrite lookup_insert_eq.
      rewrite lookup_insert_eq. split; by eexists.
Qed.

(** ** Further properties of the agent's senses *)

Lemma elem_of_getNeighbors (ai : SnakeAI) (node n : pos) :
  n ∈ getNeighbors ai node ↔ inGrid (cols ai) (rows ai) n ∧ adjacent4 node n.
Proof.
  unfold getNeighbors. rewrite list_elem_of_omap. split.
  - intros (d & Hd & Hn). cbv zeta in Hn.
    destruct (_ && _) eqn:E; [|done]. injection Hn as <-.
    apply inGridb_spec in E. split; [done|].
    apply elem_of_dirs in Hd. unfold adjacent4. cbn [px py fst snd].
    destruct Hd as [-> | [-> | [-> | ->]]]; cbn [px py fst snd]; lia.
  - intros [Hg Hadj]. destruct n as [x y], node as [a b].
    unfold adjacent4 in Hadj. cbn [px py fst snd] in *.
    assert (Hd : (x = a + 0 ∧ y = b + -1) ∨ (x = a + 0 ∧ y = b + 1) ∨
                 (x = a + -1 ∧ y = b + 0) ∨ (x = a + 1 ∧ y = b + 0)) by lia.
    apply (proj2 (inGridb_spec _ _ x y)) in Hg.
    destruct Hd as [[-> ->] | [[-> ->] | [[-> ->] | [-> ->]]]].
    + exists (0, -1). split; [apply elem_of_dirs; tauto|].
      cbn [px py fst snd]. by rewrite Hg.
    + exists (0, 1). split; [apply elem_of_dirs; tauto|].
      cbn [px py fst snd]. by rewrite Hg.
    + exists (-1, 0). split; [apply elem_of_dirs; tauto|].
      cbn [px py fst snd]. by rewrite Hg.
    + exists (1, 0). split; [apply elem_of_dirs; tauto|].
      cbn [px py fst snd]. by rewrite Hg.
Qed.

(** X5. [getNeighbors] returns exactly the cells of the grid that are one
    step away from the node, each once, and so at most four of them; a node
    that is away from the borders has four. *)
Theorem getNeighbors_spec (ai : SnakeAI) (node : pos) :
  (∀ n, n ∈ getNeighbors ai node ↔
        inGrid (cols ai) (rows ai) n ∧ adjacent4 node n) ∧
  NoDup (getNeighbors ai node) ∧ (length (getNeighbors ai node) ≤ 4)%nat ∧
  (1 ≤ px node ∧ px node + 1 < cols ai ∧ 1 ≤ py node ∧ py node + 1 < rows ai →
   getNeighbors ai node =
     [(px node, py node - 1); (px node, py node + 1);
      (px node - 1, py node); (px node + 1, py node)]).
Proof.
  split_and!.
  - intros n. apply elem_of_getNeighbors.
  - rewrite getNeighbors_UDLR. unfold neighboursUDLR. apply NoDup_filter.
    destruct node as [a b]. cbn [px py fst snd].
    repeat (apply NoDup_cons; split;
            [rewrite ?elem_of_cons, elem_of_nil; intros H;
             repeat (destruct H as [H|H]; [injection H; lia|]); done|]).
    apply NoDup_nil_2.
  - rewrite getNeighbors_UDLR. unfold neighboursUDLR.
    etrans; [apply length_filter|]. done.
  - intros Hin. rewrite getNeighbors_UDLR. unfold neighboursUDLR.
    rewrite !filter_cons_True, filter_nil; [done|..];
      unfold inGrid; cbn [px py fst snd]; lia.
Qed.

(** What one cell of the 5 by 5 window adds to the danger score. *)
Definition cellDanger (ai : SnakeAI) (p : pos) (obstaclesSet : gset pos)
    (dx dy : Z) : Z :=
  if (dx =? 0) && (dy =? 0) then 0
  else if (px p + dx <? 0) || (cols ai <=? px p + dx) ||
          (py p + dy <? 0) || (rows ai <=? py p + dy) then 5
  else if bool_decide ((px p + dx, py p + dy) ∈ obstaclesSet)
       then (if Z.abs dx + Z.abs dy =? 1 then 20 else 10)
       else 0.

Definition sumZ (l : list Z) : Z := foldr Z.add 0 l.

Lemma foldl_add {A} (f : Z → A → Z) (g : A → Z) (l : list A) :
  (∀ s x, f s x = s + g x) → ∀ s, foldl f s l = s + sumZ (g <$> l).
Proof.
  intros Hf. induction l as [|x l IH]; intros s; cbn; [lia|].
  rewrite IH, Hf. unfold sumZ. lia.
Qed.

(** The danger score is the sum of the contributions of the cells of the
    window. *)
Lemma getDangerScore_sum (ai : SnakeAI) (p : pos) (obstaclesSet : gset pos) :
  getDangerScore ai p obstaclesSet =
  sumZ ((fun dy => sumZ ((fun dx => cellDanger ai p obstaclesSet dx dy) <$> radius5))
          <$> radius5).
Proof.
  unfold getDangerScore.
  rewrite (foldl_add _ (fun dy => sumZ ((fun dx => cellDanger ai p obstaclesSet dx dy)
                                          <$> radius5))); [lia|].
  intros s dy. apply foldl_add. intros s' dx. unfold cellDanger.
  repeat case_match; lia.
Qed.

Lemma cellDanger_range (ai : SnakeAI) (p : pos) (obstaclesSet : gset pos) (dx dy : Z) :
  0 ≤ cellDanger ai p obstaclesSet dx dy ≤ 20.
Proof. unfold cellDanger. repeat case_match; lia. Qed.

Lemma cellDanger_out (ai : SnakeAI) (p : pos) (obstaclesSet : gset pos) (dx dy : Z) :
  dx ≠ 0 ∨ dy ≠ 0 →
  px p + dx < 0 ∨ cols ai ≤ px p + dx ∨ py p + dy < 0 ∨ rows ai ≤ py p + dy →
  cellDanger ai p obstaclesSet dx dy = 5.
Proof.
  intros Hd Hout. unfold cellDanger.
  assert (E : (dx =? 0) && (dy =? 0) = false).
  { apply andb_false_iff. rewrite !Z.eqb_neq. tauto. }
  rewrite E.
  assert (E' : (px p + dx <? 0) || (cols ai <=? px p + dx) ||
               (py p + dy <? 0) || (rows ai <=? py p + dy) = true).
  { rewrite !orb_true_iff, !Z.ltb_lt, !Z.leb_le. tauto. }
  by rewrite E'.
Qed.

Lemma cellDanger_adjacent (ai : SnakeAI) (p : pos) (obstaclesSet : gset pos) (dx dy : Z) :
  Z.abs dx + Z.abs dy = 1 →
  inGrid (cols ai) (rows ai) (px p + dx, py p + dy) →
  (px p + dx, py p + dy) ∈ obstaclesSet →
  cellDanger ai p obstaclesSet dx dy = 20.
Proof.
  intros Hd [Hx Hy] Hin. cbn [px py fst snd] in Hx, Hy. unfold cellDanger.
  assert (E : (dx =? 0) && (dy =? 0) = false).
  { apply andb_false_iff. rewrite !Z.eqb_neq. lia. }
  rewrite E.
  assert (E' : (px p + dx <? 0) || (cols ai <=? px p + dx) ||
               (py p + dy <? 0) || (rows ai <=? py p + dy) = false).
  { rewrite !orb_false_iff, !Z.ltb_ge, !Z.leb_gt. lia. }
  rewrite E', bool_decide_eq_true_2 by done.
  by rewrite (proj2 (Z.eqb_eq _ _) Hd).
Qed.

(** Instances of a fact about every cell of the window. *)
Ltac window_facts H :=
  let row dy :=
    (pose proof (H (-2) dy); pose proof (H (-1) dy); pose proof (H 0 dy);
     pose proof (H 1 dy); pose proof (H 2 dy)) in
  row (-2); row (-1); row 0; row 1; row 2.

(** X6. A cell whose danger score is at most 15, the threshold of
    [findShortcut], has its whole 5 by 5 window inside the grid, so that it
    is at least two cells away from every border, and has no obstacle on a
    cell next to it. *)
Theorem low_danger_is_away_from_walls (ai : SnakeAI) (p : pos)
    (obstaclesSet : gset pos) :
  getDangerScore ai p obstaclesSet ≤ 15 →
  (2 ≤ px p ∧ px p + 2 < cols ai ∧ 2 ≤ py p ∧ py p + 2 < rows ai) ∧
  ∀ n, adjacent4 p n → n ∉ obstaclesSet.
Proof.
  rewrite getDangerScore_sum. unfold radius5.
  cbn [fmap list_fmap sumZ foldr]. intros Hs.
  pose proof (cellDanger_range ai p obstaclesSet) as Hr.
  window_facts Hr. clear Hr.
  assert (Hwin : 2 ≤ px p ∧ px p + 2 < cols ai ∧ 2 ≤ py p ∧ py p + 2 < rows ai).
  { pose proof (cellDanger_out ai p obstaclesSet) as Ho.
    split_and!; apply Z.nlt_ge || apply Z.nle_gt; intros Hc.
    - assert (Hc' : ∀ dy, cellDanger ai p obstaclesSet (-2) dy = 5).
      { intros dy. apply Ho; lia. }
      pose proof (Hc' (-2)). pose proof (Hc' (-1)). pose proof (Hc' 0).
      pose proof (Hc' 1). pose proof (Hc' 2). lia.
    - assert (Hc' : ∀ dy, cellDanger ai p obstaclesSet 2 dy = 5).
      { intros dy. apply Ho; lia. }
      pose proof (Hc' (-2)). pose proof (Hc' (-1)). pose proof (Hc' 0).
      pose proof (Hc' 1). pose proof (Hc' 2). lia.
    - assert (Hc' : ∀ dx, cellDanger ai p obstaclesSet dx (-2) = 5).
      { intros dx. apply Ho; lia. }
      pose proof (Hc' (-2)). pose proof (Hc' (-1)). pose proof (Hc' 0).
      pose proof (Hc' 1). pose proof (Hc' 2). lia.
    - assert (Hc' : ∀ dx, cellDanger ai p obstaclesSet dx 2 = 5).
      { intros dx. apply Ho; lia. }
      pose proof (Hc' (-2)). pose proof (Hc' (-1)). pose proof (Hc' 0).
      pose proof (Hc' 1). pose proof (Hc' 2). lia. }
  split; [exact Hwin|].
  intros n Hadj Hin. destruct n as [x y], p as [a b].
  unfold adjacent4 in Hadj. cbn [px py fst snd] in *.
  pose proof (cellDanger_adjacent ai (a, b) obstaclesSet) as Ha.
  cbn [px py fst snd] in Ha.
  assert (Hd : (x = a + 0 ∧ y = b + -1) ∨ (x = a + 0 ∧ y = b + 1) ∨
               (x = a + -1 ∧ y = b + 0) ∨ (x = a + 1 ∧ y = b + 0)) by lia.
  destruct Hd as [[-> ->] | [[-> ->] | [[-> ->] | [-> ->]]]].
  - assert (E : cellDanger ai (a, b) obstaclesSet 0 (-1) = 20).
    { apply Ha; [lia| |done]. unfold inGrid. cbn [px py fst snd]. lia. }
    lia.
  - assert (E : cellDanger ai (a, b) obstaclesSet 0 1 = 20).
    { apply Ha; [lia| |done]. unfold inGrid. cbn [px py fst snd]. lia. }
    lia.
  - assert (E : cellDanger ai (a, b) obstaclesSet (-1) 0 = 20).
    { apply Ha; [lia| |done]. unfold inGrid. cbn [px py fst snd]. lia. }
    lia.
  - assert (E : cellDanger ai (a, b) obstaclesSet 1 0 = 20).
    { apply Ha; [lia| |done]. unfold inGrid. cbn [px py fst snd]. lia. }
    lia.
Qed.

Lemma low_danger_is_away_from_walls_witness :
  getDangerScore demoAI (3,3) {[ (5,3) ]} ≤ 15 ∧
  (2 ≤ px (3,3) ∧ px (3,3) + 2 < cols demoAI ∧
   2 ≤ py (3,3) ∧ py (3,3) + 2 < rows demoAI) ∧
  ∀ n, adjacent4 (3,3) n → n ∉ ({[ (5,3) ]} : gset pos).
Proof.
  assert (H : getDangerScore demoAI (3,3) {[ (5,3) ]} ≤ 15).
  { vm_compute. intros E. discriminate E. }
  split; [exact H|].
  exact (low_danger_is_away_from_walls demoAI (3,3) {[ (5,3) ]} H).
Defined.

(** The most that a cell of the window can add. *)
Definition cellBound (dx dy : Z) : Z :=
  if (dx =? 0) && (dy =? 0) then 0
  else if Z.abs dx + Z.abs dy =? 1 then 20 else 10.

Lemma cellDanger_mono (ai : SnakeAI) (p : pos) (obs obs' : gset pos) (dx dy : Z) :
  obs ⊆ obs' → -2 ≤ dx ≤ 2 → -2 ≤ dy ≤ 2 →
  0 ≤ cellDanger ai p obs dx dy ∧
  cellDanger ai p obs dx dy ≤ cellDanger ai p obs' dx dy ∧
  cellDanger ai p obs' dx dy ≤ cellBound dx dy.
Proof.
  intros Hsub Hx Hy. unfold cellDanger, cellBound.
  destruct ((dx =? 0) && (dy =? 0)); [lia|].
  destruct (_ || _ || _ || _).
  - destruct (Z.abs dx + Z.abs dy =? 1); lia.
  - destruct (bool_decide (_ ∈ obs)) eqn:E.
    + apply bool_decide_eq_true_1 in E. apply Hsub in E.
      rewrite bool_decide_eq_true_2 by done.
      destruct (Z.abs dx + Z.abs dy =? 1); lia.
    + destruct (bool_decide (_ ∈ obs')); destruct (Z.abs dx + Z.abs dy =? 1); lia.
Qed.

Ltac bound_fact H dx dy :=
  let v := eval vm_compute in (cellBound dx dy) in
  let F := fresh "F" in
  pose proof (H dx dy ltac:(lia) ltac:(lia)) as F;
  change (cellBound dx dy) with v in F.

Ltac bound_facts H :=
  let row dy :=
    (bound_fact H (-2) dy; bound_fact H (-1) dy; bound_fact H 0 dy;
     bound_fact H 1 dy; bound_fact H 2 dy) in
  row (-2); row (-1); row 0; row 1; row 2.

(** X7. The danger score is never negative and never above 280, and it does not
    go down when obstacles are added. *)
Theorem danger_score_monotone (ai : SnakeAI) (p : pos) (obs obs' : gset pos) :
  obs ⊆ obs' →
  0 ≤ getDangerScore ai p obs ∧
  getDangerScore ai p obs ≤ getDangerScore ai p obs' ∧
  getDangerScore ai p obs' ≤ 280.
Proof.
  intros Hsub. rewrite !getDangerScore_sum. unfold radius5.
  cbn [fmap list_fmap sumZ foldr].
  pose proof (fun dx dy => cellDanger_mono ai p obs obs' dx dy Hsub) as Hm.
  bound_facts Hm. lia.
Qed.

Lemma danger_score_monotone_witness :
  (∅ : gset pos) ⊆ {[ (5,3) ]} ∧
  0 ≤ getDangerScore demoAI (3,3) ∅ ∧
  getDangerScore demoAI (3,3) ∅ ≤ getDangerScore demoAI (3,3) {[ (5,3) ]} ∧
  getDangerScore demoAI (3,3) {[ (5,3) ]} ≤ 280.
Proof.
  assert (H : (∅ : gset pos) ⊆ {[ (5,3) ]}) by apply empty_subseteq.
  split; [exact H|].
  exact (danger_score_monotone demoAI (3,3) ∅ {[ (5,3) ]} H).
Defined.

(** ** The flood fill and the lookahead at their edges *)

Lemma floodLoop_range (ai : SnakeAI) (obstacles : gset pos) (budget : nat) :
  ∀ (queue : list pos) (visited : gset pos) (count : Z),
    count ≤ floodLoop budget ai obstacles queue visited count
          ≤ count + Z.of_nat budget.
Proof.
  induction budget as [|budget IH]; intros queue visited count; cbn [floodLoop]; [lia|].
  destruct queue as [|curr queue]; [lia|].
  match goal with |- context [floodLoop budget ai obstacles ?q ?v ?c] =>
    pose proof (IH q v c) end.
  lia.
Qed.

Lemma floodLoop_S (ai : SnakeAI) (obstacles : gset pos) (budget : nat)
    (curr : pos) (queue : list pos) (visited : gset pos) (count : Z) :
  floodLoop (S budget) ai obstacles (curr :: queue) visited count =
  floodLoop budget ai obstacles
    (foldl (floodPush obstacles) (queue, visited) (getNeighbors ai curr)).1
    (foldl (floodPush obstacles) (queue, visited) (getNeighbors ai curr)).2
    (count + 1).
Proof. reflexivity. Qed.

(** X8. [floodFill] counts its start cell whatever it is, an obstacle or a cell
    outside the grid included, and it counts at most 300 cells; when no
    neighbour of the start is free it returns 1. *)
Theorem floodFill_range (ai : SnakeAI) (start : pos) (obstacles : gset pos) :
  1 ≤ floodFill ai start obstacles ≤ 300 ∧
  ((∀ n, n ∈ getNeighbors ai start → n ∈ obstacles) →
   floodFill ai start obstacles = 1).
Proof.
  unfold floodFill. change 300%nat with (S 299). rewrite floodLoop_S. split.
  - match goal with |- context [floodLoop 299 ai obstacles ?q ?v ?c] =>
      pose proof (floodLoop_range ai obstacles 299 q v c) end.
    lia.
  - intros Hall.
    assert (Hfold : ∀ ns, (∀ n, n ∈ ns → n ∈ obstacles) →
              foldl (floodPush obstacles) ([], {[start]}) ns = ([], {[start]})).
    { induction ns as [|n ns IH]; intros Hns; [done|]. cbn [foldl].
      unfold floodPush at 2. cbn [fst snd].
      rewrite (bool_decide_eq_false_2 (n ∉ obstacles)).
      - cbn [andb]. apply IH. intros m Hm. apply Hns. by apply list_elem_of_further.
      - intros Hn. apply Hn, Hns, list_elem_of_here. }
    rewrite (Hfold _ Hall). reflexivity.
Qed.

(** X9. [isSafePath] with an empty obstacle list is true for every start, one
    that has no cycle index included, since the test of a cell is then never
    called; with an obstacle in the list, a start that has no cycle index or
    a controller that has no cycle makes the first test throw. *)
Theorem isSafePath_edges (ai : SnakeAI) (startPos : pos) (steps : nat) :
  isSafePath ai startPos steps [] = Some true ∧
  ∀ (o : pos) (obstacles : list pos),
    getCycleIndex ai startPos = None ∨ hamiltonianCycle ai = [] →
    isSafePath ai startPos (S steps) (o :: obstacles) = None.
Proof.
  split.
  - unfold isSafePath. generalize (getCycleIndex ai startPos).
    induction steps as [|steps IH]; intros idx; [done|].
    cbn [isSafePathLoop]. cbv zeta.
    assert (E : ∀ q, someAt [] q = Some false) by (by intros [q|]).
    rewrite E. cbn [mbind option_bind]. apply IH.
  - intros o obstacles H. unfold isSafePath. cbn [isSafePathLoop]. cbv zeta.
    assert (E : jsIndex (hamiltonianCycle ai)
                  (jsRem (optAdd (getCycleIndex ai startPos) 1) (cycleLen ai)) = None).
    { destruct H as [H|H].
      - by rewrite H.
      - unfold cycleLen. rewrite H. cbn [length].
        destruct (getCycleIndex ai startPos); [|done].
        cbn. reflexivity. }
    rewrite E. reflexivity.
Qed.

(** ** The controller once its cycle is built *)

(** A controller as [init] leaves it on a grid with positive even
    dimensions: it is initialised, its cycle holds every cell of the grid
    once, consecutive cells of the cycle are adjacent, and its index map is
    the one built from the cycle. *)
Record Built (ai : SnakeAI) : Prop := MkBuilt {
  bt_init : isInitialized ai = true;
  bt_cols : 0 < cols ai;
  bt_rows : 0 < rows ai;
  bt_ecols : Z.even (cols ai) = true;
  bt_erows : Z.even (rows ai) = true;
  bt_nodup : NoDup (hamiltonianCycle ai);
  bt_cells : ∀ p, p ∈ hamiltonianCycle ai ↔ inGrid (cols ai) (rows ai) p;
  bt_adj : ∀ a b, (a, b) ∈ cpairs (hamiltonianCycle ai) → adjacent4 a b;
  bt_map : cycleMap ai = buildCycleMap (hamiltonianCycle ai);
  bt_len : cycleLen ai = cols ai * rows ai
}.

Lemma init_Built (ai ai' : SnakeAI) :
  0 < cols ai → 0 < rows ai → Z.even (cols ai) = true → Z.even (rows ai) = true →
  init ai = Some ai' →
  Built ai' ∧ cols ai' = cols ai ∧ rows ai' = rows ai.
Proof.
  intros Hc Hr Ec Er. unfold init.
  pose proof Ec as Ec'. pose proof Er as Er'.
  apply Z.even_spec in Ec' as [w Hw]. apply Z.even_spec in Er' as [h Hh].
  assert (E1 : (Z.rem (cols ai) 2 =? 0) = true).
  { apply Z.eqb_eq. rewrite Z.rem_mod_nonneg by lia. rewrite Hw.
    rewrite Z.mul_comm. apply Z.mod_mul. lia. }
  assert (E2 : (Z.rem (rows ai) 2 =? 0) = true).
  { apply Z.eqb_eq. rewrite Z.rem_mod_nonneg by lia. rewrite Hh.
    rewrite Z.mul_comm. apply Z.mod_mul. lia. }
  rewrite E1, E2. cbn [negb orb].
  destruct (generateHamiltonianCycle_spec w h (seed ai))
    as (seed' & cycle & E & Hhd & Hp & Hadj); [lia|lia|].
  rewrite <- Hw, <- Hh in E, Hp. rewrite E. cbn [mbind option_bind].
  intros [= <-]. split; [|done].
  constructor; cbn [isInitialized cols rows hamiltonianCycle cycleMap]; try done.
  - rewrite Hp. apply NoDup_coarseCells.
  - intros p. rewrite Hp. apply elem_of_coarseCells.
  - unfold cycleLen. cbn [hamiltonianCycle]. rewrite Hp, length_coarseCells. lia.
Qed.

Lemma demoAI_Built : Built demoAI.
Proof.
  assert (E : init (newSnakeAI 6 6 42 0) = Some demoAI) by (vm_compute; reflexivity).
  apply init_Built in E as [H _]; [exact H|done..].
Qed.

Lemma fillCycleMap_index (cycle : list pos) :
  NoDup cycle → ∀ (m : gmap pos Z) (index : Z) (i : nat) (p : pos),
    cycle !! i = Some p →
    fillCycleMap m index cycle !! p = Some (index + Z.of_nat i).
Proof.
  induction 1 as [|q cycle Hq Hnd IH]; intros m index i p Hi; [done|].
  cbn [fillCycleMap]. destruct i as [|i].
  - cbn in Hi. injection Hi as <-.
    rewrite fillCycleMap_other by done. rewrite lookup_insert_eq. f_equal. lia.
  - cbn in Hi. rewrite (IH _ _ i p Hi). f_equal. lia.
Qed.

Lemma Built_lookup_index (ai : SnakeAI) (i : nat) (p : pos) :
  Built ai → hamiltonianCycle ai !! i = Some p →
  getCycleIndex ai p = Some (Z.of_nat i).
Proof.
  intros HB Hi. unfold getCycleIndex. rewrite (bt_map ai HB). unfold buildCycleMap.
  rewrite (fillCycleMap_index _ (bt_nodup ai HB) ∅ 0 i p Hi). f_equal.
Qed.

Lemma Built_index_elem (ai : SnakeAI) (p : pos) :
  Built ai → is_Some (getCycleIndex ai p) → p ∈ hamiltonianCycle ai.
Proof.
  intros HB [j Hj]. destruct (decide (p ∈ hamiltonianCycle ai)) as [|Hn]; [done|].
  unfold getCycleIndex in Hj. rewrite (bt_map ai HB) in Hj. unfold buildCycleMap in Hj.
  rewrite fillCycleMap_other in Hj by done. by rewrite lookup_empty in Hj.
Qed.

Lemma Built_index_lookup (ai : SnakeAI) (p : pos) (j : Z) :
  Built ai → getCycleIndex ai p = Some j →
  0 ≤ j < cycleLen ai ∧ hamiltonianCycle ai !! Z.to_nat j = Some p.
Proof.
  intros HB Hj.
  assert (Hp : p ∈ hamiltonianCycle ai) by (apply Built_index_elem; [done|by eexists]).
  apply list_elem_of_lookup in Hp as [i Hi].
  rewrite (Built_lookup_index ai i p HB Hi) in Hj. injection Hj as <-.
  rewrite Nat2Z.id. split; [|done].
  apply lookup_lt_Some in Hi. unfold cycleLen. lia.
Qed.

(** X10. The index map and the cycle array are inverse to each other: the cell at
    index [i] of the cycle has the cycle index [i], a cell that has a cycle
    index [j] is the one at index [j], and the cells that have a cycle index
    are the cells of the grid. *)
Theorem cycle_index_round_trip (ai : SnakeAI) :
  Built ai →
  (∀ (i : nat) p, hamiltonianCycle ai !! i = Some p →
     getCycleIndex ai p = Some (Z.of_nat i)) ∧
  (∀ p j, getCycleIndex ai p = Some j →
     0 ≤ j < cols ai * rows ai ∧ hamiltonianCycle ai !! Z.to_nat j = Some p) ∧
  (∀ p, is_Some (getCycleIndex ai p) ↔ inGrid (cols ai) (rows ai) p).
Proof.
  intros HB. split; [intros i p; by apply Built_lookup_index|]. split.
  - intros p j Hj. rewrite <- (bt_len ai HB). by apply Built_index_lookup.
  - intros p. rewrite <- (bt_cells ai HB). split; [by apply Built_index_elem|].
    intros Hp. apply list_elem_of_lookup in Hp as [i Hi].
    rewrite (Built_lookup_index ai i p HB Hi). by eexists.
Qed.

Lemma cycle_index_round_trip_witness :
  Built demoAI ∧
  (∀ (i : nat) p, hamiltonianCycle demoAI !! i = Some p →
     getCycleIndex demoAI p = Some (Z.of_nat i)) ∧
  (∀ p j, getCycleIndex demoAI p = Some j →
     0 ≤ j < cols demoAI * rows demoAI ∧
     hamiltonianCycle demoAI !! Z.to_nat j = Some p) ∧
  (∀ p, is_Some (getCycleIndex demoAI p) ↔ inGrid (cols demoAI) (rows demoAI) p).
Proof.
  split; [exact demoAI_Built|].
  exact (cycle_index_round_trip demoAI demoAI_Built).
Defined.

Lemma Built_onCycle (ai : SnakeAI) (p : pos) :
  Built ai → inGrid (cols ai) (rows ai) p → onCycle ai p.
Proof.
  intros HB Hp. apply (bt_cells ai HB) in Hp.
  destruct (fillCycleMap_lookup (hamiltonianCycle ai) ∅ 0 p Hp) as (i & Ei & Hi).
  exists i. unfold getCycleIndex, cycleLen. rewrite (bt_map ai HB).
  split; [exact Ei|lia].
Qed.

(** X11. On a grid with an odd dimension [init] leaves the fresh controller as it
    is, without a cycle, and then every call of [getNextMove] and of
    [getStartState] throws. *)
Theorem odd_grid_never_initialises (c r seed now : Z) :
  Z.rem c 2 ≠ 0 ∨ Z.rem r 2 ≠ 0 →
  init (newSnakeAI c r seed now) = Some (newSnakeAI c r seed now) ∧
  (∀ snake foods poison obstacles id targets,
     getNextMove (newSnakeAI c r seed now) snake foods poison obstacles id targets
       = None) ∧
  (∀ off, getStartState (newSnakeAI c r seed now) off = None).
Proof.
  intros Hodd.
  assert (Ei : init (newSnakeAI c r seed now) = Some (newSnakeAI c r seed now)).
  { unfold init. cbn [cols rows newSnakeAI].
    assert (E : negb (Z.rem c 2 =? 0) || negb (Z.rem r 2 =? 0) = true).
    { apply orb_true_iff. rewrite !negb_true_iff, !Z.eqb_neq. tauto. }
    by rewrite E. }
  split; [exact Ei|]. split.
  - intros snake foods poison obstacles id targets.
    unfold getNextMove, ensureInit. cbn [isInitialized newSnakeAI].
    fold (newSnakeAI c r seed now). rewrite Ei. cbn [mbind option_bind].
    destruct (head snake) as [h|]; [|done]. cbn [mbind option_bind].
    unfold getCycleIndex. cbn [cycleMap newSnakeAI]. rewrite lookup_empty.
    reflexivity.
  - intros off. unfold getStartState, ensureInit. cbn [isInitialized newSnakeAI].
    fold (newSnakeAI c r seed now). rewrite Ei. cbn [mbind option_bind].
    destruct (Rng.random _) as [seed' k]. cbv zeta.
    unfold cycleLen. cbn [hamiltonianCycle newSnakeAI length]. reflexivity.
Qed.

Lemma odd_grid_never_initialises_witness :
  (Z.rem 5 2 ≠ 0 ∨ Z.rem 4 2 ≠ 0) ∧
  init (newSnakeAI 5 4 42 0) = Some (newSnakeAI 5 4 42 0) ∧
  (∀ snake foods poison obstacles id targets,
     getNextMove (newSnakeAI 5 4 42 0) snake foods poison obstacles id targets = None) ∧
  (∀ off, getStartState (newSnakeAI 5 4 42 0) off = None).
Proof.
  assert (H : Z.rem 5 2 ≠ 0 ∨ Z.rem 4 2 ≠ 0) by (left; intros E; discriminate E).
  split; [exact H|]. exact (odd_grid_never_initialises 5 4 42 0 H).
Defined.

(** ** Start states and returned moves *)

(** The cell at index [j - 1], read around the cycle, comes just before the
    cell at index [j]. *)
Lemma cpairs_before {A} (l : list A) (j : Z) (a b : A) :
  0 ≤ j < Z.of_nat (length l) →
  l !! Z.to_nat ((j - 1) mod Z.of_nat (length l)) = Some a →
  l !! Z.to_nat j = Some b →
  (a, b) ∈ cpairs l.
Proof.
  intros Hj Ha Hb. apply (cpairs_lookup l _ a b Ha).
  destruct (decide (j = 0)) as [->|Hne].
  - replace ((0 - 1) mod Z.of_nat (length l)) with (Z.of_nat (length l) - 1).
    + replace (S (Z.to_nat (Z.of_nat (length l) - 1))) with (length l) by lia.
      by rewrite Nat.Div0.mod_same.
    + apply (Z.mod_unique_pos _ _ (-1)); lia.
  - rewrite Z.mod_small in * by lia.
    replace (S (Z.to_nat (j - 1))) with (Z.to_nat j) by lia.
    by rewrite Nat.mod_small by lia.
Qed.

(** The cell at index [j + 1], read around the cycle, comes just after the
    cell at index [j]. *)
Lemma cpairs_after {A} (l : list A) (j : Z) (a b : A) :
  0 ≤ j < Z.of_nat (length l) →
  l !! Z.to_nat j = Some a →
  l !! Z.to_nat ((j + 1) mod Z.of_nat (length l)) = Some b →
  (a, b) ∈ cpairs l.
Proof.
  intros Hj Ha Hb. apply (cpairs_lookup l _ a b Ha).
  destruct (decide (j + 1 = Z.of_nat (length l))) as [E|Hne].
  - rewrite E, Z.mod_same in Hb by lia.
    replace (S (Z.to_nat j)) with (length l) by lia.
    by rewrite Nat.Div0.mod_same.
  - rewrite Z.mod_small in Hb by lia.
    rewrite Nat.mod_small by lia.
    by replace (S (Z.to_nat j)) with (Z.to_nat (j + 1)) by lia.
Qed.

Lemma Built_size (ai : SnakeAI) : Built ai → 4 ≤ cycleLen ai.
Proof.
  intros HB. rewrite (bt_len ai HB).
  pose proof (bt_cols ai HB). pose proof (bt_rows ai HB).
  destruct (proj1 (Z.even_spec _) (bt_ecols ai HB)) as [w Hw].
  destruct (proj1 (Z.even_spec _) (bt_erows ai HB)) as [h Hh].
  nia.
Qed.

(** Changing the seed of a controller keeps it built. *)
Lemma Built_reseed (ai : SnakeAI) (seed' : Z) :
  Built ai →
  Built {| cols := cols ai; rows := rows ai; hamiltonianCycle := hamiltonianCycle ai;
           cycleMap := cycleMap ai; isInitialized := isInitialized ai; seed := seed' |}.
Proof. intros []. by constructor. Qed.

(** What [getStartState] returns on a built controller. *)
Lemma getStartState_Built (ai : SnakeAI) (off : Z) :
  Built ai → 0 ≤ off →
  ∃ st ai' c0 c1 c2 hIdx,
    getStartState ai off = Some (st, ai') ∧
    Built ai' ∧ hamiltonianCycle ai' = hamiltonianCycle ai ∧
    cols ai' = cols ai ∧ rows ai' = rows ai ∧
    seed ai' = Rng.roundDouble (seed ai + 1831565813) ∧
    st_snake st = [c0; c1; c2] ∧ NoDup [c0; c1; c2] ∧
    (∀ c, c ∈ [c0; c1; c2] → inGrid (cols ai) (rows ai) c) ∧
    getCycleIndex ai c0 = Some hIdx ∧ 0 ≤ hIdx ≤ cols ai * rows ai - 4 ∧
    (c1, c0) ∈ cpairs (hamiltonianCycle ai) ∧
    (c2, c1) ∈ cpairs (hamiltonianCycle ai) ∧
    st_dx st = px c0 - px c1 ∧ st_dy st = py c0 - py c1 ∧
    Z.abs (st_dx st) + Z.abs (st_dy st) = 1.
Proof.
  intros HB Hoff. unfold getStartState, ensureInit.
  rewrite (bt_init ai HB). cbn [mbind option_bind].
  pose proof (random_range (seed ai)) as Hk.
  assert (Hseed : (Rng.random (seed ai)).1 = Rng.roundDouble (seed ai + 1831565813))
    by reflexivity.
  destruct (Rng.random (seed ai)) as [seed' k]. cbn [fst snd] in Hk, Hseed. cbv zeta.
  set (ai' := {| cols := cols ai; rows := rows ai;
                 hamiltonianCycle := hamiltonianCycle ai; cycleMap := cycleMap ai;
                 isInitialized := isInitialized ai; seed := seed' |}).
  change (cycleLen ai') with (cycleLen ai).
  change (hamiltonianCycle ai') with (hamiltonianCycle ai).
  pose proof (Built_size ai HB) as HL.
  set (L := cycleLen ai) in *.
  assert (Hrng : 0 ≤ Z.rem (k + off) Rng.two32 < Rng.two32).
  { rewrite Z.rem_mod_nonneg by (unfold Rng.two32; lia).
    apply Z.mod_pos_bound. reflexivity. }
  pose proof (scale_range _ (L - 3) Hrng ltac:(lia)) as Hh.
  set (hIdx := Rng.scale (Z.rem (k + off) Rng.two32) (L - 3)) in *.
  assert (Hcell : ∀ i, 0 ≤ i ≤ 2 →
            jsIndex (hamiltonianCycle ai) (jsRem (Some (hIdx - i + L)) L) =
            hamiltonianCycle ai !! Z.to_nat ((hIdx - i) mod L) ∧
            is_Some (hamiltonianCycle ai !! Z.to_nat ((hIdx - i) mod L))).
  { intros i Hi. unfold jsRem, jsIndex. cbn [mbind option_bind].
    rewrite (proj2 (Z.eqb_neq L 0)) by lia. cbn [mbind option_bind].
    rewrite Z.rem_mod_nonneg by lia.
    replace ((hIdx - i + L) mod L) with ((hIdx - i) mod L)
      by (rewrite <- (Z.mod_add (hIdx - i) 1 L) by lia; f_equal; lia).
    pose proof (Z.mod_pos_bound (hIdx - i) L ltac:(lia)) as Hm.
    rewrite (proj2 (Z.ltb_ge _ _)) by lia. split; [done|].
    apply lookup_lt_is_Some_2. unfold L, cycleLen in *. lia. }
  destruct (Hcell 0 ltac:(lia)) as [E0 [c0 Hc0]].
  destruct (Hcell 1 ltac:(lia)) as [E1 [c1 Hc1]].
  destruct (Hcell 2 ltac:(lia)) as [E2 [c2 Hc2]].
  rewrite E0, Hc0. cbn [mbind option_bind].
  rewrite E1, Hc1. cbn [mbind option_bind].
  rewrite E2, Hc2. cbn [mbind option_bind].
  replace (hIdx - 0) with hIdx in Hc0 by lia.
  rewrite Z.mod_small in Hc0 by lia.
  assert (Hadj10 : (c1, c0) ∈ cpairs (hamiltonianCycle ai)).
  { apply (cpairs_before _ hIdx); [unfold L, cycleLen in *; lia|exact Hc1|exact Hc0]. }
  assert (Hadj21 : (c2, c1) ∈ cpairs (hamiltonianCycle ai)).
  { pose proof (Z.mod_pos_bound (hIdx - 1) L ltac:(lia)) as Hm.
    apply (cpairs_before _ ((hIdx - 1) mod L));
      [unfold L, cycleLen in *; lia| |exact Hc1].
    fold (cycleLen ai). fold L.
    replace (((hIdx - 1) mod L - 1) mod L) with ((hIdx - 2) mod L); [exact Hc2|].
    rewrite Zminus_mod_idemp_l. f_equal. lia. }
  assert (Hnd : NoDup [c0; c1; c2]).
  { assert (Hinj : ∀ (i j : nat) x, hamiltonianCycle ai !! i = Some x →
                     hamiltonianCycle ai !! j = Some x → i = j)
      by (intros i j x; apply NoDup_lookup, (bt_nodup ai HB)).
    assert (H1 : (hIdx - 1) mod L ≠ hIdx).
    { destruct (decide (hIdx = 0)) as [->|].
      - replace ((0 - 1) mod L) with (L - 1); [lia|].
        apply (Z.mod_unique_pos _ _ (-1)); lia.
      - rewrite Z.mod_small; lia. }
    assert (H2 : (hIdx - 2) mod L ≠ hIdx).
    { destruct (decide (hIdx < 2)).
      - replace ((hIdx - 2) mod L) with (hIdx - 2 + L); [lia|].
        apply (Z.mod_unique_pos _ _ (-1)); lia.
      - rewrite Z.mod_small; lia. }
    assert (H3 : (hIdx - 2) mod L ≠ (hIdx - 1) mod L).
    { destruct (decide (hIdx < 2)); [destruct (decide (hIdx = 0)) as [->|]|].
      - replace ((0 - 2) mod L) with (L - 2)
          by (apply (Z.mod_unique_pos _ _ (-1)); lia).
        replace ((0 - 1) mod L) with (L - 1)
          by (apply (Z.mod_unique_pos _ _ (-1)); lia).
        lia.
      - replace ((hIdx - 2) mod L) with (hIdx - 2 + L)
          by (apply (Z.mod_unique_pos _ _ (-1)); lia).
        rewrite (Z.mod_small (hIdx - 1)); lia.
      - rewrite !Z.mod_small; lia. }
    pose proof (Z.mod_pos_bound (hIdx - 1) L ltac:(lia)).
    pose proof (Z.mod_pos_bound (hIdx - 2) L ltac:(lia)).
    apply NoDup_cons. split.
    - intros Hin. apply elem_of_cons in Hin as [->|Hin].
      + pose proof (Hinj _ _ _ Hc0 Hc1). lia.
      + apply list_elem_of_singleton in Hin as ->.
        pose proof (Hinj _ _ _ Hc0 Hc2). lia.
    - apply NoDup_cons. split; [|apply NoDup_singleton].
      intros Hin. apply list_elem_of_singleton in Hin as ->.
      pose proof (Hinj _ _ _ Hc1 Hc2). lia. }
  assert (Hgrid : ∀ c, c ∈ [c0; c1; c2] → inGrid (cols ai) (rows ai) c).
  { intros c Hc. apply (bt_cells ai HB).
    apply elem_of_cons in Hc as [->|Hc]; [by eapply list_elem_of_lookup_2|].
    apply elem_of_cons in Hc as [->|Hc]; [by eapply list_elem_of_lookup_2|].
    apply list_elem_of_singleton in Hc as ->. by eapply list_elem_of_lookup_2. }
  exists {| st_snake := [c0; c1; c2]; st_dx := px c0 - px c1; st_dy := py c0 - py c1 |},
         ai', c0, c1, c2, hIdx.
  split; [reflexivity|]. split; [by apply Built_reseed|].
  cbn [st_snake st_dx st_dy]. split_and!; try done.
  - rewrite (Built_lookup_index ai _ c0 HB Hc0). f_equal. lia.
  - lia.
  - rewrite <- (bt_len ai HB). fold L. lia.
  - pose proof (bt_adj ai HB c1 c0 Hadj10) as Ha. unfold adjacent4 in Ha. lia.
Qed.

(** The sum of two doubles is exact as long as it is at most [2^53] in
    magnitude. *)
Lemma roundDouble_exact (z : Z) :
  Z.abs z ≤ 9007199254740992 → Rng.roundDouble z = z.
Proof.
  intros Hz. unfold Rng.roundDouble. cbv zeta.
  by rewrite (proj2 (Z.leb_le _ _) Hz).
Qed.

(** Beyond [2^53] the sum is rounded to a multiple of the spacing of the
    doubles there, at most half a spacing away. *)
Lemma roundDouble_near (z : Z) :
  9007199254740992 < Z.abs z →
  ∃ q, Rng.roundDouble z = q * 2 ^ (Z.log2 (Z.abs z) - 52) ∧
    2 * Z.abs (Rng.roundDouble z - z) ≤ 2 ^ (Z.log2 (Z.abs z) - 52).
Proof.
  intros Hz. unfold Rng.roundDouble. cbv zeta.
  rewrite (proj2 (Z.leb_gt _ _) Hz).
  set (a := Z.abs z) in *.
  assert (Hl : 53 ≤ Z.log2 a).
  { apply Z.log2_le_pow2; [lia|]. change (2 ^ 53) with 9007199254740992. lia. }
  set (ulp := 2 ^ (Z.log2 a - 52)).
  assert (Hu : 0 < ulp) by (apply Z.pow_pos_nonneg; lia).
  pose proof (Z.div_mod a ulp ltac:(lia)) as Hdm.
  pose proof (Z.mod_pos_bound a ulp Hu) as Hr.
  set (q := a / ulp) in *. set (r := a mod ulp) in *.
  set (q' := if 2 * r <? ulp then q
             else if ulp <? 2 * r then q + 1
             else if Z.even q then q else q + 1).
  exists (Z.sgn z * q'). split; [lia|].
  assert (Hq : 2 * Z.abs (q' * ulp - a) ≤ ulp).
  { unfold q'. repeat case_match;
      repeat match goal with
      | H : (_ <? _) = true |- _ => apply Z.ltb_lt in H
      | H : (_ <? _) = false |- _ => apply Z.ltb_ge in H
      end; nia. }
  destruct (Z.abs_spec z) as [[Hs Ha]|[Hs Ha]]; fold a in Ha.
  - rewrite Z.sgn_pos by lia. replace z with a by lia. lia.
  - rewrite Z.sgn_neg by lia. replace z with (- a) by lia.
    replace (-1 * (q' * ulp) - - a) with (- (q' * ulp - a)) by lia.
    rewrite Z.abs_opp. lia.
Qed.

(** The first seed at which the addition rounds: the exact sum is odd, and
    the double returned is the even neighbour below it. *)
Lemma roundDouble_at_2_53 :
  Rng.roundDouble (9007199254740992 + 1831565813) = 9007201086306804.
Proof. reflexivity. Qed.

(** X12. [getStartState], on a built controller and for an offset that is not
    negative, draws one number from the seeded stream, which adds
    [0x6D2B79F5] to the seed as doubles are added (exactly, as long as the
    sum is at most [2^53] in magnitude), and returns a body of three
    distinct cells of the grid that follow each other on the cycle, the
    head foremost and not among the last three cells of the cycle array,
    with the direction from the second cell to the head, which is one step
    along an axis. *)
Theorem getStartState_spec (ai : SnakeAI) (off : Z) :
  Built ai → 0 ≤ off →
  ∃ st ai' c0 c1 c2 hIdx,
    getStartState ai off = Some (st, ai') ∧
    Built ai' ∧ hamiltonianCycle ai' = hamiltonianCycle ai ∧
    cols ai' = cols ai ∧ rows ai' = rows ai ∧
    seed ai' = Rng.roundDouble (seed ai + 1831565813) ∧
    (Z.abs (seed ai + 1831565813) ≤ 9007199254740992 →
     seed ai' = seed ai + 1831565813) ∧
    st_snake st = [c0; c1; c2] ∧ NoDup [c0; c1; c2] ∧
    (∀ c, c ∈ [c0; c1; c2] → inGrid (cols ai) (rows ai) c) ∧
    getCycleIndex ai c0 = Some hIdx ∧ 0 ≤ hIdx ≤ cols ai * rows ai - 4 ∧
    (c1, c0) ∈ cpairs (hamiltonianCycle ai) ∧
    (c2, c1) ∈ cpairs (hamiltonianCycle ai) ∧
    adjacent4 c1 c0 ∧ adjacent4 c2 c1 ∧
    st_dx st = px c0 - px c1 ∧ st_dy st = py c0 - py c1 ∧
    Z.abs (st_dx st) + Z.abs (st_dy st) = 1.
Proof.
  intros HB Hoff.
  destruct (getStartState_Built ai off HB Hoff)
    as (st & ai' & c0 & c1 & c2 & hIdx & H1 & H2 & H3 & H4 & H5 & H6 & H7 & H8 &
        H9 & H10 & H11 & H12 & H13 & H14 & H15 & H16).
  exists st, ai', c0, c1, c2, hIdx.
  pose proof (bt_adj ai HB c1 c0 H12) as Ha. pose proof (bt_adj ai HB c2 c1 H13) as Hb.
  split_and!; try done; try lia.
  intros Hs. rewrite H6. by apply roundDouble_exact.
Qed.

Lemma getStartState_spec_witness :
  Built demoAI ∧ 0 ≤ 2147483648 ∧
  ∃ st ai' c0 c1 c2 hIdx,
    getStartState demoAI 2147483648 = Some (st, ai') ∧
    Built ai' ∧ hamiltonianCycle ai' = hamiltonianCycle demoAI ∧
    cols ai' = cols demoAI ∧ rows ai' = rows demoAI ∧
    seed ai' = Rng.roundDouble (seed demoAI + 1831565813) ∧
    (Z.abs (seed demoAI + 1831565813) ≤ 9007199254740992 →
     seed ai' = seed demoAI + 1831565813) ∧
    st_snake st = [c0; c1; c2] ∧ NoDup [c0; c1; c2] ∧
    (∀ c, c ∈ [c0; c1; c2] → inGrid (cols demoAI) (rows demoAI) c) ∧
    getCycleIndex demoAI c0 = Some hIdx ∧
    0 ≤ hIdx ≤ cols demoAI * rows demoAI - 4 ∧
    (c1, c0) ∈ cpairs (hamiltonianCycle demoAI) ∧
    (c2, c1) ∈ cpairs (hamiltonianCycle demoAI) ∧
    adjacent4 c1 c0 ∧ adjacent4 c2 c1 ∧
    st_dx st = px c0 - px c1 ∧ st_dy st = py c0 - py c1 ∧
    Z.abs (st_dx st) + Z.abs (st_dy st) = 1.
Proof.
  split; [exact demoAI_Built|]. split; [lia|].
  apply (getStartState_spec demoAI 2147483648 demoAI_Built). lia.
Defined.

(** An initialised controller is not changed by [getNextMove]. *)
Lemma getNextMove_keeps_ai (ai : SnakeAI) (snake foods : list pos) (poison : option pos)
    (obstacles : list pos) (id : Z) (targets : option targets_t) (d : decision) :
  isInitialized ai = true →
  getNextMove ai snake foods poison obstacles id targets = Some d → dec_ai d = ai.
Proof.
  intros Hi. unfold getNextMove, ensureInit. rewrite Hi. cbn [mbind option_bind].
  destruct (head snake) as [h|]; [|done]. cbn [mbind option_bind].
  destruct (jsIndex _ _) as [nextPos|]; [|done]. cbn [mbind option_bind].
  destruct (bool_decide _); [by intros [= <-]|].
  destruct (isSafePath _ _ _ _) as [safe|]; [|done]. cbn [mbind option_bind].
  destruct safe; cbn [negb]; [|by intros [= <-]].
  destruct (findNearestFood _ _ _ _ _) as [[food|] tt]; [|by intros [= <-]].
  destruct (findShortcut _ _ _ _ _ _ _) as [[sc|]|]; cbn [mbind option_bind];
    [by intros [= <-]|by intros [= <-]|done].
Qed.

(** The cell that a survival move leads to. *)
Lemma survive_target (ai : SnakeAI) (h : pos) (snake : list pos)
    (obstaclesSet : gset pos) (reason : string) (m : Move) :
  survive ai h snake obstaclesSet reason = Some m →
  (px h + mv_x m, py h + mv_y m) ∈ getNeighbors ai h ∧
  ((px h + mv_x m, py h + mv_y m) ∉ snake) ∧
  (px h + mv_x m, py h + mv_y m) ∉ obstaclesSet.
Proof.
  intros Hs. pose proof (survive_spec ai h snake obstaclesSet reason) as H.
  rewrite Hs in H. destruct H as (b & Hb & Hbs & Hbo & -> & _).
  cbn [mv_x mv_y]. destruct b as [bx by']. cbn [px py fst snd].
  replace (px h + (bx - px h)) with bx by lia.
  replace (py h + (by' - py h)) with by' by lia. done.
Qed.

(** Where a returned move leads. *)
Lemma getNextMove_target (ai : SnakeAI) (snake foods : list pos)
    (poison : option pos) (obstacles : list pos) (id : Z)
    (targets : option targets_t) (h : pos) (d : decision) (m : Move) :
  Built ai → head snake = Some h → inGrid (cols ai) (rows ai) h →
  getNextMove ai snake foods poison obstacles id targets = Some d →
  dec_move d = Some m →
  inGrid (cols ai) (rows ai) (px h + mv_x m, py h + mv_y m) ∧
  adjacent4 h (px h + mv_x m, py h + mv_y m) ∧
  ((px h + mv_x m, py h + mv_y m) ∉ mkObstaclesSet obstacles poison) ∧
  (mv_type m = "survival" → (px h + mv_x m, py h + mv_y m) ∉ snake).
Proof.
  intros HB Hh Hin. pose proof (Built_onCycle ai h HB Hin) as Hon.
  unfold getNextMove, ensureInit. rewrite (bt_init ai HB).
  cbn [mbind option_bind]. rewrite Hh. cbn [mbind option_bind].
  destruct (cycleAhead_Some ai h 1 Hon) as [nextPos Hnext].
  rewrite (nextOnCycle_ahead ai h Hon), Hnext. cbn [mbind option_bind].
  assert (Hsur : ∀ reason,
    survive ai h snake (mkObstaclesSet obstacles poison) reason = Some m →
    inGrid (cols ai) (rows ai) (px h + mv_x m, py h + mv_y m) ∧
    adjacent4 h (px h + mv_x m, py h + mv_y m) ∧
    ((px h + mv_x m, py h + mv_y m) ∉ mkObstaclesSet obstacles poison) ∧
    (mv_type m = "survival" → (px h + mv_x m, py h + mv_y m) ∉ snake)).
  { intros reason Hs. apply survive_target in Hs as (Hn & Hns & Hno).
    apply elem_of_getNeighbors in Hn as [Hg Ha]. done. }
  assert (Hnb : ∀ n, n ∈ getNeighbors ai h →
    (px h + (px n - px h), py h + (py n - py h)) = n).
  { intros [nx ny] _. cbn [px py fst snd]. f_equal; lia. }
  destruct (bool_decide (nextPos ∈ _)) eqn:Eblk.
  { intros [= <-] Hm. cbn [dec_move] in Hm. by eapply Hsur. }
  apply bool_decide_eq_false_1 in Eblk.
  destruct (isSafePath_spec ai h 5 obstacles Hon) as (safe & -> & _).
  cbn [mbind option_bind].
  destruct safe; cbn [negb].
  2:{ intros [= <-] Hm. cbn [dec_move] in Hm. by eapply Hsur. }
  assert (Hcyc : inGrid (cols ai) (rows ai) nextPos ∧ adjacent4 h nextPos).
  { destruct Hon as (hIdx & Ei & Hr).
    unfold cycleAhead in Hnext. rewrite Ei in Hnext. cbn [mbind option_bind] in Hnext.
    destruct (Built_index_lookup ai h hIdx HB Ei) as [_ Hl].
    split.
    - apply (bt_cells ai HB). by eapply list_elem_of_lookup_2.
    - apply (bt_adj ai HB). apply (cpairs_after _ hIdx); [exact Hr|exact Hl|exact Hnext]. }
  assert (Hcm : ∀ mm, mm = {| mv_x := px nextPos - px h; mv_y := py nextPos - py h;
                             mv_type := "cycle"; mv_reason := None; mv_score := None |} →
    inGrid (cols ai) (rows ai) (px h + mv_x mm, py h + mv_y mm) ∧
    adjacent4 h (px h + mv_x mm, py h + mv_y mm) ∧
    ((px h + mv_x mm, py h + mv_y mm) ∉ mkObstaclesSet obstacles poison) ∧
    (mv_type mm = "survival" → (px h + mv_x mm, py h + mv_y mm) ∉ snake)).
  { intros mm ->. cbn [mv_x mv_y mv_type]. destruct nextPos as [nx ny].
    cbn [px py fst snd] in *.
    replace (px h + (nx - px h)) with nx by lia.
    replace (py h + (ny - py h)) with ny by lia.
    destruct Hcyc. split_and!; try done. }
  destruct (findNearestFood ai h foods id targets) as [[food|] tt].
  2:{ intros [= <-] Hm. cbn [dec_move] in Hm. injection Hm as <-. by apply Hcm. }
  unfold findShortcut. destruct (last snake) as [tail|]; [|done].
  cbn [mbind option_bind]. rewrite firstShortcut_find.
  destruct (find _ _) as [sc|] eqn:Ef.
  2:{ intros [= <-] Hm. cbn [dec_move] in Hm. injection Hm as <-. by apply Hcm. }
  intros [= <-] Hm. cbn [dec_move] in Hm. injection Hm as <-.
  cbn [mv_x mv_y mv_type].
  apply find_some in Ef as [Hsc Hok]. apply list_elem_of_In in Hsc.
  rewrite (Hnb sc Hsc).
  apply elem_of_getNeighbors in Hsc as [Hg Ha].
  split_and!; try done.
  unfold shortcutOk in Hok.
  destruct (bool_decide (sc ∈ _)) eqn:Eo; [done|].
  by apply bool_decide_eq_false_1 in Eo.
Qed.

(** X13. A move returned by [getNextMove] on a built controller, for a head on
    the grid, leads to a cell of the grid next to the head that is not an
    obstacle; a survival move leads to a cell that is not on the body
    either. So an agent that is given a move does not leave the grid and
    does not run into an obstacle it was told of. The call leaves the
    controller as it was. *)
Theorem returned_move_is_safe (ai : SnakeAI) (snake foods : list pos)
    (poison : option pos) (obstacles : list pos) (id : Z)
    (targets : option targets_t) (h : pos) (d : decision) (m : Move) :
  Built ai → head snake = Some h → inGrid (cols ai) (rows ai) h →
  getNextMove ai snake foods poison obstacles id targets = Some d →
  dec_move d = Some m →
  dec_ai d = ai ∧
  inGrid (cols ai) (rows ai) (px h + mv_x m, py h + mv_y m) ∧
  adjacent4 h (px h + mv_x m, py h + mv_y m) ∧
  ((px h + mv_x m, py h + mv_y m) ∉ mkObstaclesSet obstacles poison) ∧
  (mv_type m = "survival" → (px h + mv_x m, py h + mv_y m) ∉ snake).
Proof.
  intros HB Hh Hin Hd Hm. split.
  - eapply getNextMove_keeps_ai; [apply (bt_init ai HB)|exact Hd].
  - by eapply getNextMove_target.
Qed.

Lemma returned_move_is_safe_witness :
  ∃ d m,
    Built demoAI ∧ head [(2,3); (2,2); (3,2)] = Some (2,3) ∧
    inGrid (cols demoAI) (rows demoAI) (2,3) ∧
    getNextMove demoAI [(2,3); (2,2); (3,2)] [(4,5)] None [(2,4)] 0 None = Some d ∧
    dec_move d = Some m ∧ dec_ai d = demoAI ∧
    inGrid (cols demoAI) (rows demoAI) (px (2,3) + mv_x m, py (2,3) + mv_y m) ∧
    adjacent4 (2,3) (px (2,3) + mv_x m, py (2,3) + mv_y m) ∧
    ((px (2,3) + mv_x m, py (2,3) + mv_y m) ∉ mkObstaclesSet [(2,4)] None) ∧
    (mv_type m = "survival" →
     (px (2,3) + mv_x m, py (2,3) + mv_y m) ∉ [(2,3); (2,2); (3,2)]).
Proof.
  assert (Hin : inGrid (cols demoAI) (rows demoAI) (2,3)).
  { unfold inGrid. split; vm_compute; (split; [intros E; discriminate E|reflexivity]). }
  assert (Hd : ∃ d m, getNextMove demoAI [(2,3); (2,2); (3,2)] [(4,5)] None [(2,4)] 0 None
                      = Some d ∧ dec_move d = Some m).
  { vm_compute. eexists. eexists. split; reflexivity. }
  destruct Hd as (d & m & Hd & Hm). exists d, m.
  split; [exact demoAI_Built|]. split; [reflexivity|]. split; [exact Hin|].
  split; [exact Hd|]. split; [exact Hm|].
  exact (returned_move_is_safe demoAI [(2,3); (2,2); (3,2)] [(4,5)] None [(2,4)] 0 None
           (2,3) d m demoAI_Built eq_refl Hin Hd Hm).
Defined.

(** ** The decisions in the words of the design *)

(** [b] is the cell that comes [k] steps after [a] when the cycle array is
    read round and round. *)
Definition cycleStep (ai : SnakeAI) (a : pos) (k : nat) (b : pos) : Prop :=
  ∃ i : nat, hamiltonianCycle ai !! i = Some a ∧
    hamiltonianCycle ai !! ((i + k) mod length (hamiltonianCycle ai))%nat = Some b.

(** The forward distance from [a] to [b] on the cycle: the number of steps,
    fewer than the cycle has cells, after which [b] comes. *)
Definition cycleDist (ai : SnakeAI) (a b : pos) (d : nat) : Prop :=
  (d < length (hamiltonianCycle ai))%nat ∧ cycleStep ai a d b.

(** [n] is a cell of the body other than its last cell. *)
Definition onOwnBody (snake : list pos) (n : pos) : Prop :=
  ∃ i : nat, (S i < length snake)%nat ∧ snake !! i = Some n.

(** A cell is obstructed when it is in the obstacle list or is the poison. *)
Definition obstructed (obstacles : list pos) (poison : option pos) (c : pos) : Prop :=
  c ∈ obstacles ∨ poison = Some c.

#[global] Instance obstructed_dec obstacles poison c :
  Decision (obstructed obstacles poison c).
Proof. unfold obstructed. apply _. Defined.

#[global] Instance inGrid_dec w h p : Decision (inGrid w h p).
Proof. unfold inGrid. apply _. Defined.

#[global] Instance adjacent4_dec a b : Decision (adjacent4 a b).
Proof. unfold adjacent4. apply _. Defined.

(** The 25 cells of the 5 by 5 window around [p]. *)
Definition window5 (p : pos) : list pos :=
  concat ((fun dy => (fun dx => (px p + dx, py p + dy)) <$> [-2; -1; 0; 1; 2])
            <$> [-2; -1; 0; 1; 2]).

(** The penalty of the cell [c] of the window of [p]: nothing for [p]
    itself, 5 for a cell off the grid, and for an obstructed cell of the
    grid 20 when it is next to [p] and 10 otherwise. *)
Definition penalty (w h : Z) (obstacles : list pos) (poison : option pos)
    (p c : pos) : Z :=
  if bool_decide (c = p) then 0
  else if bool_decide (inGrid w h c) then
    (if bool_decide (obstructed obstacles poison c)
     then (if bool_decide (adjacent4 p c) then 20 else 10)
     else 0)
  else 5.

(** The danger score of [p]: the sum of the penalties over its window. *)
Definition dangerOf (w h : Z) (obstacles : list pos) (poison : option pos)
    (p : pos) : Z :=
  sumZ (penalty w h obstacles poison p <$> window5 p).

Lemma cycleAhead_step (ai : SnakeAI) (a b : pos) (k : nat) :
  Built ai → (cycleAhead ai a k = Some b ↔ cycleStep ai a k b).
Proof.
  intros HB. pose proof (Built_size ai HB) as HL.
  assert (Hmod : ∀ i : nat,
            Z.to_nat ((Z.of_nat i + Z.of_nat k) mod cycleLen ai) =
            ((i + k) mod length (hamiltonianCycle ai))%nat).
  { intros i. unfold cycleLen in *. rewrite <- Nat2Z.inj_add, <- Nat2Z.inj_mod.
    apply Nat2Z.id. }
  unfold cycleAhead, cycleStep. split.
  - destruct (getCycleIndex ai a) as [hIdx|] eqn:Eh; [|done].
    cbn [mbind option_bind]. intros Hb.
    destruct (Built_index_lookup ai a hIdx HB Eh) as [Hr Hl].
    exists (Z.to_nat hIdx). split; [done|].
    rewrite <- Hmod, Z2Nat.id by lia. exact Hb.
  - intros (i & Ha & Hb).
    rewrite (Built_lookup_index ai i a HB Ha). cbn [mbind option_bind].
    by rewrite Hmod.
Qed.

Lemma cycleStep_onCycle (ai : SnakeAI) (a : pos) (k : nat) :
  Built ai → inGrid (cols ai) (rows ai) a → ∃ b, cycleStep ai a k b.
Proof.
  intros HB Ha.
  destruct (cycleAhead_Some ai a k (Built_onCycle ai a HB Ha)) as [b Hb].
  exists b. by apply cycleAhead_step.
Qed.

(** The distance that the code computes from two cycle indices is the
    forward distance on the cycle. *)
Lemma aheadBy_cycleDist (ai : SnakeAI) (a b : pos) (d : Z) :
  Built ai →
  (aheadBy ai (getCycleIndex ai b) (getCycleIndex ai a) = Some d ↔
   0 ≤ d ∧ cycleDist ai a b (Z.to_nat d)).
Proof.
  intros HB. pose proof (Built_size ai HB) as HL.
  unfold aheadBy, cycleDist. split.
  - destruct (getCycleIndex ai b) as [j|] eqn:Eb; [|done].
    destruct (getCycleIndex ai a) as [i|] eqn:Ea; [|done].
    destruct (Built_index_lookup ai a i HB Ea) as [Hi Hla].
    destruct (Built_index_lookup ai b j HB Eb) as [Hj Hlb].
    unfold jsRem. cbn [mbind option_bind].
    rewrite (proj2 (Z.eqb_neq _ _)) by lia. intros [= <-].
    rewrite Z.rem_mod_nonneg by lia.
    pose proof (Z.mod_pos_bound (j - i + cycleLen ai) (cycleLen ai) ltac:(lia)) as Hm.
    split; [lia|]. split; [unfold cycleLen in *; lia|].
    apply cycleAhead_step; [done|]. unfold cycleAhead. rewrite Ea.
    cbn [mbind option_bind]. rewrite Z2Nat.id by lia.
    rewrite Zplus_mod_idemp_r.
    replace (i + (j - i + cycleLen ai)) with (j + 1 * cycleLen ai) by lia.
    rewrite Z.mod_add by lia. by rewrite Z.mod_small by lia.
  - intros (Hd & Hlt & Hs). apply cycleAhead_step in Hs; [|done].
    unfold cycleAhead in Hs.
    destruct (getCycleIndex ai a) as [i|] eqn:Ea; [|done].
    cbn [mbind option_bind] in Hs.
    destruct (Built_index_lookup ai a i HB Ea) as [Hi Hla].
    rewrite Z2Nat.id in Hs by lia.
    pose proof (Z.mod_pos_bound (i + d) (cycleLen ai) ltac:(lia)) as Hm.
    pose proof (Built_lookup_index ai _ b HB Hs) as Eb.
    rewrite Z2Nat.id in Eb by lia. rewrite Eb.
    unfold jsRem. cbn [mbind option_bind].
    rewrite (proj2 (Z.eqb_neq _ _)) by lia. f_equal.
    assert (Hdl : d < cycleLen ai) by (unfold cycleLen; lia).
    rewrite Z.rem_mod_nonneg by lia.
    replace ((i + d) mod cycleLen ai - i + cycleLen ai)
      with (((i + d) mod cycleLen ai - i) + 1 * cycleLen ai) by lia.
    rewrite Z.mod_add by lia.
    destruct (decide (i + d < cycleLen ai)).
    + rewrite (Z.mod_small (i + d)) by lia. rewrite Z.mod_small by lia. lia.
    + replace ((i + d) mod cycleLen ai) with (i + d - cycleLen ai)
        by (apply (Z.mod_unique_pos _ _ 1); lia).
      symmetry. apply (Z.mod_unique_pos _ _ (-1)); lia.
Qed.

(** A cell has at most one forward distance from another. *)
Lemma cycleDist_inj (ai : SnakeAI) (a b : pos) (d d' : nat) :
  Built ai → cycleDist ai a b d → cycleDist ai a b d' → d = d'.
Proof.
  intros HB H1 H2.
  assert (E1 : aheadBy ai (getCycleIndex ai b) (getCycleIndex ai a) = Some (Z.of_nat d))
    by (apply aheadBy_cycleDist; [done|]; rewrite Nat2Z.id; split; [lia|done]).
  assert (E2 : aheadBy ai (getCycleIndex ai b) (getCycleIndex ai a) = Some (Z.of_nat d'))
    by (apply aheadBy_cycleDist; [done|]; rewrite Nat2Z.id; split; [lia|done]).
  rewrite E1 in E2. injection E2. lia.
Qed.

Lemma onBodyButTail_spec (snake : list pos) (n : pos) :
  onBodyButTail snake n = true ↔ onOwnBody snake n.
Proof.
  unfold onBodyButTail, onOwnBody. rewrite existsb_exists. split.
  - intros (p & Hin & Hp). apply pos_eqb_eq in Hp. subst p.
    apply list_elem_of_In, list_elem_of_lookup in Hin as [i Hi].
    apply lookup_take_Some in Hi as [Hi Hlt]. exists i. split; [lia|done].
  - intros (i & Hlt & Hi). exists n. split; [|apply pos_eqb_refl].
    apply list_elem_of_In. apply (list_elem_of_lookup_2 _ i).
    apply lookup_take_Some. split; [done|lia].
Qed.

Lemma elem_of_mkObstaclesSet (obstacles : list pos) (poison : option pos) (c : pos) :
  c ∈ mkObstaclesSet obstacles poison ↔ obstructed obstacles poison c.
Proof.
  unfold mkObstaclesSet, obstructed. cbv zeta. destruct poison as [q|].
  - rewrite elem_of_union, elem_of_singleton, elem_of_list_to_set.
    split; intros [H|H]; auto; [right; by subst|left; by injection H].
  - rewrite elem_of_list_to_set. split; [by left|]. by intros [H|H].
Qed.

Lemma cellDanger_penalty (ai : SnakeAI) (obstacles : list pos) (poison : option pos)
    (p : pos) (dx dy : Z) :
  cellDanger ai p (mkObstaclesSet obstacles poison) dx dy =
  penalty (cols ai) (rows ai) obstacles poison p (px p + dx, py p + dy).
Proof.
  destruct p as [x y]. unfold cellDanger, penalty. cbn [px py fst snd].
  assert (E1 : (dx =? 0) && (dy =? 0) = bool_decide ((x + dx, y + dy) = (x, y))).
  { destruct (_ && _) eqn:E; symmetry.
    - apply andb_true_iff in E as [?%Z.eqb_eq ?%Z.eqb_eq].
      apply bool_decide_eq_true_2. f_equal; lia.
    - apply bool_decide_eq_false_2. intros [= ].
      apply andb_false_iff in E as [?%Z.eqb_neq|?%Z.eqb_neq]; lia. }
  assert (E2 : (x + dx <? 0) || (cols ai <=? x + dx) || (y + dy <? 0) ||
               (rows ai <=? y + dy) =
               negb (bool_decide (inGrid (cols ai) (rows ai) (x + dx, y + dy)))).
  { destruct (_ || _ || _ || _) eqn:E; symmetry.
    - apply negb_true_iff, bool_decide_eq_false_2.
      rewrite !orb_true_iff, !Z.ltb_lt, !Z.leb_le in E.
      unfold inGrid. cbn [px py fst snd]. lia.
    - apply negb_false_iff, bool_decide_eq_true_2.
      rewrite !orb_false_iff, !Z.ltb_ge, !Z.leb_gt in E.
      unfold inGrid. cbn [px py fst snd]. lia. }
  assert (E3 : bool_decide ((x + dx, y + dy) ∈ mkObstaclesSet obstacles poison) =
               bool_decide (obstructed obstacles poison (x + dx, y + dy)))
    by apply bool_decide_ext, elem_of_mkObstaclesSet.
  assert (E4 : (Z.abs dx + Z.abs dy =? 1) =
               bool_decide (adjacent4 (x, y) (x + dx, y + dy))).
  { destruct (Z.eqb_spec (Z.abs dx + Z.abs dy) 1) as [E|E]; symmetry.
    - apply bool_decide_eq_true_2. unfold adjacent4. cbn [px py fst snd]. lia.
    - apply bool_decide_eq_false_2. unfold adjacent4. cbn [px py fst snd]. lia. }
  rewrite E1, E2, E3, E4.
  repeat destruct (bool_decide _); reflexivity.
Qed.

(** The score that [getDangerScore] returns is the danger score. *)
Lemma getDangerScore_dangerOf (ai : SnakeAI) (obstacles : list pos)
    (poison : option pos) (p : pos) :
  getDangerScore ai p (mkObstaclesSet obstacles poison) =
  dangerOf (cols ai) (rows ai) obstacles poison p.
Proof.
  rewrite getDangerScore_sum. unfold dangerOf, window5, radius5.
  cbn [fmap list_fmap concat app sumZ foldr].
  rewrite !cellDanger_penalty. lia.
Qed.

Lemma aheadBy_dist (ai : SnakeAI) (a b : pos) (d : nat) :
  Built ai →
  (aheadBy ai (getCycleIndex ai b) (getCycleIndex ai a) = Some (Z.of_nat d) ↔
   cycleDist ai a b d).
Proof.
  intros HB. rewrite (aheadBy_cycleDist ai a b (Z.of_nat d) HB), Nat2Z.id.
  split; [by intros [_ H]|]. intros H. split; [lia|done].
Qed.

Lemma aheadBy_nat (ai : SnakeAI) (a b : pos) (z : Z) :
  Built ai →
  aheadBy ai (getCycleIndex ai b) (getCycleIndex ai a) = Some z →
  z = Z.of_nat (Z.to_nat z) ∧ cycleDist ai a b (Z.to_nat z).
Proof.
  intros HB H. apply (aheadBy_cycleDist ai a b z HB) in H as [Hz H].
  split; [lia|done].
Qed.

(** A neighbour qualifies as a shortcut, in the words of the design: it is
    unobstructed, it is not on the agent's own body, the tail cell apart,
    its danger score is at most 15, and its forward distance [d] from the
    head on the cycle is more than 1, less than that of the food and less
    than that of the tail. *)
Definition Qualifies (ai : SnakeAI) (snake obstacles : list pos)
    (h food tail n : pos) : Prop :=
  (n ∉ obstacles) ∧ ¬ onOwnBody snake n ∧
  dangerOf (cols ai) (rows ai) obstacles None n ≤ 15 ∧
  ∃ d dFood dTail : nat,
    cycleDist ai h n d ∧ cycleDist ai h food dFood ∧ cycleDist ai h tail dTail ∧
    (1 < d)%nat ∧ (d < dFood)%nat ∧ (d < dTail)%nat.

(** The test that [findShortcut] applies to a neighbour is that one. *)
Lemma shortcutOk_Qualifies (ai : SnakeAI) (snake obstacles : list pos)
    (h food tail n : pos) :
  Built ai →
  (shortcutOk ai (getCycleIndex ai h)
     (aheadBy ai (getCycleIndex ai food) (getCycleIndex ai h))
     (aheadBy ai (getCycleIndex ai tail) (getCycleIndex ai h))
     snake (mkObstaclesSet obstacles None) n = true ↔
   Qualifies ai snake obstacles h food tail n).
Proof.
  intros HB. unfold shortcutOk, Qualifies.
  rewrite (bool_decide_ext _ _ (elem_of_mkObstaclesSet obstacles None n)).
  rewrite getDangerScore_dangerOf.
  assert (Hobs : obstructed obstacles None n ↔ n ∈ obstacles).
  { unfold obstructed. split; [by intros [?|?]|by left]. }
  destruct (decide (obstructed obstacles None n)) as [Ho|Ho].
  { rewrite (bool_decide_eq_true_2 _ Ho). split; [done|].
    intros [Hn _]. exfalso. by apply Hn, Hobs. }
  rewrite (bool_decide_eq_false_2 _ Ho).
  destruct (Z.ltb_spec 15 (dangerOf (cols ai) (rows ai) obstacles None n)) as [Hd|Hd].
  { split; [done|]. intros (_ & _ & Hle & _). exfalso. lia. }
  destruct (getCycleIndex ai n) as [nIdx|] eqn:En.
  2:{ split; [done|]. intros (_ & _ & _ & d & dF & dT & Hdn & _).
      apply (aheadBy_dist ai h n d HB) in Hdn. rewrite En in Hdn.
      exfalso. unfold aheadBy in Hdn. done. }
  destruct (onBodyButTail snake n) eqn:Eb.
  { apply onBodyButTail_spec in Eb. split; [done|]. intros (_ & Hnb & _).
    exfalso. by apply Hnb. }
  assert (Hnb : ¬ onOwnBody snake n).
  { rewrite <- onBodyButTail_spec. by rewrite Eb. }
  rewrite <- En. rewrite !andb_true_iff. split.
  - intros [[H1 H2] H3].
    destruct (aheadBy ai (getCycleIndex ai n) (getCycleIndex ai h)) as [d|] eqn:Ed;
      [|done].
    destruct (aheadBy ai (getCycleIndex ai food) (getCycleIndex ai h)) as [dF|] eqn:EF;
      [|done].
    destruct (aheadBy ai (getCycleIndex ai tail) (getCycleIndex ai h)) as [dT|] eqn:ET;
      [|done].
    cbn [ltNum] in H1, H2, H3. apply Z.ltb_lt in H1, H2, H3.
    apply (aheadBy_nat ai h n d HB) in Ed as [Ed1 Ed2].
    apply (aheadBy_nat ai h food dF HB) in EF as [EF1 EF2].
    apply (aheadBy_nat ai h tail dT HB) in ET as [ET1 ET2].
    split; [by rewrite <- Hobs|]. split; [done|]. split; [done|].
    exists (Z.to_nat d), (Z.to_nat dF), (Z.to_nat dT). split_and!; try done; lia.
  - intros (_ & _ & _ & d & dF & dT & Hdn & HdF & HdT & H1 & H2 & H3).
    apply (aheadBy_dist ai h n d HB) in Hdn.
    apply (aheadBy_dist ai h food dF HB) in HdF.
    apply (aheadBy_dist ai h tail dT HB) in HdT.
    rewrite Hdn, HdF, HdT. cbn [ltNum]. rewrite !Z.ltb_lt. lia.
Qed.

(** What [find] returns: the first element that passes the test. *)
Lemma find_first {A} (f : A → bool) (l : list A) :
  match find f l with
  | Some x => ∃ before after, l = before ++ x :: after ∧ f x = true ∧
                ∀ y, y ∈ before → f y = false
  | None => ∀ y, y ∈ l → f y = false
  end.
Proof.
  induction l as [|a l IH]; cbn [find].
  - intros y Hy. by apply elem_of_nil in Hy.
  - destruct (f a) eqn:Ea.
    + exists [], l. split; [done|]. split; [done|].
      intros y Hy. by apply elem_of_nil in Hy.
    + destruct (find f l) as [x|].
      * destruct IH as (before & after & -> & Hx & Hb).
        exists (a :: before), after. split; [done|]. split; [done|].
        intros y Hy. apply elem_of_cons in Hy as [->|Hy]; [done|by apply Hb].
      * intros y Hy. apply elem_of_cons in Hy as [->|Hy]; [done|by apply IH].
Qed.

(** C3. On a built controller, for a snake whose head is a cell of the
    grid: when the cells one to five steps ahead on the cycle are not
    obstacles and a nearest unclaimed food is found, [getNextMove] returns
    the move, of type "shortcut", to the first neighbour of the head, in the
    order up, down, left, right, that qualifies as a shortcut, and the move
    along the cycle, of type "cycle", when no neighbour qualifies. With no
    obstacle at all and the food one step ahead on the cycle, it returns the
    move along the cycle. *)
Theorem shortcut_selection (ai : SnakeAI) (snake foods obstacles : list pos)
    (id : Z) (targets : option targets_t) (h tail food : pos) :
  Built ai → head snake = Some h → last snake = Some tail →
  inGrid (cols ai) (rows ai) h →
  (findNearestFood ai h foods id targets).1 = Some food →
  ∃ nextPos, cycleStep ai h 1 nextPos ∧
    ((∀ (k : nat) p, (1 ≤ k ≤ 5)%nat → cycleStep ai h k p → p ∉ obstacles) →
     ∃ mv,
       getNextMove ai snake foods None obstacles id targets =
         Some {| dec_move := Some mv;
                 dec_targets := (findNearestFood ai h foods id targets).2;
                 dec_ai := ai |} ∧
       ((∃ before n after,
           neighboursUDLR ai h = before ++ n :: after ∧
           Qualifies ai snake obstacles h food tail n ∧
           (∀ m, m ∈ before → ¬ Qualifies ai snake obstacles h food tail m) ∧
           mv = shortcutMove h n) ∨
        ((∀ m, m ∈ neighboursUDLR ai h →
               ¬ Qualifies ai snake obstacles h food tail m) ∧
         mv = cycleMove h nextPos))) ∧
    (cycleDist ai h food 1 →
     dec_move <$> getNextMove ai snake foods None [] id targets =
       Some (Some (cycleMove h nextPos))).
Proof.
  intros HB Hh Ht Hin Hfood.
  pose proof (Built_onCycle ai h HB Hin) as Hon.
  destruct (cycleAhead_Some ai h 1 Hon) as [nextPos Hnext].
  exists nextPos. split; [by apply cycleAhead_step|].
  assert (Hgen : ∀ obs,
    (∀ (k : nat) p, (1 ≤ k ≤ 5)%nat → cycleStep ai h k p → p ∉ obs) →
    ∃ mv,
      getNextMove ai snake foods None obs id targets =
        Some {| dec_move := Some mv;
                dec_targets := (findNearestFood ai h foods id targets).2;
                dec_ai := ai |} ∧
      ((∃ before n after,
          neighboursUDLR ai h = before ++ n :: after ∧
          Qualifies ai snake obs h food tail n ∧
          (∀ m, m ∈ before → ¬ Qualifies ai snake obs h food tail m) ∧
          mv = shortcutMove h n) ∨
       ((∀ m, m ∈ neighboursUDLR ai h → ¬ Qualifies ai snake obs h food tail m) ∧
        mv = cycleMove h nextPos))).
  { intros obs Hclear.
    assert (Hclear' : ∀ (i : nat) p, (1 ≤ i ≤ 5)%nat →
              cycleAhead ai h i = Some p → p ∉ obs).
    { intros i p Hi Hp. apply (Hclear i p Hi). by apply cycleAhead_step. }
    unfold getNextMove, ensureInit. rewrite (bt_init ai HB).
    cbn [mbind option_bind]. rewrite Hh. cbn [mbind option_bind].
    rewrite (nextOnCycle_ahead ai h Hon), Hnext. cbn [mbind option_bind].
    assert (Hn1 : nextPos ∉ obs) by (apply (Hclear' 1%nat); [lia|done]).
    rewrite bool_decide_eq_false_2 by (by rewrite mkObstaclesSet_None).
    destruct (isSafePath_spec ai h 5 obs Hon) as (safe & -> & Hsafe).
    cbn [mbind option_bind].
    rewrite (proj2 Hsafe Hclear'). cbn [negb].
    destruct (findNearestFood ai h foods id targets) as [tf tt] eqn:Ef.
    cbn [fst snd] in *. subst tf.
    unfold findShortcut. rewrite Ht. cbn [mbind option_bind].
    rewrite firstShortcut_find, getNeighbors_UDLR.
    pose proof (find_first
      (shortcutOk ai (getCycleIndex ai h)
         (aheadBy ai (getCycleIndex ai food) (getCycleIndex ai h))
         (aheadBy ai (getCycleIndex ai tail) (getCycleIndex ai h))
         snake (mkObstaclesSet obs None)) (neighboursUDLR ai h)) as Hfind.
    destruct (find _ (neighboursUDLR ai h)) as [n|].
    - destruct Hfind as (before & after & El & Hq & Hb).
      eexists. split; [reflexivity|]. left. exists before, n, after.
      split; [done|]. split; [by apply shortcutOk_Qualifies|]. split; [|done].
      intros m Hm Hqm. apply (shortcutOk_Qualifies ai snake obs h food tail m HB) in Hqm.
      rewrite (Hb m Hm) in Hqm. done.
    - eexists. split; [reflexivity|]. right. split; [|done].
      intros m Hm Hqm. apply (shortcutOk_Qualifies ai snake obs h food tail m HB) in Hqm.
      rewrite (Hfind m Hm) in Hqm. done. }
  split; [apply Hgen|].
  intros Hd. destruct (Hgen []) as (mv & -> & Hmv).
  { intros k p _ _ Hp. by apply elem_of_nil in Hp. }
  cbn [fmap option_fmap option_map dec_move]. do 2 f_equal.
  destruct Hmv as [(before & n & after & _ & Hq & _)|[_ ->]]; [|done].
  destruct Hq as (_ & _ & _ & d & dF & dT & _ & HdF & _ & H1 & H2 & _).
  pose proof (cycleDist_inj ai h food dF 1 HB HdF Hd). lia.
Qed.

Lemma shortcut_selection_witness :
  Built demoAI ∧ head [(2,3); (2,2); (3,2)] = Some (2,3) ∧
  last [(2,3); (2,2); (3,2)] = Some (3,2) ∧ inGrid (cols demoAI) (rows demoAI) (2,3) ∧
  (findNearestFood demoAI (2,3) [(4,5)] 0 (Some ∅)).1 = Some (4,5) ∧
  ∃ nextPos, cycleStep demoAI (2,3) 1 nextPos ∧
    ∃ mv,
      getNextMove demoAI [(2,3); (2,2); (3,2)] [(4,5)] None [] 0 (Some ∅) =
        Some {| dec_move := Some mv;
                dec_targets := (findNearestFood demoAI (2,3) [(4,5)] 0 (Some ∅)).2;
                dec_ai := demoAI |} ∧
      ((∃ before n after,
          neighboursUDLR demoAI (2,3) = before ++ n :: after ∧
          Qualifies demoAI [(2,3); (2,2); (3,2)] [] (2,3) (4,5) (3,2) n ∧
          (∀ m, m ∈ before →
                ¬ Qualifies demoAI [(2,3); (2,2); (3,2)] [] (2,3) (4,5) (3,2) m) ∧
          mv = shortcutMove (2,3) n) ∨
       ((∀ m, m ∈ neighboursUDLR demoAI (2,3) →
              ¬ Qualifies demoAI [(2,3); (2,2); (3,2)] [] (2,3) (4,5) (3,2) m) ∧
        mv = cycleMove (2,3) nextPos)).
Proof.
  assert (Hin : inGrid (cols demoAI) (rows demoAI) (2,3)).
  { unfold inGrid. replace (cols demoAI) with 6 by (vm_compute; reflexivity).
    replace (rows demoAI) with 6 by (vm_compute; reflexivity).
    cbn [px py fst snd]. lia. }
  assert (Hf : (findNearestFood demoAI (2,3) [(4,5)] 0 (Some ∅)).1 = Some (4,5))
    by (vm_compute; reflexivity).
  split; [exact demoAI_Built|]. split; [reflexivity|]. split; [reflexivity|].
  split; [exact Hin|]. split; [exact Hf|].
  destruct (shortcut_selection demoAI [(2,3); (2,2); (3,2)] [(4,5)] [] 0 (Some ∅)
              (2,3) (3,2) (4,5) demoAI_Built eq_refl eq_refl Hin Hf)
    as (nextPos & Hnext & Hgo & _).
  exists nextPos. split; [exact Hnext|].
  apply Hgo. intros k p _ _ Hp. by apply elem_of_nil in Hp.
Defined.

(** In that scenario the agent leaves the cycle for the cell to its right. *)
Lemma shortcut_to_the_right :
  dec_move <$> getNextMove demoAI [(2,3); (2,2); (3,2)] [(4,5)] None [] 0 (Some ∅) =
  Some (Some (shortcutMove (2,3) (3,3))).
Proof. vm_compute. reflexivity. Qed.

(** ** Free space *)



(** The cells reached through free space can be listed: the set that holds
    [start] is grown by one step at a time until it grows no more, which
    takes no more rounds than the grid has cells. *)
Section saturation.
Context (w h : Z) (blocked : pos → Prop) {Hdec : ∀ p, Decision (blocked p)}.
Context (start : pos).

Definition freeNext (a : pos) : list pos :=
  filter (fun b => inGrid w h b ∧ ¬ blocked b)
    [(px a, py a - 1); (px a, py a + 1); (px a - 1, py a); (px a + 1, py a)].

Definition grow (S : gset pos) : gset pos :=
  S ∪ list_to_set (elements S ≫= freeNext).

Fixpoint saturate (n : nat) (S : gset pos) : gset pos :=
  match n with O => S | Datatypes.S n => saturate n (grow S) end.

Definition universe : gset pos := {[start]} ∪ list_to_set (coarseCells w h).









(** The cells reached from [start]. *)
Definition reached : gset pos := saturate (size universe) {[start]}.


End saturation.

(** ** The survival fallback *)









(** In that scenario the agent turns right, to [(1,2)], the one free
    neighbour of its head: the flood fill from there counts the 32 cells
    that the body and the obstacle leave, the danger score is 35, and the
    score of the move is 32 - 70. *)
Lemma survival_turns_right :
  dec_move <$> getNextMove demoAI [(0,2); (0,1); (0,0)] [] None [(0,3)] 0 None =
    Some (Some {| mv_x := 1; mv_y := 0; mv_type := "survival";
                  mv_reason := Some "Immediate Blockage"; mv_score := Some (-38) |}) ∧
  size (reached 6 6 (fun p => obstructed [(0,3)] None p ∨ p ∈ [(0,2); (0,1); (0,0)])
                (1,2)) = 32%nat ∧
  dangerOf 6 6 [(0,3)] None (1,2) = 35.
Proof. vm_compute. done. Qed.

(** ** Decisions on a controller of any age *)

(** C9, as amended: a controller for a grid with positive even dimensions
    returns from every call of [getNextMove] made with a non-empty body
    whose head is a cell of the grid, whatever the foods, the poison, the
    obstacles, the agent id and the claims table. The controller may be
    fresh, in which case the call initialises it, or built: initialised at
    some earlier time, with whatever seed the draws made since then have
    left, in which case the call leaves it as it is. It is built after the
    call. *)
Theorem getNextMove_returns (ai : SnakeAI) (snake foods : list pos)
    (poison : option pos) (obstacles : list pos) (id : Z)
    (targets : option targets_t) (h : pos) :
  0 < cols ai → 0 < rows ai → Z.even (cols ai) = true → Z.even (rows ai) = true →
  isInitialized ai = false ∨ Built ai →
  head snake = Some h → inGrid (cols ai) (rows ai) h →
  ∃ d, getNextMove ai snake foods poison obstacles id targets = Some d ∧
       Built (dec_ai d) ∧
       cols (dec_ai d) = cols ai ∧ rows (dec_ai d) = rows ai ∧
       (isInitialized ai = false → init ai = Some (dec_ai d)) ∧
       (isInitialized ai = true → dec_ai d = ai).
Proof.
  intros Hc Hr Ec Er Hai Hh Hin. destruct Hai as [Hfresh|HB].
  - destruct (init_onCycle ai Hc Hr Ec Er) as (ai' & Ei & Hi & Hon).
    destruct (init_Built ai ai' Hc Hr Ec Er Ei) as (HB' & Hc' & Hr').
    destruct (getNextMove_total ai' snake foods poison obstacles id targets h
                Hi Hh (Hon h Hin)) as (d & Ed & Hd).
    exists d. rewrite Hd. split.
    + unfold getNextMove in *. unfold ensureInit at 1. rewrite Hfresh, Ei.
      cbn [mbind option_bind]. unfold ensureInit in Ed. rewrite Hi in Ed. exact Ed.
    + split_and!; try done. intros Ht. congruence.
  - destruct (getNextMove_total ai snake foods poison obstacles id targets h
                (bt_init ai HB) Hh (Built_onCycle ai h HB Hin)) as (d & Ed & Hd).
    exists d. rewrite Hd. split_and!; try done.
    intros Hf. pose proof (bt_init ai HB). congruence.
Qed.

(** A controller that has been in use: the one built for the 6 by 6 grid,
    with the seed that later draws have left. *)
Definition usedAI : SnakeAI :=
  {| cols := cols demoAI; rows := rows demoAI;
     hamiltonianCycle := hamiltonianCycle demoAI; cycleMap := cycleMap demoAI;
     isInitialized := isInitialized demoAI; seed := 23810355571 |}.

Lemma usedAI_Built : Built usedAI.
Proof. exact (Built_reseed demoAI 23810355571 demoAI_Built). Qed.

Lemma getNextMove_returns_witness :
  0 < cols usedAI ∧ 0 < rows usedAI ∧
  Z.even (cols usedAI) = true ∧ Z.even (rows usedAI) = true ∧
  (isInitialized usedAI = false ∨ Built usedAI) ∧
  head [(2,3); (2,2); (3,2)] = Some (2,3) ∧ inGrid (cols usedAI) (rows usedAI) (2,3) ∧
  ∃ d, getNextMove usedAI [(2,3); (2,2); (3,2)] [(4,5)] None
                   [(0,0)] 0 (Some {[1 := 7]}) = Some d ∧
       Built (dec_ai d) ∧
       cols (dec_ai d) = cols usedAI ∧ rows (dec_ai d) = rows usedAI ∧
       (isInitialized usedAI = false → init usedAI = Some (dec_ai d)) ∧
       (isInitialized usedAI = true → dec_ai d = usedAI).
Proof.
  assert (Hc : 0 < cols usedAI) by (vm_compute; reflexivity).
  assert (Hr : 0 < rows usedAI) by (vm_compute; reflexivity).
  assert (Ec : Z.even (cols usedAI) = true) by (vm_compute; reflexivity).
  assert (Er : Z.even (rows usedAI) = true) by (vm_compute; reflexivity).
  assert (Hin : inGrid (cols usedAI) (rows usedAI) (2,3)).
  { unfold inGrid. replace (cols usedAI) with 6 by (vm_compute; reflexivity).
    replace (rows usedAI) with 6 by (vm_compute; reflexivity).
    cbn [px py fst snd]. lia. }
  split; [exact Hc|]. split; [exact Hr|]. split; [exact Ec|].
  split; [exact Er|]. split; [right; exact usedAI_Built|].
  split; [reflexivity|]. split; [exact Hin|].
  exact (getNextMove_returns usedAI [(2,3); (2,2); (3,2)] [(4,5)] None [(0,0)] 0
           (Some {[1 := 7]}) (2,3) Hc Hr Ec Er
           (or_intror usedAI_Built) eq_refl Hin).
Defined.

(** C9 as stated fails: on a grid with an odd dimension [init] builds no
    cycle, and for a head that has no cycle index the next position read from
    the cycle array is [undefined]; in both cases reading its coordinates
    throws. An empty body throws as well. *)
Lemma getNextMove_throws :
  getNextMove (newSnakeAI 3 3 42 0) [(1,1)] [] None [] 0 None = None ∧
  getNextMove demoAI [(-1,0); (0,0)] [] None [] 0 None = None ∧
  getNextMove demoAI [] [] None [] 0 None = None.
Proof. vm_compute. done. Qed.

(** ** Food placement *)

(** What the attempts of [spawnSingleFood] do: at most one food is pushed,
    on a cell of the grid that holds no food and is on no snake, and each
    attempt calls [Math.random()] twice. *)
Lemma spawnAttempts_spec (oracle : oracle_t) (n : nat) :
  (∀ k, 0 ≤ oracle k < Rng.two32) →
  ∀ W, 0 < TILE_COLS W → 0 < TILE_ROWS W →
    (mathRandomCalls W ≤ mathRandomCalls (spawnAttempts n oracle W)
                       ≤ mathRandomCalls W + 2 * n)%nat ∧
    (foods (spawnAttempts n oracle W) = foods W ∨
     ∃ f, foods (spawnAttempts n oracle W) = foods W ++ [f] ∧
          inGrid (TILE_COLS W) (TILE_ROWS W) f ∧ (f ∉ foods W) ∧
          ∀ s, s ∈ snakes W → f ∉ body s).
Proof.
  intros Ho. induction n as [|n IH]; intros W Hc Hr.
  - cbn [spawnAttempts]. split; [lia|by left].
  - cbn [spawnAttempts]. unfold mathRandom. cbv zeta.
    set (W2 := {| TILE_COLS := TILE_COLS W; TILE_ROWS := TILE_ROWS W;
                  snakes := snakes W; foods := foods W;
                  aiController := aiController W; snakeTargets := snakeTargets W;
                  mathRandomCalls := S (S (mathRandomCalls W));
                  decisionLog := decisionLog W |}).
    change (let newFood : pos :=
              (Rng.scale (oracle (mathRandomCalls W)) (TILE_COLS W),
               Rng.scale (oracle (S (mathRandomCalls W))) (TILE_ROWS W)) in
            let isValid := negb (existsb (fun s => hasPos (body s) newFood) (snakes W)) in
            let isValid := if isValid && hasPos (foods W) newFood then false else isValid in
            let R := if isValid then set_foods W2 (foods W ++ [newFood])
                     else spawnAttempts n oracle W2 in
            (mathRandomCalls W ≤ mathRandomCalls R ≤ mathRandomCalls W + 2 * S n)%nat ∧
            (foods R = foods W ∨
             ∃ f, foods R = foods W ++ [f] ∧
                  inGrid (TILE_COLS W) (TILE_ROWS W) f ∧ (f ∉ foods W) ∧
                  ∀ s, s ∈ snakes W → f ∉ body s)).
    cbv zeta. set (newFood := (Rng.scale _ _, Rng.scale _ _)).
    destruct (IH W2 Hc Hr) as [Hcalls Hfoods].
    change (mathRandomCalls W2) with (S (S (mathRandomCalls W))) in Hcalls.
    change (foods W2) with (foods W) in Hfoods.
    change (snakes W2) with (snakes W) in Hfoods.
    change (TILE_COLS W2) with (TILE_COLS W) in Hfoods.
    change (TILE_ROWS W2) with (TILE_ROWS W) in Hfoods.
    destruct (negb (existsb _ (snakes W))) eqn:Es; cbn [andb];
      [|split; [lia|exact Hfoods]].
    destruct (hasPos (foods W) newFood) eqn:Ef; [split; [lia|exact Hfoods]|].
    cbn [mathRandomCalls foods set_foods W2]. split; [lia|]. right.
    exists newFood. split; [done|]. split_and!.
    + split; apply scale_range; done.
    + intros Hin. apply hasPos_elem in Hin. by rewrite Hin in Ef.
    + intros s Hs Hin. apply negb_true_iff in Es.
      assert (Ht : existsb (fun s => hasPos (body s) newFood) (snakes W) = true);
        [|by rewrite Ht in Es].
      apply existsb_exists. exists s. split; [by apply list_elem_of_In|].
      by apply hasPos_elem.
Qed.

(** X14. [spawnSingleFood] changes nothing but the foods and the count of the
    calls of [Math.random()], of which it makes at most 100; it pushes at
    most one food, and a food that it pushes is a cell of the grid that held
    no food and is on no snake. *)
Theorem spawnSingleFood_spec (oracle : oracle_t) (W : world) :
  (∀ k, 0 ≤ oracle k < Rng.two32) → 0 < TILE_COLS W → 0 < TILE_ROWS W →
  sameButFoods W (spawnSingleFood oracle W) ∧
  (mathRandomCalls W ≤ mathRandomCalls (spawnSingleFood oracle W)
                     ≤ mathRandomCalls W + 100)%nat ∧
  (foods (spawnSingleFood oracle W) = foods W ∨
   ∃ f, foods (spawnSingleFood oracle W) = foods W ++ [f] ∧
        inGrid (TILE_COLS W) (TILE_ROWS W) f ∧ (f ∉ foods W) ∧
        ∀ s, s ∈ snakes W → f ∉ body s).
Proof.
  intros Ho Hc Hr. split; [apply spawnAttempts_frame|].
  destruct (spawnAttempts_spec oracle 50 Ho W Hc Hr) as [H1 H2].
  split; [exact H1|exact H2].
Qed.

Lemma sampleRandom_range (k : nat) : 0 ≤ sampleRandom k < Rng.two32.
Proof. apply random_range. Qed.

Lemma spawnSingleFood_spec_witness :
  (∀ k, 0 ≤ sampleRandom k < Rng.two32) ∧
  0 < TILE_COLS demoWorld ∧ 0 < TILE_ROWS demoWorld ∧
  sameButFoods demoWorld (spawnSingleFood sampleRandom demoWorld) ∧
  (mathRandomCalls demoWorld ≤ mathRandomCalls (spawnSingleFood sampleRandom demoWorld)
                             ≤ mathRandomCalls demoWorld + 100)%nat ∧
  (foods (spawnSingleFood sampleRandom demoWorld) = foods demoWorld ∨
   ∃ f, foods (spawnSingleFood sampleRandom demoWorld) = foods demoWorld ++ [f] ∧
        inGrid (TILE_COLS demoWorld) (TILE_ROWS demoWorld) f ∧ (f ∉ foods demoWorld) ∧
        ∀ s, s ∈ snakes demoWorld → f ∉ body s).
Proof.
  split; [exact sampleRandom_range|]. split; [reflexivity|]. split; [reflexivity|].
  apply (spawnSingleFood_spec sampleRandom demoWorld sampleRandom_range);
    reflexivity.
Defined.

(** What holds between the foods before and after the loop of
    [maintainFoodCount]. *)
Lemma maintainFoodCount_foods (oracle : oracle_t) (fuel : nat) :
  (∀ k, 0 ≤ oracle k < Rng.two32) →
  ∀ W W', 0 < TILE_COLS W → 0 < TILE_ROWS W →
    maintainFoodCount fuel oracle W = Done W' →
    ∃ new, foods W' = foods W ++ new ∧
      length (foods W') = Nat.max 5 (length (foods W)) ∧
      ∀ f, f ∈ new → inGrid (TILE_COLS W) (TILE_ROWS W) f ∧ (f ∉ foods W) ∧
                     ∀ s, s ∈ snakes W → f ∉ body s.
Proof.
  intros Ho. induction fuel as [|fuel IH]; intros W W' Hc Hr; cbn [maintainFoodCount].
  - destruct (length (foods W) <? 5)%nat eqn:E; [done|]. intros [= <-].
    apply Nat.ltb_ge in E. exists []. rewrite app_nil_r. split; [done|].
    split; [lia|]. intros f Hf. by apply elem_of_nil in Hf.
  - destruct (length (foods W) <? 5)%nat eqn:E.
    2:{ intros [= <-]. apply Nat.ltb_ge in E. exists []. rewrite app_nil_r.
        split; [done|]. split; [lia|]. intros f Hf. by apply elem_of_nil in Hf. }
    apply Nat.ltb_lt in E. intros Hm.
    destruct (spawnAttempts_frame 50 oracle W) as (Hss & _ & _ & _ & Hcs & Hrs).
    fold (spawnSingleFood oracle W) in Hss, Hcs, Hrs.
    destruct (spawnAttempts_spec oracle 50 Ho W Hc Hr) as [_ Hf].
    fold (spawnSingleFood oracle W) in Hf.
    apply IH in Hm as (new & Hnew & Hlen & Hall); [|by rewrite Hcs|by rewrite Hrs].
    rewrite Hcs, Hrs, Hss in Hall.
    destruct Hf as [Hf|(f & Hf & Hg & Hnf & Hns)].
    + rewrite Hf in Hnew, Hlen, Hall. exists new. split_and!; try done.
    + rewrite Hf in Hnew, Hlen, Hall. exists (f :: new).
      rewrite <- app_assoc in Hnew. split; [done|].
      rewrite length_app in Hlen. cbn [length] in Hlen. split; [lia|].
      intros g Hgin. apply elem_of_cons in Hgin as [->|Hgin]; [done|].
      destruct (Hall g Hgin) as (? & Hgn & ?). split_and!; try done.
      intros Hin. apply Hgn, elem_of_app. by left.
Qed.

Lemma maintainFoodCount_NoDup (oracle : oracle_t) (fuel : nat) :
  (∀ k, 0 ≤ oracle k < Rng.two32) →
  ∀ W W', 0 < TILE_COLS W → 0 < TILE_ROWS W → NoDup (foods W) →
    maintainFoodCount fuel oracle W = Done W' → NoDup (foods W').
Proof.
  intros Ho. induction fuel as [|fuel IH]; intros W W' Hc Hr Hnd;
    cbn [maintainFoodCount].
  - destruct (length (foods W) <? 5)%nat; [done|]. by intros [= <-].
  - destruct (length (foods W) <? 5)%nat; [|by intros [= <-]].
    destruct (spawnAttempts_frame 50 oracle W) as (_ & _ & _ & _ & Hcs & Hrs).
    fold (spawnSingleFood oracle W) in Hcs, Hrs.
    destruct (spawnAttempts_spec oracle 50 Ho W Hc Hr) as [_ Hf].
    fold (spawnSingleFood oracle W) in Hf.
    apply IH; [by rewrite Hcs|by rewrite Hrs|].
    destruct Hf as [->|(f & -> & _ & Hnf & _)]; [done|].
    apply NoDup_app. split; [done|]. split; [|apply NoDup_singleton].
    intros x Hx Hx'. apply list_elem_of_singleton in Hx' as ->. done.
Qed.

(** X15. When [maintainFoodCount] returns, nothing but the foods and the count of
    the calls of [Math.random()] has changed, the foods are the former ones
    followed by new ones, which are cells of the grid that held no food and
    are on no snake, there are 5 foods, or as many as before when they
    were 5 or more, and the foods are distinct if they were. *)
Theorem maintainFoodCount_returns (oracle : oracle_t) (fuel : nat) (W W' : world) :
  (∀ k, 0 ≤ oracle k < Rng.two32) → 0 < TILE_COLS W → 0 < TILE_ROWS W →
  maintainFoodCount fuel oracle W = Done W' →
  sameButFoods W W' ∧
  length (foods W') = Nat.max 5 (length (foods W)) ∧
  (NoDup (foods W) → NoDup (foods W')) ∧
  ∃ new, foods W' = foods W ++ new ∧
    ∀ f, f ∈ new → inGrid (TILE_COLS W) (TILE_ROWS W) f ∧ (f ∉ foods W) ∧
                   ∀ s, s ∈ snakes W → f ∉ body s.
Proof.
  intros Ho Hc Hr Hm. split; [by eapply maintainFoodCount_frame|].
  destruct (maintainFoodCount_foods oracle fuel Ho W W' Hc Hr Hm) as (new & H1 & H2 & H3).
  split; [exact H2|]. split.
  - intros Hnd. by eapply maintainFoodCount_NoDup.
  - exists new. split; [exact H1|exact H3].
Qed.

Lemma maintainFoodCount_returns_witness :
  ∃ W',
    (∀ k, 0 ≤ sampleRandom k < Rng.two32) ∧
    0 < TILE_COLS demoWorld ∧ 0 < TILE_ROWS demoWorld ∧
    maintainFoodCount 8 sampleRandom (set_foods demoWorld [(4,5)]) = Done W' ∧
    sameButFoods (set_foods demoWorld [(4,5)]) W' ∧
    length (foods W') = Nat.max 5 (length (foods (set_foods demoWorld [(4,5)]))) ∧
    (NoDup (foods (set_foods demoWorld [(4,5)])) → NoDup (foods W')) ∧
    ∃ new, foods W' = foods (set_foods demoWorld [(4,5)]) ++ new ∧
      ∀ f, f ∈ new →
        inGrid (TILE_COLS demoWorld) (TILE_ROWS demoWorld) f ∧
        (f ∉ foods (set_foods demoWorld [(4,5)])) ∧
        ∀ s, s ∈ snakes (set_foods demoWorld [(4,5)]) → f ∉ body s.
Proof.
  assert (H : ∃ W', maintainFoodCount 8 sampleRandom (set_foods demoWorld [(4,5)])
                    = Done W').
  { vm_compute. eexists. reflexivity. }
  destruct H as [W' H]. exists W'.
  split; [exact sampleRandom_range|]. split; [reflexivity|]. split; [reflexivity|].
  split; [exact H|].
  exact (maintainFoodCount_returns sampleRandom 8 (set_foods demoWorld [(4,5)]) W'
           sampleRandom_range eq_refl eq_refl H).
Defined.

(** ** The worlds that the loop goes through *)

(** A world as the boot leaves it and as the ticks keep it: the controller
    is built for the grid of the world, and every agent has a body that is
    not empty and lies on the grid. *)
Record Sane (W : world) : Prop := MkSane {
  sn_built : Built (aiController W);
  sn_cols : cols (aiController W) = TILE_COLS W;
  sn_rows : rows (aiController W) = TILE_ROWS W;
  sn_bodies : ∀ s, s ∈ snakes W →
                body s ≠ [] ∧ ∀ p, p ∈ body s → inGrid (TILE_COLS W) (TILE_ROWS W) p
}.

Lemma elem_of_list_insert {A} (l : list A) (i : nat) (x y : A) :
  y ∈ <[i := x]> l → y = x ∨ y ∈ l.
Proof.
  intros Hy. apply list_elem_of_lookup in Hy as [j Hj].
  destruct (decide (i = j)) as [->|Hne].
  - destruct (decide (j < length l)%nat).
    + rewrite list_lookup_insert_eq in Hj by done. left. congruence.
    + rewrite list_insert_ge in Hj by lia. right. by eapply list_elem_of_lookup_2.
  - rewrite list_lookup_insert_ne in Hj by done. right. by eapply list_elem_of_lookup_2.
Qed.

Lemma collides_false_inGrid (W : world) (s : snakeT) (h : pos) :
  collides W s h = false → inGrid (TILE_COLS W) (TILE_ROWS W) h.
Proof.
  unfold collides. cbv zeta. intros Hc.
  destruct (_ || _ || _ || _) eqn:E; [done|].
  rewrite !orb_false_iff, !Z.ltb_ge, !Z.leb_gt in E. unfold inGrid. lia.
Qed.

Lemma removelast_nonempty {A} (x y : A) (l : list A) : removelast (x :: y :: l) ≠ [].
Proof. done. Qed.

(** An iteration of the loop on a sane world does not throw, and the world
    it returns is sane, with the same grid and the same ids and colours. *)
Lemma stepSnake_Sane (fuel : nat) (oracle : oracle_t) (i : nat) (W : world) :
  (∀ k, 0 ≤ oracle k < Rng.two32) → Sane W → (i < length (snakes W))%nat →
  stepSnake fuel oracle i W ≠ Thrown ∧
  ∀ W', stepSnake fuel oracle i W = Done W' →
    Sane W' ∧ TILE_COLS W' = TILE_COLS W ∧ TILE_ROWS W' = TILE_ROWS W ∧
    sid <$> snakes W' = sid <$> snakes W ∧
    colorIndex <$> snakes W' = colorIndex <$> snakes W.
Proof.
  intros Ho HS Hi.
  destruct (lookup_lt_is_Some_2 _ _ Hi) as [s0 Hs0].
  assert (Hs0in : s0 ∈ snakes W) by (by eapply list_elem_of_lookup_2).
  destruct (sn_bodies W HS s0 Hs0in) as [Hne Hbody].
  destruct (body s0) as [|h0 rest] eqn:Eb; [done|]. clear Hne.
  assert (Hh0 : inGrid (cols (aiController W)) (rows (aiController W)) h0).
  { rewrite (sn_cols W HS), (sn_rows W HS). apply Hbody, list_elem_of_here. }
  pose proof (sn_built W HS) as HB.
  destruct (getNextMove_total (aiController W) (body s0) (foods W) None
              (otherParts (snakes W) i) (sid s0) (Some (snakeTargets W)) h0
              (bt_init _ HB)) as (dec & Hdec & Hai).
  { by rewrite Eb. }
  { by apply Built_onCycle. }
  unfold stepSnake, decidePhase. rewrite Hs0. cbn [orThrow obind].
  rewrite Hdec. cbn [orThrow obind]. cbv zeta.
  cbn [body steer]. rewrite Eb. cbn [head orThrow obind].
  set (s := steer s0 (dec_move dec)).
  set (h := (px h0 + sdx s, py h0 + sdy s)).
  match goal with |- context [collides ?w s h] => set (W1 := w) end.
  assert (HW1 : aiController W1 = aiController W ∧ snakes W1 = <[i := s]> (snakes W) ∧
                TILE_COLS W1 = TILE_COLS W ∧ TILE_ROWS W1 = TILE_ROWS W).
  { unfold W1. cbn. by rewrite Hai. }
  destruct HW1 as (Hai1 & Hss1 & Hc1 & Hr1).
  assert (Hfmap : ∀ (f : snakeT → Z) (sf : snakeT),
            f sf = f s0 → f <$> <[i := sf]> (snakes W) = f <$> snakes W).
  { intros f sf Hf. rewrite list_fmap_insert, Hf.
    apply list_insert_id. by rewrite list_lookup_fmap, Hs0. }
  destruct (collides W1 s h) eqn:Ecol.
  - (* respawn *)
    unfold respawn, mathRandom. cbv zeta.
    cbn [aiController mathRandomCalls].
    destruct (getStartState_Built (aiController W1) (oracle (mathRandomCalls W1) * 1000))
      as (st & ai' & c0 & c1 & c2 & hIdx & Hst & HB' & Hcyc & Hcols & Hrows & _ &
          Hsn & _ & Hgrid & _).
    { by rewrite Hai1. }
    { specialize (Ho (mathRandomCalls W1)). lia. }
    rewrite Hst. cbn [orThrow obind]. split; [done|].
    intros W' [= <-]. cbn [snakes set_snakes set_ai TILE_COLS TILE_ROWS aiController].
    rewrite ?Hss1, ?Hc1, ?Hr1, ?list_insert_insert_eq.
    split_and!; try done.
    + constructor; cbn [snakes set_snakes set_ai TILE_COLS TILE_ROWS aiController].
      * exact HB'.
      * rewrite Hcols, Hai1. apply (sn_cols W HS).
      * rewrite Hrows, Hai1. apply (sn_rows W HS).
      * intros sx Hsx. rewrite ?Hc1, ?Hr1.
        apply elem_of_list_insert in Hsx as [->|Hsx]; [|by apply (sn_bodies W HS)].
        cbn [body mkSnake]. rewrite Hsn. split; [done|].
        intros p Hp. rewrite <- (sn_cols W HS), <- (sn_rows W HS), <- Hai1. by apply Hgrid.
    + by apply Hfmap.
    + by apply Hfmap.
  - (* advance *)
    pose proof (collides_false_inGrid W1 s h Ecol) as Hhin.
    rewrite Hc1, Hr1 in Hhin.
    unfold advance. cbv zeta.
    cbn [snakes set_snakes foods set_foods body set_body].
    assert (Hbs : body s = h0 :: rest) by (by rewrite <- Eb).
    destruct (findIndex h (foods W1)) as [foodIndex|].
    + unfold eatFood. cbv zeta.
      match goal with |- context [maintainFoodCount fuel oracle ?w] => set (W2 := w) end.
      assert (HW2 : aiController W2 = aiController W ∧
                    snakes W2 = <[i := set_body s (h :: body s)]> (snakes W) ∧
                    TILE_COLS W2 = TILE_COLS W ∧ TILE_ROWS W2 = TILE_ROWS W).
      { unfold W2. cbn. rewrite ?Hss1, ?list_insert_insert_eq. by rewrite ?Hai. }
      destruct HW2 as (Hai2 & Hss2 & Hc2 & Hr2).
      split.
      * clear. generalize W2. induction fuel as [|fuel IH]; intros w;
          cbn [maintainFoodCount]; destruct (_ <? _)%nat; try done; apply IH.
      * intros W' Hm. apply maintainFoodCount_frame in Hm
          as (Hs' & Ha' & _ & _ & Hc' & Hr').
        rewrite Hc', Hr', Hc2, Hr2, Hs', Hss2.
        split_and!; try done.
        -- constructor.
           ++ rewrite Ha', Hai2. exact HB.
           ++ rewrite Ha', Hai2, Hc', Hc2. apply (sn_cols W HS).
           ++ rewrite Ha', Hai2, Hr', Hr2. apply (sn_rows W HS).
           ++ intros sx Hsx. rewrite Hs', Hss2 in Hsx. rewrite Hc', Hr', Hc2, Hr2.
              apply elem_of_list_insert in Hsx as [->|Hsx]; [|by apply (sn_bodies W HS)].
              cbn [body set_body]. split; [done|].
              intros p Hp. apply elem_of_cons in Hp as [->|Hp]; [done|].
              apply Hbody. by rewrite <- Hbs.
        -- by apply Hfmap.
        -- by apply Hfmap.
    + split; [done|]. intros W' [= <-].
      cbn [snakes set_snakes TILE_COLS TILE_ROWS aiController].
      rewrite ?Hss1, ?Hc1, ?Hr1, ?list_insert_insert_eq.
      split_and!; try done.
      * constructor; cbn [snakes set_snakes TILE_COLS TILE_ROWS aiController].
        -- rewrite ?Hai1. exact HB.
        -- rewrite ?Hai1, ?Hc1. apply (sn_cols W HS).
        -- rewrite ?Hai1, ?Hr1. apply (sn_rows W HS).
        -- intros sx Hsx. rewrite ?Hss1, ?list_insert_insert_eq in Hsx.
           rewrite ?Hc1, ?Hr1.
           apply elem_of_list_insert in Hsx as [->|Hsx]; [|by apply (sn_bodies W HS)].
           cbn [body set_body]. rewrite ?Hbs, ?Eb. split; [done|].
           intros p Hp. apply (removelast_elem (h :: h0 :: rest)) in Hp.
           apply elem_of_cons in Hp as [->|Hp]; [done|]. by apply Hbody.
      * by apply Hfmap.
      * by apply Hfmap.
Qed.

Lemma gameLoopFrom_Sane (fuel : nat) (oracle : oracle_t) (n : nat) :
  (∀ k, 0 ≤ oracle k < Rng.two32) →
  ∀ (i : nat) (W : world), Sane W → (i + n = length (snakes W))%nat →
    gameLoopFrom n fuel oracle i W ≠ Thrown ∧
    ∀ W', gameLoopFrom n fuel oracle i W = Done W' →
      Sane W' ∧ TILE_COLS W' = TILE_COLS W ∧ TILE_ROWS W' = TILE_ROWS W ∧
      sid <$> snakes W' = sid <$> snakes W ∧
      colorIndex <$> snakes W' = colorIndex <$> snakes W.
Proof.
  intros Ho. induction n as [|n IH]; intros i W HS Hn; cbn [gameLoopFrom].
  - split; [done|]. by intros W' [= <-].
  - destruct (stepSnake_Sane fuel oracle i W Ho HS ltac:(lia)) as [Hnt Hstep].
    destruct (stepSnake fuel oracle i W) as [W1| |]; [|done|done].
    destruct (Hstep W1 eq_refl) as (HS1 & Hc1 & Hr1 & Hid1 & Hcol1).
    cbn [obind].
    assert (Hlen : length (snakes W1) = length (snakes W)).
    { rewrite <- (length_fmap sid (snakes W1)), Hid1. apply length_fmap. }
    destruct (IH (S i) W1 HS1 ltac:(lia)) as [Hnt' Hrest].
    split; [exact Hnt'|]. intros W' HW'.
    destruct (Hrest W' HW') as (HS' & Hc' & Hr' & Hid' & Hcol').
    split_and!; congruence.
Qed.

(** X16. From a sane world the ticks never throw, whatever the host's
    [Math.random()] returns and however many iterations the food loop is
    allowed; the world they return is sane, so that every body is still on
    the grid, and it has the same grid and the same agents, with their ids
    and colours, in the same order. *)
Theorem ticks_never_throw (fuel : nat) (oracle : oracle_t) (k : nat) (W : world) :
  (∀ n, 0 ≤ oracle n < Rng.two32) → Sane W →
  ticks k fuel oracle W ≠ Thrown ∧
  ∀ W', ticks k fuel oracle W = Done W' →
    Sane W' ∧ TILE_COLS W' = TILE_COLS W ∧ TILE_ROWS W' = TILE_ROWS W ∧
    sid <$> snakes W' = sid <$> snakes W ∧
    colorIndex <$> snakes W' = colorIndex <$> snakes W.
Proof.
  intros Ho. revert W. induction k as [|k IH]; intros W HS; cbn [ticks].
  - split; [done|]. by intros W' [= <-].
  - destruct (gameLoopFrom_Sane fuel oracle (length (snakes W)) Ho 0 W HS eq_refl)
      as [Hnt Hloop].
    fold (gameLoop fuel oracle W) in Hnt, Hloop.
    destruct (gameLoop fuel oracle W) as [W1| |]; [|done|done].
    destruct (Hloop W1 eq_refl) as (HS1 & Hc1 & Hr1 & Hid1 & Hcol1).
    cbn [obind]. destruct (IH W1 HS1) as [Hnt' Hrest].
    split; [exact Hnt'|]. intros W' HW'.
    destruct (Hrest W' HW') as (HS' & Hc' & Hr' & Hid' & Hcol').
    split_and!; congruence.
Qed.

Lemma demoWorld_Sane : Sane demoWorld.
Proof.
  constructor.
  - exact demoAI_Built.
  - vm_compute. reflexivity.
  - vm_compute. reflexivity.
  - intros s Hs. cbn [snakes demoWorld] in Hs.
    change (TILE_COLS demoWorld) with 6. change (TILE_ROWS demoWorld) with 6.
    apply elem_of_cons in Hs as [->|Hs].
    { cbn [body]. split; [done|]. intros p Hp.
      repeat (apply elem_of_cons in Hp as [->|Hp];
              [unfold inGrid; cbn [px py fst snd]; lia|]).
      by apply elem_of_nil in Hp. }
    apply list_elem_of_singleton in Hs as ->.
    cbn [body]. split; [done|]. intros p Hp.
    repeat (apply elem_of_cons in Hp as [->|Hp];
            [unfold inGrid; cbn [px py fst snd]; lia|]).
    by apply elem_of_nil in Hp.
Qed.

Lemma ticks_never_throw_witness :
  (∀ n, 0 ≤ sampleRandom n < Rng.two32) ∧ Sane demoWorld ∧
  ticks 3 10 sampleRandom demoWorld ≠ Thrown ∧
  ∀ W', ticks 3 10 sampleRandom demoWorld = Done W' →
    Sane W' ∧ TILE_COLS W' = TILE_COLS demoWorld ∧
    TILE_ROWS W' = TILE_ROWS demoWorld ∧
    sid <$> snakes W' = sid <$> snakes demoWorld ∧
    colorIndex <$> snakes W' = colorIndex <$> snakes demoWorld.
Proof.
  split; [exact sampleRandom_range|]. split; [exact demoWorld_Sane|].
  exact (ticks_never_throw 10 sampleRandom 3 demoWorld sampleRandom_range demoWorld_Sane).
Defined.

(** ** The boot *)

Lemma coarseCells_empty (w h : Z) : w ≤ 0 ∨ h ≤ 0 → coarseCells w h = [].
Proof.
  intros H. destruct (coarseCells w h) as [|p l] eqn:E; [done|].
  assert (Hp : p ∈ coarseCells w h) by (rewrite E; apply list_elem_of_here).
  apply elem_of_coarseCells in Hp. unfold inGrid in Hp. lia.
Qed.

Lemma addWalls_empty (node : pos) (w h : Z) :
  w ≤ 0 ∨ h ≤ 0 → addWalls node w h [] = [].
Proof.
  intros H. destruct (addWalls node w h []) as [|wl l] eqn:E; [done|].
  assert (Hw : wl ∈ addWalls node w h []) by (rewrite E; apply list_elem_of_here).
  apply elem_of_addWalls in Hw as [Hw|(d & _ & _ & Hg)].
  - by apply elem_of_nil in Hw.
  - unfold inGrid in Hg. lia.
Qed.

(** With no coarse cell there is no link to start the traversal from, and
    the builder throws. *)
Lemma generateHamiltonianCycle_empty (c r seed : Z) :
  c / 2 ≤ 0 ∨ r / 2 ≤ 0 → generateHamiltonianCycle c r seed = None.
Proof.
  intros H. unfold generateHamiltonianCycle, generateMST. cbv zeta.
  destruct (Rng.random seed) as [s1 kx]. destruct (Rng.random s1) as [s2 ky].
  rewrite addWalls_empty by done.
  destruct (Z.to_nat _); cbn [mstLoop mbind option_bind];
    unfold mstToCycle; rewrite coarseCells_empty by done; reflexivity.
Qed.

(** The even number of tiles that [resizeCanvas] derives from a length in
    pixels. *)
Lemma tiles_even (len : Z) :
  0 ≤ len →
  (if negb (Z.rem (len / 40) 2 =? 0) then len / 40 - 1 else len / 40) = 2 * (len / 80).
Proof.
  intros Hp.
  assert (Hq : len / 80 = len / 40 / 2) by (rewrite Z.div_div by lia; done).
  pose proof (Z.div_pos len 40 Hp ltac:(lia)) as Hnn.
  rewrite Z.rem_mod_nonneg by lia.
  pose proof (Z.div_mod (len / 40) 2 ltac:(lia)) as Hdm.
  pose proof (Z.mod_pos_bound (len / 40) 2 ltac:(lia)) as Hb.
  rewrite Hq. destruct (Z.eqb_spec ((len / 40) mod 2) 0); cbn [negb]; lia.
Qed.

(** X17. In a window that is less than 80 pixels wide or high the grid has no
    tile in one direction, and the boot throws: [resizeCanvas] does not
    return. *)
Theorem boot_small_window_throws (fuel : nat) (oracle : oracle_t)
    (innerWidth innerHeight now : Z) (W : world) :
  0 ≤ innerWidth → 0 ≤ innerHeight → innerWidth < 80 ∨ innerHeight < 80 →
  resizeCanvas fuel oracle innerWidth innerHeight now W = Thrown.
Proof.
  intros Hw Hh Hsmall. unfold resizeCanvas, resizedWorld. cbv zeta.
  rewrite !tiles_even by done.
  unfold initGame, initGameBeforeTick. cbn [aiController].
  assert (E : getStartState (newSnakeAI (2 * (innerWidth / 80)) (2 * (innerHeight / 80))
                                        now now) 0 = None).
  { unfold getStartState, ensureInit. cbn [isInitialized newSnakeAI].
    fold (newSnakeAI (2 * (innerWidth / 80)) (2 * (innerHeight / 80)) now now).
    assert (Ei : init (newSnakeAI (2 * (innerWidth / 80)) (2 * (innerHeight / 80))
                                  now now) = None).
    { unfold init. cbn [cols rows seed newSnakeAI].
      assert (E1 : ∀ q, 0 ≤ q → (Z.rem (2 * q) 2 =? 0) = true).
      { intros q Hq. apply Z.eqb_eq. rewrite Z.rem_mod_nonneg by lia.
        rewrite Z.mul_comm. apply Z.mod_mul. lia. }
      rewrite !E1 by (apply Z.div_pos; lia). cbn [negb orb].
      rewrite generateHamiltonianCycle_empty; [done|].
      rewrite !(Z.mul_comm 2), !Z.div_mul by lia.
      destruct Hsmall; [left|right]; rewrite Z.div_small; lia. }
    by rewrite Ei. }
  by rewrite E.
Qed.

Lemma boot_small_window_throws_witness :
  0 ≤ 79 ∧ 0 ≤ 600 ∧ (79 < 80 ∨ 600 < 80) ∧
  resizeCanvas 10 sampleRandom 79 600 42 emptyWorld = Thrown.
Proof.
  split; [lia|]. split; [lia|]. split; [left; lia|].
  apply (boot_small_window_throws 10 sampleRandom 79 600 42 emptyWorld); lia.
Defined.

(** A call of [getStartState] on a controller that [init] can build goes
    on as on the built controller. *)
Lemma getStartState_init (ai ai1 : SnakeAI) (off : Z) :
  isInitialized ai = false → init ai = Some ai1 → isInitialized ai1 = true →
  getStartState ai off = getStartState ai1 off.
Proof.
  intros Hn Hi H1. unfold getStartState, ensureInit. by rewrite Hn, Hi, H1.
Qed.

(** In a window of at least 80 by 80 pixels, when [initGame] comes to its
    call of [gameTick], the grid has twice as many tiles in each direction as
    the window has whole lengths of 80 pixels, the world is sane, the two
    agents have the ids and the colours 0 and 1 and bodies of three cells,
    and there are 5 foods, distinct cells of the grid that are on no body. *)
Lemma initGameBeforeTick_sane (fuel : nat) (oracle : oracle_t)
    (innerWidth innerHeight now : Z) (W0 W : world) :
  (∀ n, 0 ≤ oracle n < Rng.two32) → 80 ≤ innerWidth → 80 ≤ innerHeight →
  initGameBeforeTick fuel oracle (resizedWorld innerWidth innerHeight now W0) = Done W →
  Sane W ∧
  TILE_COLS W = 2 * (innerWidth / 80) ∧ TILE_ROWS W = 2 * (innerHeight / 80) ∧
  sid <$> snakes W = [0; 1] ∧ colorIndex <$> snakes W = [0; 1] ∧
  (∀ s, s ∈ snakes W → length (body s) = 3%nat) ∧
  length (foods W) = 5%nat ∧ NoDup (foods W) ∧
  ∀ f, f ∈ foods W → inGrid (TILE_COLS W) (TILE_ROWS W) f ∧
                     ∀ s, s ∈ snakes W → f ∉ body s.
Proof.
  intros Ho Hw Hh. unfold resizedWorld. cbv zeta.
  rewrite !tiles_even by lia.
  set (tc := 2 * (innerWidth / 80)). set (tr := 2 * (innerHeight / 80)).
  assert (Htc : 0 < tc ∧ Z.even tc = true).
  { unfold tc. split; [|by rewrite Z.even_mul].
    pose proof (Z.div_le_mono 80 innerWidth 80 ltac:(lia) Hw) as H.
    rewrite Z.div_same in H by lia. lia. }
  assert (Htr : 0 < tr ∧ Z.even tr = true).
  { unfold tr. split; [|by rewrite Z.even_mul].
    pose proof (Z.div_le_mono 80 innerHeight 80 ltac:(lia) Hh) as H.
    rewrite Z.div_same in H by lia. lia. }
  destruct (init_onCycle (newSnakeAI tc tr now now)) as (ai1 & Ei & Hi1 & _);
    [apply Htc|apply Htr|apply Htc|apply Htr|].
  destruct (init_Built (newSnakeAI tc tr now now) ai1) as (HB1 & Hc1 & Hr1);
    [apply Htc|apply Htr|apply Htc|apply Htr|exact Ei|].
  cbn [cols rows newSnakeAI] in Hc1, Hr1.
  unfold initGameBeforeTick. cbn [aiController].
  rewrite (getStartState_init (newSnakeAI tc tr now now) ai1 0 eq_refl Ei Hi1).
  destruct (getStartState_Built ai1 0 HB1 ltac:(lia))
    as (st0 & ai2 & a0 & a1 & a2 & ia & Hst0 & HB2 & Hcyc2 & Hc2 & Hr2 & _ &
        Hsn0 & _ & Hg0 & _).
  rewrite Hst0. cbn [orThrow obind].
  destruct (getStartState_Built ai2 2147483648 HB2 ltac:(lia))
    as (st1 & ai3 & b0 & b1 & b2 & ib & Hst1 & HB3 & Hcyc3 & Hc3 & Hr3 & _ &
        Hsn1 & _ & Hg1 & _).
  rewrite Hst1. cbn [orThrow obind].
  match goal with |- maintainFoodCount _ _ ?w = _ → _ => set (W1 := w) end.
  intros Hm.
  assert (HW1 : TILE_COLS W1 = tc ∧ TILE_ROWS W1 = tr ∧ aiController W1 = ai3 ∧
                snakes W1 = [mkSnake st0 0 0; mkSnake st1 1 1] ∧ foods W1 = [])
    by done.
  destruct HW1 as (Htc1 & Htr1 & Hai1 & Hss1 & Hf1).
  destruct (maintainFoodCount_frame _ _ _ _ Hm) as (Hs & Ha & _ & _ & Hc & Hr).
  destruct (maintainFoodCount_foods oracle fuel Ho W1 W) as (new & Hnew & Hlen & Hall);
    [by rewrite Htc1; apply Htc|by rewrite Htr1; apply Htr|exact Hm|].
  rewrite Hf1 in Hnew, Hlen, Hall. cbn [app length] in Hnew, Hlen.
  rewrite Hs, Hc, Hr, Htc1, Htr1, Hss1. rewrite Htc1, Htr1, Hss1 in Hall.
  assert (Hbodies : ∀ s, s ∈ [mkSnake st0 0 0; mkSnake st1 1 1] →
            length (body s) = 3%nat ∧ body s ≠ [] ∧
            ∀ p, p ∈ body s → inGrid tc tr p).
  { intros s Hsin. apply elem_of_cons in Hsin as [->|Hsin].
    - cbn [body mkSnake]. rewrite Hsn0. split_and!; try done.
      intros p Hp. rewrite <- Hc1, <- Hr1. by apply Hg0.
    - apply list_elem_of_singleton in Hsin as ->.
      cbn [body mkSnake]. rewrite Hsn1. split_and!; try done.
      intros p Hp. rewrite <- Hc1, <- Hr1, <- Hc2, <- Hr2. by apply Hg1. }
  split_and!; try done.
  - constructor.
    + rewrite Ha, Hai1. exact HB3.
    + rewrite Ha, Hai1, Hc, Htc1. congruence.
    + rewrite Ha, Hai1, Hr, Htr1. congruence.
    + intros s Hsin. rewrite Hs, Hss1 in Hsin. rewrite Hc, Hr, Htc1, Htr1.
      by apply Hbodies.
  - intros s Hsin. by apply Hbodies.
  - apply (maintainFoodCount_NoDup oracle fuel Ho W1 W);
      [by rewrite Htc1; apply Htc|by rewrite Htr1; apply Htr| |exact Hm].
    rewrite Hf1. apply NoDup_nil_2.
  - intros f Hf. rewrite Hnew in Hf. destruct (Hall f Hf) as (Hg & _ & Hns). done.
Qed.

(** X19. In a window that is from 80 to 159 pixels wide and high the grid has 2
    by 2 tiles, which cannot hold 5 foods, and the boot does not return:
    [initGame] places the agents and then [maintainFoodCount] goes on for as
    long as it is allowed to, whatever the clock reads and whatever the
    host's [Math.random()] returns. *)
Theorem boot_2x2_hangs (fuel : nat) (oracle : oracle_t)
    (innerWidth innerHeight now : Z) (W0 : world) :
  (∀ n, 0 ≤ oracle n < Rng.two32) →
  80 ≤ innerWidth < 160 → 80 ≤ innerHeight < 160 →
  resizeCanvas fuel oracle innerWidth innerHeight now W0 = OutOfFuel.
Proof.
  intros Ho Hw Hh. unfold resizeCanvas, resizedWorld. cbv zeta.
  rewrite !tiles_even by lia.
  assert (Ew : innerWidth / 80 = 1).
  { symmetry. apply (Z.div_unique _ _ _ (innerWidth - 80)); lia. }
  assert (Eh : innerHeight / 80 = 1).
  { symmetry. apply (Z.div_unique _ _ _ (innerHeight - 80)); lia. }
  rewrite Ew, Eh. change (2 * 1) with 2.
  destruct (init_onCycle (newSnakeAI 2 2 now now)) as (ai1 & Ei & Hi1 & _);
    [done..|].
  destruct (init_Built (newSnakeAI 2 2 now now) ai1) as (HB1 & _ & _); [done..|].
  apply initGame_hangs. unfold initGameBeforeTick. cbn [aiController].
  rewrite (getStartState_init (newSnakeAI 2 2 now now) ai1 0 eq_refl Ei Hi1).
  destruct (getStartState_Built ai1 0 HB1 ltac:(lia))
    as (st0 & ai2 & a0 & a1 & a2 & ia & Hst0 & HB2 & _).
  rewrite Hst0. cbn [orThrow obind].
  destruct (getStartState_Built ai2 2147483648 HB2 ltac:(lia))
    as (st1 & ai3 & b0 & b1 & b2 & ib & Hst1 & _).
  rewrite Hst1. cbn [orThrow obind].
  apply (maintainFoodCount_Crowded (coarseCells 2 2) oracle fuel Ho).
  - rewrite length_coarseCells. cbn. lia.
  - constructor.
    + reflexivity.
    + reflexivity.
    + apply NoDup_nil_2.
    + intros f Hf. change (f ∈ @nil pos) in Hf. destruct (not_elem_of_nil f Hf).
    + intros p Hin _. apply elem_of_coarseCells. exact Hin.
Qed.

Lemma boot_2x2_hangs_witness :
  (∀ n, 0 ≤ sampleRandom n < Rng.two32) ∧ 80 ≤ 100 < 160 ∧ 80 ≤ 150 < 160 ∧
  resizeCanvas 1000 sampleRandom 100 150 7 emptyWorld = OutOfFuel.
Proof.
  split; [exact sampleRandom_range|]. split; [lia|]. split; [lia|].
  apply (boot_2x2_hangs 1000 sampleRandom 100 150 7 emptyWorld sampleRandom_range); lia.
Defined.

(** ** Moves and collisions *)

(** The body of another agent is part of the obstacles given to agent [i]. *)
Lemma otherParts_elem (ss : list snakeT) (i j : nat) (o : snakeT) (p : pos) :
  j ≠ i → ss !! j = Some o → p ∈ body o → p ∈ otherParts ss i.
Proof.
  intros Hne Hj Hp. unfold otherParts.
  apply list_elem_of_In, in_concat. exists (body o). split; [|by apply list_elem_of_In].
  apply list_elem_of_In. apply (list_elem_of_lookup_2 _ j).
  rewrite list_lookup_imap, Hj. cbn [fmap option_fmap option_map].
  destruct (decide (i = j)); [congruence|done].
Qed.

(** X20. In a sane world, an agent to which [getNextMove] has returned a move
    collides only if its new head is on its own body: a move never takes it
    off the grid or onto the body of another agent. *)
Theorem given_move_hits_only_itself (i : nat) (W W1 : world) (s0 s : snakeT)
    (h : pos) (dec : decision) (m : Move) :
  Sane W → snakes W !! i = Some s0 →
  getNextMove (aiController W) (body s0) (foods W) None (otherParts (snakes W) i)
              (sid s0) (Some (snakeTargets W)) = Some dec →
  dec_move dec = Some m →
  decidePhase i W = Done (W1, s, h) →
  collides W1 s h = true → h ∈ body s0.
Proof.
  intros HS Hs0 Hdec Hm Hd Hcol.
  assert (Hs0in : s0 ∈ snakes W) by (by eapply list_elem_of_lookup_2).
  destruct (sn_bodies W HS s0 Hs0in) as [Hne Hbody].
  destruct (body s0) as [|h0 rest] eqn:Eb; [done|]. clear Hne.
  assert (Hh0 : inGrid (cols (aiController W)) (rows (aiController W)) h0).
  { rewrite (sn_cols W HS), (sn_rows W HS). apply Hbody, list_elem_of_here. }
  destruct (getNextMove_target (aiController W) (h0 :: rest) (foods W) None
              (otherParts (snakes W) i) (sid s0) (Some (snakeTargets W)) h0 dec m
              (sn_built W HS) eq_refl Hh0 Hdec Hm) as (Hg & _ & Hobs & _).
  rewrite (sn_cols W HS), (sn_rows W HS) in Hg.
  rewrite mkObstaclesSet_None in Hobs.
  unfold decidePhase in Hd. rewrite Hs0 in Hd. cbn [orThrow obind] in Hd.
  rewrite Eb, Hdec in Hd. cbn [orThrow obind] in Hd. cbv zeta in Hd.
  cbn [body steer head orThrow obind] in Hd. rewrite Eb in Hd.
  cbn [head orThrow obind] in Hd. rewrite Hm in Hd. cbn [sdx sdy] in Hd.
  injection Hd as <- <- <-.
  unfold collides in Hcol. cbv zeta in Hcol.
  cbn [TILE_COLS TILE_ROWS set_snakes set_targets set_ai logDecision body sid snakes]
    in Hcol.
  set (t := (px h0 + mv_x m, py h0 + mv_y m)) in *.
  assert (Ebnd : (px t <? 0) || (TILE_COLS W <=? px t) ||
                 (py t <? 0) || (TILE_ROWS W <=? py t) = false).
  { destruct Hg as [Hx Hy]. rewrite !orb_false_iff, !Z.ltb_ge, !Z.leb_gt. lia. }
  rewrite Ebnd in Hcol. cbn [negb] in Hcol.
  change (body (steer s0 (Some m))) with (body s0) in Hcol.
  change (sid (steer s0 (Some m))) with (sid s0) in Hcol. rewrite Eb in Hcol.
  destruct (hasPos (h0 :: rest) t) eqn:Eown.
  { by apply hasPos_elem. }
  cbn [negb] in Hcol. apply existsb_exists in Hcol as (other & Hin & Hb).
  apply andb_true_iff in Hb as [Hid Hhit].
  apply negb_true_iff, Z.eqb_neq in Hid. apply hasPos_elem in Hhit.
  apply list_elem_of_In in Hin.
  apply elem_of_list_insert in Hin as [->|Hin]; [done|].
  apply list_elem_of_lookup in Hin as [j Hj].
  destruct (decide (j = i)) as [->|Hne].
  - rewrite Hs0 in Hj. injection Hj as <-. done.
  - exfalso. apply Hobs. by eapply otherParts_elem.
Qed.

(** A world in which the agent 0 faces backwards along the cycle. *)
Definition selfHitWorld : world :=
  set_snakes demoWorld
    [ {| body := [(0,1); (0,2); (0,3)]; sdx := 0; sdy := -1;
         nextDx := 0; nextDy := -1; colorIndex := 0; sid := 0 |};
      {| body := [(5,3); (5,4); (5,5)]; sdx := 0; sdy := -1;
         nextDx := 0; nextDy := -1; colorIndex := 1; sid := 1 |} ].

Lemma selfHitWorld_Sane : Sane selfHitWorld.
Proof.
  constructor.
  - exact demoAI_Built.
  - vm_compute. reflexivity.
  - vm_compute. reflexivity.
  - intros s Hs. cbn [snakes selfHitWorld set_snakes] in Hs.
    change (TILE_COLS selfHitWorld) with 6. change (TILE_ROWS selfHitWorld) with 6.
    apply elem_of_cons in Hs as [->|Hs].
    { cbn [body]. split; [done|]. intros p Hp.
      repeat (apply elem_of_cons in Hp as [->|Hp];
              [unfold inGrid; cbn [px py fst snd]; lia|]).
      by apply elem_of_nil in Hp. }
    apply list_elem_of_singleton in Hs as ->.
    cbn [body]. split; [done|]. intros p Hp.
    repeat (apply elem_of_cons in Hp as [->|Hp];
            [unfold inGrid; cbn [px py fst snd]; lia|]).
    by apply elem_of_nil in Hp.
Qed.

Lemma given_move_hits_only_itself_witness :
  ∃ W1 s h dec m s0,
    Sane selfHitWorld ∧ snakes selfHitWorld !! 0%nat = Some s0 ∧
    getNextMove (aiController selfHitWorld) (body s0) (foods selfHitWorld) None
                (otherParts (snakes selfHitWorld) 0) (sid s0)
                (Some (snakeTargets selfHitWorld)) = Some dec ∧
    dec_move dec = Some m ∧
    decidePhase 0 selfHitWorld = Done (W1, s, h) ∧
    collides W1 s h = true ∧ h ∈ body s0.
Proof.
  assert (Hs0 : ∃ s0, snakes selfHitWorld !! 0%nat = Some s0) by (by eexists).
  destruct Hs0 as [s0 Hs0].
  assert (Hdec : ∃ dec m,
    getNextMove (aiController selfHitWorld) [(0,1); (0,2); (0,3)] (foods selfHitWorld)
                None (otherParts (snakes selfHitWorld) 0) 0
                (Some (snakeTargets selfHitWorld)) = Some dec ∧
    dec_move dec = Some m).
  { vm_compute. do 2 eexists. split; reflexivity. }
  destruct Hdec as (dec & m & Hdec & Hm).
  assert (Hd : ∃ W1 s h, decidePhase 0 selfHitWorld = Done (W1, s, h)).
  { vm_compute. do 3 eexists. reflexivity. }
  destruct Hd as (W1 & s & h & Hd).
  assert (Hc : collides W1 s h = true).
  { assert (E : obind (decidePhase 0 selfHitWorld)
                      (fun r => Done (collides r.1.1 r.1.2 r.2)) = Done true)
      by (vm_compute; reflexivity).
    rewrite Hd in E. cbn in E. by injection E. }
  exists W1, s, h, dec, m, s0.
  injection Hs0 as <-.
  split; [exact selfHitWorld_Sane|]. split; [reflexivity|].
  split; [exact Hdec|]. split; [exact Hm|]. split; [exact Hd|]. split; [exact Hc|].
  exact (given_move_hits_only_itself 0 selfHitWorld W1 _ s h dec m
           selfHitWorld_Sane eq_refl Hdec Hm Hd Hc).
Defined.

(** [foods.findIndex] returns the first index at which the head is, and -1,
    here [None], when the head is on no food. *)
Lemma findIndex_spec (h : pos) (fs : list pos) :
  match findIndex h fs with
  | Some k => fs !! k = Some h ∧ ∀ j, (j < k)%nat → fs !! j ≠ Some h
  | None => h ∉ fs
  end.
Proof.
  induction fs as [|f fs IH]; cbn [findIndex].
  - apply not_elem_of_nil.
  - destruct ((px h =? px f) && (py h =? py f)) eqn:E.
    + apply andb_true_iff in E as [Ex Ey]. apply Z.eqb_eq in Ex, Ey.
      destruct h, f. cbn [px py fst snd] in *. subst. split; [done|]. lia.
    + assert (Hne : h ≠ f).
      { intros ->. by rewrite !Z.eqb_refl in E. }
      destruct (findIndex h fs) as [k|]; cbn [fmap option_fmap option_map].
      * destruct IH as [Hk Hfirst]. split; [done|].
        intros [|j] Hj; cbn; [congruence|]. apply Hfirst. lia.
      * apply not_elem_of_cons. done.
Qed.

(** X21. An iteration in which the agent does not collide puts the new head in
    front of its body, and removes the last cell of the body unless the new
    head is on a food. When it is, the body is one cell longer, the first
    food on that cell is removed before the foods are replenished, and the
    claim of the agent is deleted. *)
Theorem move_grows_only_on_food (fuel : nat) (oracle : oracle_t) (i : nat)
    (W W1 W' : world) (s : snakeT) (h : pos) :
  decidePhase i W = Done (W1, s, h) → collides W1 s h = false →
  stepSnake fuel oracle i W = Done W' →
  ((h ∉ foods W) ∧ foods W' = foods W ∧
   snakes W' !! i = Some (set_body s (removelast (h :: body s))) ∧
   length (removelast (h :: body s)) = length (body s))
  ∨
  (∃ k, foods W !! k = Some h ∧ (∀ j, (j < k)%nat → foods W !! j ≠ Some h) ∧
        maintainFoodCount fuel oracle
          (set_targets
             (set_foods (set_snakes W1 (<[i := set_body s (h :: body s)]> (snakes W1)))
                        (splice1 k (foods W)))
             (delete (sid s) (snakeTargets W1))) = Done W' ∧
        snakes W' !! i = Some (set_body s (h :: body s)) ∧
        snakeTargets W' !! sid s = None).
Proof.
  intros Hd Hc Hstep. unfold stepSnake in Hstep. rewrite Hd in Hstep.
  cbn [obind] in Hstep. rewrite Hc in Hstep.
  apply decidePhase_spec in Hd
    as (s0 & h0 & Hs0 & Hh0 & Hb & Hid & _ & _ & Hss & _ & Hf1 & _).
  pose proof (lookup_lt_Some _ _ _ Hs0) as Hlt.
  unfold advance in Hstep. cbv zeta in Hstep.
  cbn [foods set_snakes snakes body set_body] in Hstep. rewrite Hf1 in Hstep.
  pose proof (findIndex_spec h (foods W)) as Hfi.
  destruct (findIndex h (foods W)) as [k|].
  - right. destruct Hfi as [Hk Hfirst]. exists k.
    unfold eatFood in Hstep. cbv zeta in Hstep.
    cbn [foods set_snakes snakes snakeTargets set_foods] in Hstep.
    rewrite Hf1 in Hstep.
    split; [done|]. split; [done|]. split; [exact Hstep|].
    pose proof (maintainFoodCount_frame _ _ _ _ Hstep) as (Hs' & _ & Ht' & _).
    rewrite Hs', Ht'. cbn [snakes set_targets set_foods set_snakes snakeTargets].
    split; [|apply lookup_delete_eq].
    rewrite Hss. apply list_lookup_insert_eq. by rewrite length_insert.
  - left. injection Hstep as <-.
    cbn [foods set_snakes snakes]. rewrite Hf1. split; [done|]. split; [done|].
    split.
    + rewrite Hss. apply list_lookup_insert_eq. by rewrite !length_insert.
    + rewrite Hb. destruct (body s0) as [|x l] eqn:Eb.
      * done.
      * clear. revert x. induction l as [|y l IH]; intros x; [done|].
        cbn [removelast length] in *. f_equal. apply (IH y).
Qed.

Lemma move_grows_only_on_food_witness :
  ∃ W1 s h W',
    decidePhase 0 demoWorld = Done (W1, s, h) ∧ collides W1 s h = false ∧
    stepSnake 5 sampleRandom 0 demoWorld = Done W' ∧
    (((h ∉ foods demoWorld) ∧ foods W' = foods demoWorld ∧
      snakes W' !! 0%nat = Some (set_body s (removelast (h :: body s))) ∧
      length (removelast (h :: body s)) = length (body s))
     ∨
     (∃ k, foods demoWorld !! k = Some h ∧
           (∀ j, (j < k)%nat → foods demoWorld !! j ≠ Some h) ∧
           maintainFoodCount 5 sampleRandom
             (set_targets
                (set_foods (set_snakes W1 (<[0%nat := set_body s (h :: body s)]>
                                             (snakes W1)))
                           (splice1 k (foods demoWorld)))
                (delete (sid s) (snakeTargets W1))) = Done W' ∧
           snakes W' !! 0%nat = Some (set_body s (h :: body s)) ∧
           snakeTargets W' !! sid s = None)).
Proof.
  assert (Hd : ∃ W1 s h, decidePhase 0 demoWorld = Done (W1, s, h)).
  { vm_compute. do 3 eexists. reflexivity. }
  destruct Hd as (W1 & s & h & Hd).
  assert (Hc : collides W1 s h = false).
  { assert (E : obind (decidePhase 0 demoWorld)
                      (fun r => Done (collides r.1.1 r.1.2 r.2)) = Done false)
      by (vm_compute; reflexivity).
    rewrite Hd in E. cbn in E. by injection E. }
  assert (Hs : ∃ W', stepSnake 5 sampleRandom 0 demoWorld = Done W').
  { vm_compute. eexists. reflexivity. }
  destruct Hs as (W' & Hs).
  exists W1, s, h, W'.
  split; [exact Hd|]. split; [exact Hc|]. split; [exact Hs|].
  exact (move_grows_only_on_food 5 sampleRandom 0 demoWorld W1 W' s h Hd Hc Hs).
Defined.

(** ** The nearest food *)

(** On a built controller, the distance that [findNearestFood] computes to
    a food is the number of steps, fewer than the length of the cycle, after
    which the cycle reaches the food from the head. *)
Lemma foodDist_steps (ai : SnakeAI) (head f : pos) (d : Z) :
  Built ai → inGrid (cols ai) (rows ai) head →
  (foodDist ai head f = Some d ↔
   0 ≤ d < cycleLen ai ∧ cycleAhead ai head (Z.to_nat d) = Some f).
Proof.
  intros HB Hh.
  destruct (Built_onCycle ai head HB Hh) as (hIdx & Eh & Hr).
  pose proof (Built_size ai HB) as HL.
  unfold foodDist, cycleAhead. rewrite Eh. cbn [mbind option_bind]. split.
  - destruct (getCycleIndex ai f) as [fIdx|] eqn:Ef; [|done].
    destruct (Built_index_lookup ai f fIdx HB Ef) as [Hfr Hfl].
    cbv zeta. intros [= <-].
    destruct (Z.ltb_spec (fIdx - hIdx) 0).
    + split; [lia|]. rewrite Z2Nat.id by lia.
      replace (hIdx + (fIdx - hIdx + cycleLen ai)) with (fIdx + 1 * cycleLen ai) by lia.
      rewrite Z.mod_add by lia. by rewrite Z.mod_small by lia.
    + split; [lia|]. rewrite Z2Nat.id by lia.
      replace (hIdx + (fIdx - hIdx)) with fIdx by lia.
      by rewrite Z.mod_small by lia.
  - intros [Hd Hl]. rewrite Z2Nat.id in Hl by lia.
    pose proof (Z.mod_pos_bound (hIdx + d) (cycleLen ai) ltac:(lia)) as Hm.
    pose proof (Built_lookup_index ai _ f HB Hl) as Ef.
    rewrite Z2Nat.id in Ef by lia. rewrite Ef. cbv zeta. f_equal.
    destruct (decide (hIdx + d < cycleLen ai)).
    + rewrite Z.mod_small by lia.
      rewrite (proj2 (Z.ltb_ge _ _)) by lia. lia.
    + replace ((hIdx + d) mod cycleLen ai) with (hIdx + d - cycleLen ai).
      * rewrite (proj2 (Z.ltb_lt _ _)) by lia. lia.
      * apply (Z.mod_unique_pos _ _ 1); lia.
Qed.

(** X22. On a built controller, the food that [findNearestFood] returns is, of
    the foods on the grid that no other agent claims, one that the cycle
    reaches from the head in the fewest steps, and the first such food of
    the list; it returns [null] only when every food is claimed by another
    agent or is off the grid. *)
Theorem findNearestFood_is_nearest (ai : SnakeAI) (head : pos) (foods : list pos)
    (id : Z) (t : option targets_t) :
  Built ai → inGrid (cols ai) (rows ai) head →
  match (findNearestFood ai head foods id t).1 with
  | Some f =>
    ∃ (k d : nat),
      foods !! k = Some f ∧ isTaken t id (Z.of_nat k) = false ∧
      Z.of_nat d < cycleLen ai ∧ cycleAhead ai head d = Some f ∧
      ∀ (j d' : nat) f',
        foods !! j = Some f' → isTaken t id (Z.of_nat j) = false →
        Z.of_nat d' < cycleLen ai → cycleAhead ai head d' = Some f' →
        (d ≤ d')%nat ∧ ((j < k)%nat → (d < d')%nat)
  | None =>
    ∀ (j : nat) f, foods !! j = Some f →
      isTaken t id (Z.of_nat j) = true ∨ ¬ inGrid (cols ai) (rows ai) f
  end.
Proof.
  intros HB Hh.
  change ((findNearestFood ai head foods id t).1)
    with (nearest (nearestResult ai head foods id t)).
  pose proof (nearestResult_Best ai head foods id t) as HBest. unfold Best in HBest.
  destruct (nearest (nearestResult ai head foods id t)) as [f|].
  - destruct HBest as (k & d & _ & _ & Hk & Htk & Hd & Hmin).
    apply (foodDist_steps ai head f d HB Hh) in Hd as [Hdr Hda].
    exists k, (Z.to_nat d). rewrite Z2Nat.id by lia. split_and!; try done; [lia|].
    intros j d' f' Hj Hjt Hd'r Hd'a.
    assert (Hfd : foodDist ai head f' = Some (Z.of_nat d')).
    { apply (foodDist_steps ai head f' _ HB Hh). rewrite Nat2Z.id. split; [lia|done]. }
    destruct (Hmin j f' _ Hj Hjt Hfd) as [H1 H2]. split; [lia|]. intros Hjk.
    specialize (H2 Hjk). lia.
  - destruct HBest as [_ Hall]. intros j f Hj.
    destruct (Hall j f Hj) as [Htk|Hnone]; [by left|]. right. intros Hf.
    destruct (Built_onCycle ai f HB Hf) as (fIdx & Ef & _).
    destruct (Built_onCycle ai head HB Hh) as (hIdx & Eh & _).
    unfold foodDist in Hnone. by rewrite Ef, Eh in Hnone.
Qed.

Lemma findNearestFood_is_nearest_witness :
  Built demoAI ∧ inGrid (cols demoAI) (rows demoAI) (2,3) ∧
  match (findNearestFood demoAI (2,3) [(4,5); (1,1); (9,9)] 0 (Some {[1 := 1]})).1 with
  | Some f =>
    ∃ (k d : nat),
      [(4,5); (1,1); (9,9)] !! k = Some f ∧
      isTaken (Some {[1 := 1]}) 0 (Z.of_nat k) = false ∧
      Z.of_nat d < cycleLen demoAI ∧ cycleAhead demoAI (2,3) d = Some f ∧
      ∀ (j d' : nat) f',
        [(4,5); (1,1); (9,9)] !! j = Some f' →
        isTaken (Some {[1 := 1]}) 0 (Z.of_nat j) = false →
        Z.of_nat d' < cycleLen demoAI → cycleAhead demoAI (2,3) d' = Some f' →
        (d ≤ d')%nat ∧ ((j < k)%nat → (d < d')%nat)
  | None =>
    ∀ (j : nat) f, [(4,5); (1,1); (9,9)] !! j = Some f →
      isTaken (Some {[1 := 1]}) 0 (Z.of_nat j) = true ∨
      ¬ inGrid (cols demoAI) (rows demoAI) f
  end.
Proof.
  assert (Hin : inGrid (cols demoAI) (rows demoAI) (2,3)).
  { unfold inGrid. split; vm_compute; (split; [intros E; discriminate E|reflexivity]). }
  split; [exact demoAI_Built|]. split; [exact Hin|].
  pose proof (findNearestFood_is_nearest demoAI (2,3) [(4,5); (1,1); (9,9)] 0
           (Some {[1 := 1]}) demoAI_Built Hin) as H.
  exact H.
Defined.

(** ** An agent alone, and an agent that collides *)

(** X23. With an empty obstacle list, on a built controller and for a body whose
    head is on the grid, [getNextMove] returns a move, never [null], and the
    move is not a survival move unless the poison is on the cell one step
    ahead on the cycle: the lookahead of five cells does not look at the
    poison. *)
Theorem lone_agent_keeps_moving (ai : SnakeAI) (snake foods : list pos)
    (poison : option pos) (id : Z) (targets : option targets_t) (h : pos) :
  Built ai → head snake = Some h → inGrid (cols ai) (rows ai) h →
  poison ≠ cycleAhead ai h 1 →
  ∃ d m, getNextMove ai snake foods poison [] id targets = Some d ∧
         dec_move d = Some m ∧
         (mv_type m = "cycle" ∨ mv_type m = "shortcut").
Proof.
  intros HB Hh Hin Hp. pose proof (Built_onCycle ai h HB Hin) as Hon.
  unfold getNextMove, ensureInit. rewrite (bt_init ai HB).
  cbn [mbind option_bind]. rewrite Hh. cbn [mbind option_bind].
  destruct (cycleAhead_Some ai h 1 Hon) as [nextPos Hnext].
  rewrite (nextOnCycle_ahead ai h Hon), Hnext. cbn [mbind option_bind].
  rewrite bool_decide_eq_false_2.
  2:{ unfold mkObstaclesSet. cbn [list_to_set foldr].
      destruct poison as [p|]; [|apply not_elem_of_empty].
      rewrite elem_of_union, elem_of_singleton. intros [->|He].
      - by rewrite Hnext in Hp.
      - by apply not_elem_of_empty in He. }
  destruct (isSafePath_spec ai h 5 [] Hon) as (safe & -> & Hsafe).
  cbn [mbind option_bind].
  rewrite (proj2 Hsafe); [|intros i p _ _ Hel; by apply elem_of_nil in Hel].
  cbn [negb].
  destruct (findNearestFood ai h foods id targets) as [[food|] tt].
  2:{ do 2 eexists. split; [reflexivity|]. cbn [dec_move mv_type]. split; [done|]. by left. }
  unfold findShortcut.
  assert (Hl : is_Some (last snake)).
  { destruct snake as [|x l]; [done|]. rewrite last_cons.
    destruct (last l); by eexists. }
  destruct Hl as [tail ->]. cbn [mbind option_bind].
  destruct (firstShortcut _ _); do 2 eexists;
    (split; [reflexivity|]); cbn [dec_move mv_type]; (split; [done|]); [by right|by left].
Qed.

Lemma lone_agent_keeps_moving_witness :
  Built demoAI ∧ head [(2,3); (2,2); (3,2)] = Some (2,3) ∧
  inGrid (cols demoAI) (rows demoAI) (2,3) ∧
  Some (1,3) ≠ cycleAhead demoAI (2,3) 1 ∧
  ∃ d m, getNextMove demoAI [(2,3); (2,2); (3,2)] [(4,5)] (Some (1,3)) [] 0 None
           = Some d ∧
         dec_move d = Some m ∧
         (mv_type m = "cycle" ∨ mv_type m = "shortcut").
Proof.
  assert (Hin : inGrid (cols demoAI) (rows demoAI) (2,3)).
  { unfold inGrid. split; vm_compute; (split; [intros E; discriminate E|reflexivity]). }
  assert (Hp : Some (1,3) ≠ cycleAhead demoAI (2,3) 1).
  { vm_compute. intros E. discriminate E. }
  split; [exact demoAI_Built|]. split; [reflexivity|]. split; [exact Hin|].
  split; [exact Hp|].
  pose proof (lone_agent_keeps_moving demoAI [(2,3); (2,2); (3,2)] [(4,5)]
                (Some (1,3)) 0 None (2,3) demoAI_Built eq_refl Hin Hp) as H.
  exact H.
Defined.

(** X24. In a sane world, an agent that collides is replaced, in the same place
    of the list, by an agent with the same id and the same colour whose body
    is three distinct cells of the grid that follow each other on the cycle;
    the other agents and the foods are left as they are, and
    [Math.random()] is called once. *)
Theorem collision_respawns (fuel : nat) (oracle : oracle_t) (i : nat)
    (W W1 : world) (s : snakeT) (h : pos) :
  (∀ n, 0 ≤ oracle n < Rng.two32) → Sane W →
  decidePhase i W = Done (W1, s, h) → collides W1 s h = true →
  ∃ W' sf c0 c1 c2,
    stepSnake fuel oracle i W = Done W' ∧
    snakes W' = <[i := sf]> (snakes W) ∧
    sid sf = sid s ∧ colorIndex sf = colorIndex s ∧
    body sf = [c0; c1; c2] ∧ NoDup [c0; c1; c2] ∧
    (∀ c, c ∈ [c0; c1; c2] → inGrid (TILE_COLS W) (TILE_ROWS W) c) ∧
    (c1, c0) ∈ cpairs (hamiltonianCycle (aiController W)) ∧
    (c2, c1) ∈ cpairs (hamiltonianCycle (aiController W)) ∧
    sdx sf = px c0 - px c1 ∧ sdy sf = py c0 - py c1 ∧
    foods W' = foods W ∧
    mathRandomCalls W' = S (mathRandomCalls W).
Proof.
  intros Ho HS Hd Hc. unfold stepSnake. rewrite Hd. cbn [obind]. rewrite Hc.
  pose proof Hd as Hd'. apply decidePhase_spec in Hd'
    as (s0 & h0 & Hs0 & _ & Hb & Hid & Hcol & _ & Hss & _ & Hf1 & Hc1 & Hr1).
  assert (Hai : aiController W1 = aiController W ∧
                mathRandomCalls W1 = mathRandomCalls W).
  { unfold decidePhase in Hd. rewrite Hs0 in Hd. cbn [orThrow obind] in Hd.
    destruct (getNextMove _ _ _ _ _ _ _) as [dec|] eqn:Edec; [|done].
    cbn [orThrow obind] in Hd. cbv zeta in Hd.
    destruct (head (body (steer s0 (dec_move dec)))); [|done].
    cbn [orThrow obind] in Hd. injection Hd as <- _ _.
    cbn [aiController set_snakes set_targets set_ai mathRandomCalls logDecision].
    split; [|done].
    eapply getNextMove_keeps_ai; [|exact Edec]. apply (bt_init _ (sn_built W HS)). }
  destruct Hai as [Hai Hcalls].
  unfold respawn, mathRandom. cbv zeta. cbn [aiController mathRandomCalls].
  destruct (getStartState_Built (aiController W1) (oracle (mathRandomCalls W1) * 1000))
    as (st & ai' & c0 & c1 & c2 & hIdx & Hst & HB' & Hcyc & Hcols & Hrows & _ &
        Hsn & Hnd & Hgrid & _ & _ & H10 & H21 & Hdx & Hdy & _).
  { rewrite Hai. apply (sn_built W HS). }
  { specialize (Ho (mathRandomCalls W1)). lia. }
  rewrite Hst. cbn [orThrow obind].
  eexists _, (mkSnake st (colorIndex s) (sid s)), c0, c1, c2.
  split; [reflexivity|].
  cbn [snakes set_snakes set_ai foods mathRandomCalls sid colorIndex body sdx sdy mkSnake].
  rewrite Hss, list_insert_insert_eq, Hf1, Hcalls.
  rewrite Hai in Hgrid, H10, H21.
  rewrite (sn_cols W HS), (sn_rows W HS) in Hgrid.
  split_and!; done.
Qed.

Lemma collision_respawns_witness :
  ∃ W1 s h,
    (∀ n, 0 ≤ sampleRandom n < Rng.two32) ∧ Sane selfHitWorld ∧
    decidePhase 0 selfHitWorld = Done (W1, s, h) ∧ collides W1 s h = true ∧
    ∃ W' sf c0 c1 c2,
      stepSnake 5 sampleRandom 0 selfHitWorld = Done W' ∧
      snakes W' = <[0%nat := sf]> (snakes selfHitWorld) ∧
      sid sf = sid s ∧ colorIndex sf = colorIndex s ∧
      body sf = [c0; c1; c2] ∧ NoDup [c0; c1; c2] ∧
      (∀ c, c ∈ [c0; c1; c2] →
            inGrid (TILE_COLS selfHitWorld) (TILE_ROWS selfHitWorld) c) ∧
      (c1, c0) ∈ cpairs (hamiltonianCycle (aiController selfHitWorld)) ∧
      (c2, c1) ∈ cpairs (hamiltonianCycle (aiController selfHitWorld)) ∧
      sdx sf = px c0 - px c1 ∧ sdy sf = py c0 - py c1 ∧
      foods W' = foods selfHitWorld ∧
      mathRandomCalls W' = S (mathRandomCalls selfHitWorld).
Proof.
  assert (Hd : ∃ W1 s h, decidePhase 0 selfHitWorld = Done (W1, s, h)).
  { vm_compute. do 3 eexists. reflexivity. }
  destruct Hd as (W1 & s & h & Hd).
  assert (Hc : collides W1 s h = true).
  { assert (E : obind (decidePhase 0 selfHitWorld)
                      (fun r => Done (collides r.1.1 r.1.2 r.2)) = Done true)
      by (vm_compute; reflexivity).
    rewrite Hd in E. cbn in E. by injection E. }
  exists W1, s, h.
  split; [exact sampleRandom_range|]. split; [exact selfHitWorld_Sane|].
  split; [exact Hd|]. split; [exact Hc|].
  pose proof (collision_respawns 5 sampleRandom 0 selfHitWorld W1 s h
                sampleRandom_range selfHitWorld_Sane Hd Hc) as H.
  exact H.
Defined.

(** ** Joining cycles, and the foods over the ticks *)

(** X25. [swapLinks] joins two cycles: when the table holds two cycles that
    share no cell, [a1 - a2] is an edge of the first and [b1 - b2] an edge of the
    second, then [swapLinks(links, a1, a2, b1, b2)] returns a table that
    holds one cycle through the cells of both, in which [a1 - b1] and
    [a2 - b2] are linked and which keeps the edges of the two cycles other
    than [a1 - a2] and [b1 - b2]; the entries of the other cells are
    untouched. *)
Theorem swapLinks_joins_cycles (M : links_t) (L B : list pos) (a1 a2 b1 b2 : pos) :
  Rep M L → Rep M B → (∀ x, x ∈ L → x ∈ B → False) →
  cedge L a1 a2 → cedge B b1 b2 → a1 ≠ a2 → b1 ≠ b2 →
  ∃ M' L', swapLinks M a1 a2 b1 b2 = Some M' ∧ Rep M' L' ∧
    L' ≡ₚ L ++ B ∧ length L' = (length L + length B)%nat ∧
    (∀ k, k ≠ a1 → k ≠ a2 → k ≠ b1 → k ≠ b2 → M' !! k = M !! k) ∧
    (∀ a b, cedge L a b → ¬ (a = a1 ∧ b = a2) → ¬ (a = a2 ∧ b = a1) → cedge L' a b) ∧
    (∀ a b, cedge B a b → ¬ (a = b1 ∧ b = b2) → ¬ (a = b2 ∧ b = b1) → cedge L' a b) ∧
    (∀ a b, (a, b) ∈ cpairs L' →
       cedge L a b ∨ cedge B a b ∨ (a, b) = (a1, b1) ∨ (a, b) = (b2, a2)).
Proof.
  intros RL RB Hdis Ea Eb Na Nb.
  destruct (merge M L B a1 a2 b1 b2 RL RB Hdis Ea Eb Na Nb)
    as (M' & L' & Hsw & HR & Hp & Hoth & HeL & HeB & Hpairs).
  exists M', L'. split_and!; try done.
  rewrite Hp. apply length_app.
Qed.

Lemma swapLinks_joins_cycles_witness :
  ∃ M' L',
    swapLinks (foldl linkBlock (∅ : links_t) (coarseCells 2 1)) (1,0) (1,1) (2,0) (2,1)
      = Some M' ∧ Rep M' L' ∧
    L' ≡ₚ blk (0,0) ++ blk (1,0) ∧
    length L' = (length (blk (0%Z, 0%Z)) + length (blk (1%Z, 0%Z)))%nat.
Proof.
  assert (R0 : Rep (foldl linkBlock (∅ : links_t) (coarseCells 2 1)) (blk (0,0))).
  { apply Rep_blk, initial_intact. unfold inGrid. cbn [px py fst snd]. lia. }
  assert (R1 : Rep (foldl linkBlock (∅ : links_t) (coarseCells 2 1)) (blk (1,0))).
  { apply Rep_blk, initial_intact. unfold inGrid. cbn [px py fst snd]. lia. }
  assert (Hdis : ∀ x, x ∈ blk (0,0) → x ∈ blk (1,0) → False).
  { intros x H0 H1. unfold blk in H0, H1. cbn [px py fst snd] in H0, H1.
    repeat (apply elem_of_cons in H0 as [->|H0];
            [repeat (apply elem_of_cons in H1 as [H1|H1]; [discriminate H1|]);
             by apply elem_of_nil in H1|]).
    by apply elem_of_nil in H0. }
  assert (Ea : cedge (blk (0,0)) (1,0) (1,1)).
  { left. unfold blk. cbn. apply list_elem_of_further, list_elem_of_here. }
  assert (Eb : cedge (blk (1,0)) (2,0) (2,1)).
  { right. unfold blk. cbn. do 3 apply list_elem_of_further. apply list_elem_of_here. }
  destruct (swapLinks_joins_cycles _ (blk (0,0)) (blk (1,0)) (1,0) (1,1) (2,0) (2,1)
              R0 R1 Hdis Ea Eb ltac:(intros [=]) ltac:(intros [=]))
    as (M' & L' & H1 & H2 & H3 & H4 & _).
  exists M', L'. split; [exact H1|]. split; [exact H2|]. split; [exact H3|exact H4].
Defined.

(** The foods of a world: five distinct cells of the grid. *)
Record FiveFoods (W : world) : Prop := MkFiveFoods {
  ff_count : length (foods W) = 5%nat;
  ff_nodup : NoDup (foods W);
  ff_grid : ∀ f, f ∈ foods W → inGrid (TILE_COLS W) (TILE_ROWS W) f
}.


Lemma NoDup_splice1 {A} (i : nat) (l : list A) : NoDup l → NoDup (splice1 i l).
Proof.
  intros Hnd. unfold splice1. rewrite <- (take_drop i l) in Hnd.
  apply NoDup_app in Hnd as (H1 & H2 & H3).
  apply NoDup_app. split; [done|]. split.
  - intros x Hx Hd. apply (H2 x Hx).
    rewrite <- (take_drop 1 (drop i l)), drop_drop, elem_of_app.
    right. by replace (i + 1)%nat with (S i) by lia.
  - rewrite <- (take_drop 1 (drop i l)), drop_drop in H3.
    apply NoDup_app in H3 as (_ & _ & H3).
    by replace (i + 1)%nat with (S i) in H3 by lia.
Qed.

(** An iteration of the loop on a sane world with five foods returns a
    world with five foods. *)
Lemma stepSnake_FiveFoods (fuel : nat) (oracle : oracle_t) (i : nat) (W W' : world) :
  (∀ k, 0 ≤ oracle k < Rng.two32) → Sane W → FiveFoods W →
  stepSnake fuel oracle i W = Done W' → FiveFoods W'.
Proof.
  intros Ho HS HF Hstep.
  assert (Hc : 0 < TILE_COLS W).
  { rewrite <- (sn_cols W HS). apply (bt_cols _ (sn_built W HS)). }
  assert (Hr : 0 < TILE_ROWS W).
  { rewrite <- (sn_rows W HS). apply (bt_rows _ (sn_built W HS)). }
  unfold stepSnake in Hstep.
  apply obind_Done in Hstep as ([[W1 s] h] & Hd & Hstep).
  apply decidePhase_spec in Hd
    as (s0 & h0 & Hs0 & _ & Hb & Hid & _ & _ & Hss & _ & Hf1 & Hc1 & Hr1).
  destruct (collides W1 s h).
  - unfold respawn, mathRandom in Hstep. cbv zeta in Hstep.
    apply obind_Done in Hstep as ([st ai] & _ & Hstep). injection Hstep as <-.
    destruct HF as [H1 H2 H3].
    constructor; cbn [foods set_snakes set_ai TILE_COLS TILE_ROWS];
      rewrite ?Hf1, ?Hc1, ?Hr1; done.
  - unfold advance in Hstep. cbv zeta in Hstep.
    cbn [foods set_snakes] in Hstep. rewrite Hf1 in Hstep.
    pose proof (findIndex_spec h (foods W)) as Hfi.
    destruct (findIndex h (foods W)) as [k|].
    + destruct Hfi as [Hk _]. unfold eatFood in Hstep. cbv zeta in Hstep.
      cbn [foods set_snakes set_foods snakeTargets] in Hstep. rewrite Hf1 in Hstep.
      match type of Hstep with maintainFoodCount _ _ ?w = _ => set (W2 := w) in * end.
      assert (HW2 : foods W2 = splice1 k (foods W) ∧ TILE_COLS W2 = TILE_COLS W ∧
                    TILE_ROWS W2 = TILE_ROWS W).
      { unfold W2. cbn [foods TILE_COLS TILE_ROWS set_targets set_foods set_snakes].
        by rewrite Hc1, Hr1. }
      destruct HW2 as (Hf2 & Hc2 & Hr2).
      destruct HF as [H1 H2 H3].
      pose proof (length_splice1 k (foods W) h Hk) as Hlen.
      destruct (maintainFoodCount_frame _ _ _ _ Hstep) as (_ & _ & _ & _ & Hc' & Hr').
      destruct (maintainFoodCount_foods oracle fuel Ho W2 W')
        as (new & Hnew & Hcount & Hall); [by rewrite Hc2|by rewrite Hr2|exact Hstep|].
      constructor.
      * rewrite Hcount, Hf2. lia.
      * apply (maintainFoodCount_NoDup oracle fuel Ho W2 W');
          [by rewrite Hc2|by rewrite Hr2| |exact Hstep].
        rewrite Hf2. by apply NoDup_splice1.
      * intros f Hf. rewrite Hc', Hr', Hc2, Hr2. rewrite Hnew, Hf2 in Hf.
        apply elem_of_app in Hf as [Hf|Hf].
        -- apply H3. by eapply elem_of_splice1.
        -- destruct (Hall f Hf) as (Hg & _). by rewrite Hc2, Hr2 in Hg.
    + injection Hstep as <-. destruct HF as [H1 H2 H3].
      constructor; cbn [foods set_snakes TILE_COLS TILE_ROWS];
        rewrite ?Hf1, ?Hc1, ?Hr1; done.
Qed.

Lemma gameLoopFrom_FiveFoods (fuel : nat) (oracle : oracle_t) (n : nat) :
  (∀ k, 0 ≤ oracle k < Rng.two32) →
  ∀ (i : nat) (W W' : world), Sane W → FiveFoods W →
    (i + n = length (snakes W))%nat →
    gameLoopFrom n fuel oracle i W = Done W' → FiveFoods W'.
Proof.
  intros Ho. induction n as [|n IH]; intros i W W' HS HF Hn; cbn [gameLoopFrom].
  - by intros [= <-].
  - intros H. apply obind_Done in H as (W1 & H1 & H).
    destruct (stepSnake_Sane fuel oracle i W Ho HS ltac:(lia)) as [_ Hstep].
    destruct (Hstep W1 H1) as (HS1 & _ & _ & Hid1 & _).
    assert (Hlen : length (snakes W1) = length (snakes W)).
    { rewrite <- (length_fmap sid (snakes W1)), Hid1. apply length_fmap. }
    apply (IH (S i) W1 W' HS1); [|lia|exact H].
    exact (stepSnake_FiveFoods fuel oracle i W W1 Ho HS HF H1).
Qed.

(** X26. From a sane world with five foods that are distinct cells of the
    grid, every world that the ticks return has five foods again, distinct
    cells of the grid: a food that is eaten is replaced within the same
    iteration. *)
Theorem ticks_keep_five_foods (fuel : nat) (oracle : oracle_t) (k : nat)
    (W W' : world) :
  (∀ n, 0 ≤ oracle n < Rng.two32) → Sane W → FiveFoods W →
  ticks k fuel oracle W = Done W' → FiveFoods W'.
Proof.
  intros Ho. revert W. induction k as [|k IH]; intros W HS HF; cbn [ticks].
  - by intros [= <-].
  - intros H. apply obind_Done in H as (W1 & H1 & H).
    destruct (gameLoopFrom_Sane fuel oracle (length (snakes W)) Ho 0 W HS eq_refl)
      as [_ Hloop].
    destruct (Hloop W1 H1) as (HS1 & _).
    apply (IH W1 HS1); [|exact H].
    by apply (gameLoopFrom_FiveFoods fuel oracle (length (snakes W)) Ho 0 W W1).
Qed.

Lemma demoWorld_FiveFoods : FiveFoods demoWorld.
Proof.
  constructor.
  - reflexivity.
  - cbn [foods demoWorld].
    repeat (apply NoDup_cons; split;
            [rewrite ?elem_of_cons, elem_of_nil; intros H;
             repeat (destruct H as [H|H]; [discriminate H|]); done|]).
    apply NoDup_nil_2.
  - intros f Hf. cbn [foods demoWorld] in Hf.
    change (TILE_COLS demoWorld) with 6. change (TILE_ROWS demoWorld) with 6.
    repeat (apply elem_of_cons in Hf as [->|Hf];
            [unfold inGrid; cbn [px py fst snd]; lia|]).
    by apply elem_of_nil in Hf.
Qed.

Lemma ticks_keep_five_foods_witness :
  ∃ W',
    (∀ n, 0 ≤ sampleRandom n < Rng.two32) ∧ Sane demoWorld ∧ FiveFoods demoWorld ∧
    ticks 3 10 sampleRandom demoWorld = Done W' ∧ FiveFoods W'.
Proof.
  assert (H : ∃ W', ticks 3 10 sampleRandom demoWorld = Done W').
  { vm_compute. eexists. reflexivity. }
  destruct H as [W' H]. exists W'.
  split; [exact sampleRandom_range|]. split; [exact demoWorld_Sane|].
  split; [exact demoWorld_FiveFoods|]. split; [exact H|].
  exact (ticks_keep_five_foods 10 sampleRandom 3 demoWorld W' sampleRandom_range
           demoWorld_Sane demoWorld_FiveFoods H).
Defined.

(** ** The boot and its first tick *)

Lemma getStartState_length (ai ai' : SnakeAI) (off : Z) (st : startState) :
  getStartState ai off = Some (st, ai') → length (st_snake st) = 3%nat.
Proof.
  unfold getStartState. intros H.
  destruct (ensureInit ai) as [ai1|]; [|done]. cbn [mbind option_bind] in H.
  destruct (Rng.random (seed ai1)) as [seed' k]. cbv zeta in H.
  repeat (match type of H with
          | context [jsIndex ?l ?i] => destruct (jsIndex l i); [|done]
          end; cbn [mbind option_bind] in H).
  by injection H as <- _.
Qed.

Lemma length_removelast_cons {A} (x : A) (l : list A) :
  length (removelast (x :: l)) = length l.
Proof.
  revert x. induction l as [|y l IH]; intros x; [done|].
  change (removelast (x :: y :: l)) with (x :: removelast (y :: l)).
  cbn [length]. by rewrite IH.
Qed.

(** An iteration of the loop replaces snake [i], whose new body has three
    cells after a collision, and otherwise as many cells as before, or one
    more when it has eaten. *)
Lemma stepSnake_lengths (fuel : nat) (oracle : oracle_t) (i : nat) (W W' : world) :
  stepSnake fuel oracle i W = Done W' →
  ∃ s0 sf, snakes W !! i = Some s0 ∧ snakes W' = <[i := sf]> (snakes W) ∧
    (length (body sf) = 3%nat ∨ length (body sf) = length (body s0) ∨
     length (body sf) = S (length (body s0))).
Proof.
  unfold stepSnake. intros H.
  apply obind_Done in H as ([[W1 s] h] & Hd & H).
  apply decidePhase_spec in Hd
    as (s0 & h0 & Hs0 & _ & Hb & _ & _ & _ & Hss & _).
  exists s0. destruct (collides W1 s h).
  - unfold respawn, mathRandom in H. cbv zeta in H.
    apply obind_Done in H as ([st ai] & Hst & H). apply orThrow_Done in Hst.
    injection H as <-. eexists. split; [done|].
    cbn [snakes set_snakes set_ai]. rewrite Hss, list_insert_insert_eq.
    split; [reflexivity|]. left. cbn [body mkSnake].
    by eapply getStartState_length.
  - unfold advance in H. cbv zeta in H. destruct (findIndex _ _) as [foodIndex|].
    + unfold eatFood in H. cbv zeta in H. apply maintainFoodCount_frame in H.
      destruct H as (Hs & _). cbn [snakes set_snakes set_foods set_targets] in Hs.
      eexists. split; [done|]. rewrite Hs, Hss, !list_insert_insert_eq.
      split; [reflexivity|]. right. right. cbn [body set_body length]. by rewrite Hb.
    + injection H as <-. eexists. split; [done|].
      cbn [snakes set_snakes]. rewrite Hss, !list_insert_insert_eq.
      split; [reflexivity|]. right. left.
      change (length (removelast (h :: body s)) = length (body s0)).
      by rewrite length_removelast_cons, Hb.
Qed.

(** X18. In a window of at least 80 by 80 pixels, when [resizeCanvas] returns,
    which it does after the first tick, the grid has twice as many tiles in
    each direction as the window has whole lengths of 80 pixels, the world
    is sane, the two agents have the ids and the colours 0 and 1 and bodies
    of three or four cells, and there are 5 foods, distinct cells of the
    grid. *)
Theorem boot_is_sane (fuel : nat) (oracle : oracle_t)
    (innerWidth innerHeight now : Z) (W0 W : world) :
  (∀ n, 0 ≤ oracle n < Rng.two32) → 80 ≤ innerWidth → 80 ≤ innerHeight →
  resizeCanvas fuel oracle innerWidth innerHeight now W0 = Done W →
  Sane W ∧
  TILE_COLS W = 2 * (innerWidth / 80) ∧ TILE_ROWS W = 2 * (innerHeight / 80) ∧
  sid <$> snakes W = [0; 1] ∧ colorIndex <$> snakes W = [0; 1] ∧
  (∀ s, s ∈ snakes W → length (body s) = 3%nat ∨ length (body s) = 4%nat) ∧
  length (foods W) = 5%nat ∧ NoDup (foods W) ∧
  ∀ f, f ∈ foods W → inGrid (TILE_COLS W) (TILE_ROWS W) f.
Proof.
  intros Ho Hw Hh H. unfold resizeCanvas, initGame in H.
  apply obind_Done in H as (Wp & Hp & H). unfold gameTick in H.
  destruct (initGameBeforeTick_sane fuel oracle innerWidth innerHeight now W0 Wp
              Ho Hw Hh Hp)
    as (HSp & Hcp & Hrp & Hidp & Hcolp & Hlenp & Hfl & Hfnd & Hfg).
  assert (HFp : FiveFoods Wp).
  { constructor; [done|done|]. intros f Hf. by apply Hfg. }
  assert (Hlen2 : length (snakes Wp) = 2%nat).
  { rewrite <- (length_fmap sid), Hidp. done. }
  unfold gameLoop in H.
  destruct (gameLoopFrom_Sane fuel oracle (length (snakes Wp)) Ho 0 Wp HSp eq_refl)
    as [_ Hloop].
  destruct (Hloop W H) as (HS & Hc & Hr & Hid & Hcol).
  pose proof (gameLoopFrom_FiveFoods fuel oracle (length (snakes Wp)) Ho 0 Wp W
                HSp HFp eq_refl H) as [Hf1 Hf2 Hf3].
  split; [exact HS|]. split; [by rewrite Hc|]. split; [by rewrite Hr|].
  split; [by rewrite Hid|]. split; [by rewrite Hcol|].
  split; [|by split_and!].
  rewrite Hlen2 in H. cbn [gameLoopFrom] in H.
  apply obind_Done in H as (W1 & H0 & H).
  apply obind_Done in H as (W2 & H1 & H). injection H as ->.
  destruct (snakes Wp) as [|a [|b [|? ?]]] eqn:Ess; try done.
  assert (Ha : length (body a) = 3%nat)
    by (apply Hlenp; apply list_elem_of_here).
  assert (Hb : length (body b) = 3%nat)
    by (apply Hlenp; apply list_elem_of_further, list_elem_of_here).
  apply stepSnake_lengths in H0 as (s0 & a' & Hs0 & Hss1 & Hla).
  rewrite Ess in Hs0, Hss1. cbn in Hs0, Hss1. injection Hs0 as <-.
  apply stepSnake_lengths in H1 as (s1 & b' & Hs1 & Hss2 & Hlb).
  rewrite Hss1 in Hs1, Hss2. cbn in Hs1, Hss2. injection Hs1 as <-.
  intros s Hs. rewrite Hss2 in Hs.
  apply elem_of_cons in Hs as [->|Hs]; [lia|].
  apply list_elem_of_singleton in Hs as ->. lia.
Qed.

Lemma boot_is_sane_witness :
  ∃ W,
    (∀ n, 0 ≤ sampleRandom n < Rng.two32) ∧ 80 ≤ 160 ∧ 80 ≤ 160 ∧
    resizeCanvas 20 sampleRandom 160 160 3 emptyWorld = Done W ∧
    Sane W ∧
    TILE_COLS W = 2 * (160 / 80) ∧ TILE_ROWS W = 2 * (160 / 80) ∧
    sid <$> snakes W = [0; 1] ∧ colorIndex <$> snakes W = [0; 1] ∧
    (∀ s, s ∈ snakes W → length (body s) = 3%nat ∨ length (body s) = 4%nat) ∧
    length (foods W) = 5%nat ∧ NoDup (foods W) ∧
    ∀ f, f ∈ foods W → inGrid (TILE_COLS W) (TILE_ROWS W) f.
Proof.
  assert (H : ∃ W, resizeCanvas 20 sampleRandom 160 160 3 emptyWorld = Done W).
  { vm_compute. eexists. reflexivity. }
  destruct H as [W H]. exists W.
  split; [exact sampleRandom_range|]. split; [lia|]. split; [lia|].
  split; [exact H|].
  exact (boot_is_sane 20 sampleRandom 160 160 3 emptyWorld W sampleRandom_range
           ltac:(lia) ltac:(lia) H).
Defined.

